(* ===================================================================== *)
(*  OLUNOX: the polling peer-connection layer                             *)
(*  (src/src/hooks/useServerlessWebRTC.ts)                                *)
(*                                                                       *)
(*  A shallow embedding of the hook's connection pool. The mutable refs  *)
(*  and the React state of the hook become one record; every function of *)
(*  the hook becomes a transformer of that record; the RTCPeerConnection *)
(*  objects live in an explicit store, addressed by reference, so that a *)
(*  closure that captured a connection (the grace-window timer, the      *)
(*  handlers installed on it) keeps pointing at that very object after   *)
(*  the map entry of the peer has been replaced.                         *)
(*                                                                       *)
(*  What is outside the repository is kept abstract: SDP texts,          *)
(*  candidates and streams are opaque; a connection object carries the   *)
(*  fields the hook reads and the log of the calls the hook made on it;  *)
(*  whether an awaited browser call throws is an input of each handler   *)
(*  run. [setTimeout] callbacks are data in a list of pending timers     *)
(*  and fire as events of a run.                                         *)
(*                                                                       *)
(*  Two simplifications. A handler run is atomic: the awaits inside one  *)
(*  run are not interleaved with other events. The functions read        *)
(*  [localStream], [gameId] and [playerId] from the current state, that  *)
(*  is, every function is the one of the latest render.                  *)
(*                                                                       *)
(*  The relay the hook talks to (the webrtc-signaling function) and the  *)
(*  two callbacks of AppContent that call the hook are embedded as well, *)
(*  in sections 7c to 7e, the summarization function and its client in   *)
(*  section 7f, poll responses with messages that lack a payload in      *)
(*  7g, the polling interval and the whole effect cleanup in 7h.         *)
(* ===================================================================== *)

From Stdlib Require Import ZArith Ascii String List Bool Lia.
From stdpp Require Import base option gmap strings list fin_maps.

Local Open Scope string_scope.
Local Open Scope Z_scope.
Local Open Scope list_scope.

(* --------------------------------------------------------------------- *)
(* 1. Values exchanged with the browser and with the relay               *)
(* --------------------------------------------------------------------- *)

(** [RTCPeerConnection.connectionState]. *)
Inductive ConnState :=
| CNew | CConnecting | CConnected | CDisconnected | CFailed | CClosed.

(** [RTCPeerConnection.signalingState]. *)
Inductive SigState :=
| SStable | SHaveLocalOffer | SHaveRemoteOffer | SClosed.

Inductive SdpType := SdpOffer | SdpAnswer.

(** An [RTCSessionDescriptionInit]; the SDP text is an opaque number. *)
Record Sdp := { sdpType : SdpType; sdpBody : nat }.

(** An [RTCIceCandidateInit], opaque. *)
Definition Candidate := nat.

(** A [MediaStream], opaque. *)
Definition Stream := nat.

#[global] Instance ConnState_eq_dec : EqDecision ConnState.
Proof. solve_decision. Defined.
#[global] Instance SigState_eq_dec : EqDecision SigState.
Proof. solve_decision. Defined.
#[global] Instance SdpType_eq_dec : EqDecision SdpType.
Proof. solve_decision. Defined.
#[global] Instance Sdp_eq_dec : EqDecision Sdp.
Proof. solve_decision. Defined.

(** The method calls the hook makes on a connection, in program order.
    The browser is outside the repository: what a call does inside the
    browser is not modelled, only that it was made and when. *)
Inductive PcOp :=
| OpAddTracks (st : Stream)
| OpCreateOffer
| OpCreateAnswer
| OpSetLocal (d : Sdp)
| OpSetRemote (d : Sdp)
| OpAddIce (c : Candidate)
| OpClose.

#[global] Instance PcOp_eq_dec : EqDecision PcOp.
Proof. solve_decision. Defined.

(** The part of an RTCPeerConnection the hook reads, the peer its
    handlers were created for (the [peerId] their closures captured),
    and the log of calls made on it. *)
Record PC := {
  pcPeer : string;
  connectionState : ConnState;
  signalingState : SigState;
  remoteDescription : option Sdp;
  ops : list PcOp
}.

(** [new RTCPeerConnection(...)]. *)
Definition newPC (peerId : string) : PC :=
  {| pcPeer := peerId; connectionState := CNew; signalingState := SStable;
     remoteDescription := None; ops := [] |}.

Definition pcLog (o : PcOp) (pc : PC) : PC :=
  {| pcPeer := pcPeer pc; connectionState := connectionState pc;
     signalingState := signalingState pc;
     remoteDescription := remoteDescription pc; ops := ops pc ++ [o] |}.

(** [pc.close()]: both states become 'closed'. *)
Definition pcClose (pc : PC) : PC :=
  {| pcPeer := pcPeer pc; connectionState := CClosed; signalingState := SClosed;
     remoteDescription := remoteDescription pc; ops := ops pc ++ [OpClose] |}.

(** [pc.setLocalDescription(d)] when it resolves: a local offer moves the
    signaling state to 'have-local-offer', a local answer back to
    'stable'. *)
Definition pcSetLocal (d : Sdp) (pc : PC) : PC :=
  {| pcPeer := pcPeer pc; connectionState := connectionState pc;
     signalingState := match sdpType d with
                       | SdpOffer => SHaveLocalOffer
                       | SdpAnswer => SStable
                       end;
     remoteDescription := remoteDescription pc;
     ops := ops pc ++ [OpSetLocal d] |}.

(** [pc.setRemoteDescription(d)] when it resolves: [pc.remoteDescription]
    is set from then on. *)
Definition pcSetRemote (d : Sdp) (pc : PC) : PC :=
  {| pcPeer := pcPeer pc; connectionState := connectionState pc;
     signalingState := match sdpType d with
                       | SdpOffer => SHaveRemoteOffer
                       | SdpAnswer => SStable
                       end;
     remoteDescription := Some d;
     ops := ops pc ++ [OpSetRemote d] |}.

(** The browser reporting a new connection state on a connection. *)
Definition pcSetConnState (st : ConnState) (pc : PC) : PC :=
  {| pcPeer := pcPeer pc; connectionState := st;
     signalingState := signalingState pc;
     remoteDescription := remoteDescription pc; ops := ops pc |}.

(** [pc.connectionState === 'connected' || ... === 'connecting']. *)
Definition working (pc : PC) : bool :=
  match connectionState pc with
  | CConnected | CConnecting => true
  | _ => false
  end.

Inductive MsgKind := KOffer | KAnswer | KIce.

Inductive Payload := PDesc (d : Sdp) | PCand (c : Candidate).

(** The body of one POST to the relay ([sendSignalingMessage]). *)
Record Post := {
  postType : MsgKind;
  postGame : string;
  postFrom : string;
  postTo : string;
  postPayload : Payload
}.

(** One message of a poll response, as [handleSignalingMessage] reads it:
    [type], [from], [payload]; any other [type] falls through the switch. *)
Inductive Message :=
| MsgOffer (from : string) (offer : Sdp)
| MsgAnswer (from : string) (answer : Sdp)
| MsgIce (from : string) (candidate : Candidate)
| MsgOther (from : string).

(** What a pending [setTimeout] will run. *)
Inductive Callback :=
| GraceCheck (pc : nat) (peerId : string)
| RetryCall (peerId : string)
| EstablishCall (peerId : string).

Record Timer := { due : Z; callback : Callback }.

(* --------------------------------------------------------------------- *)
(* 2. The state of the hook                                              *)
(* --------------------------------------------------------------------- *)

(** The refs and React state of [useServerlessWebRTC], the store of the
    connection objects created so far ([heap], indexed by creation
    order), the clock and pending timers, and the requests posted. *)
Record Hook := {
  localStream : option Stream;
  gameId : option string;
  playerId : option string;
  remoteStreams : gmap string Stream;
  heap : list PC;
  peerConnections : gmap string nat;
  connectionAttempts : gmap string Z;
  pendingOffers : gset string;
  isInitiator : gmap string bool;
  connectionStates : gmap string ConnState;
  establishedConnections : gset string;
  iceCandidateQueue : gmap string (list Candidate);
  now : Z;
  timers : list Timer;
  sent : list Post
}.

Definition initial (g p : option string) : Hook :=
  {| localStream := None; gameId := g; playerId := p;
     remoteStreams := ∅; heap := []; peerConnections := ∅;
     connectionAttempts := ∅; pendingOffers := ∅; isInitiator := ∅;
     connectionStates := ∅; establishedConnections := ∅;
     iceCandidateQueue := ∅; now := 0; timers := []; sent := [] |}.

(** Field updates. *)
Definition setLocalStream (v : option Stream) (s : Hook) : Hook :=
  {| localStream := v; gameId := gameId s; playerId := playerId s;
     remoteStreams := remoteStreams s; heap := heap s;
     peerConnections := peerConnections s;
     connectionAttempts := connectionAttempts s;
     pendingOffers := pendingOffers s; isInitiator := isInitiator s;
     connectionStates := connectionStates s;
     establishedConnections := establishedConnections s;
     iceCandidateQueue := iceCandidateQueue s; now := now s;
     timers := timers s; sent := sent s |}.

Definition setRemoteStreams (f : gmap string Stream → gmap string Stream)
    (s : Hook) : Hook :=
  {| localStream := localStream s; gameId := gameId s; playerId := playerId s;
     remoteStreams := f (remoteStreams s); heap := heap s;
     peerConnections := peerConnections s;
     connectionAttempts := connectionAttempts s;
     pendingOffers := pendingOffers s; isInitiator := isInitiator s;
     connectionStates := connectionStates s;
     establishedConnections := establishedConnections s;
     iceCandidateQueue := iceCandidateQueue s; now := now s;
     timers := timers s; sent := sent s |}.

Definition updHeap (f : list PC → list PC) (s : Hook) : Hook :=
  {| localStream := localStream s; gameId := gameId s; playerId := playerId s;
     remoteStreams := remoteStreams s; heap := f (heap s);
     peerConnections := peerConnections s;
     connectionAttempts := connectionAttempts s;
     pendingOffers := pendingOffers s; isInitiator := isInitiator s;
     connectionStates := connectionStates s;
     establishedConnections := establishedConnections s;
     iceCandidateQueue := iceCandidateQueue s; now := now s;
     timers := timers s; sent := sent s |}.

Definition updPeerConnections (f : gmap string nat → gmap string nat)
    (s : Hook) : Hook :=
  {| localStream := localStream s; gameId := gameId s; playerId := playerId s;
     remoteStreams := remoteStreams s; heap := heap s;
     peerConnections := f (peerConnections s);
     connectionAttempts := connectionAttempts s;
     pendingOffers := pendingOffers s; isInitiator := isInitiator s;
     connectionStates := connectionStates s;
     establishedConnections := establishedConnections s;
     iceCandidateQueue := iceCandidateQueue s; now := now s;
     timers := timers s; sent := sent s |}.

Definition updConnectionAttempts (f : gmap string Z → gmap string Z)
    (s : Hook) : Hook :=
  {| localStream := localStream s; gameId := gameId s; playerId := playerId s;
     remoteStreams := remoteStreams s; heap := heap s;
     peerConnections := peerConnections s;
     connectionAttempts := f (connectionAttempts s);
     pendingOffers := pendingOffers s; isInitiator := isInitiator s;
     connectionStates := connectionStates s;
     establishedConnections := establishedConnections s;
     iceCandidateQueue := iceCandidateQueue s; now := now s;
     timers := timers s; sent := sent s |}.

Definition updPendingOffers (f : gset string → gset string) (s : Hook) : Hook :=
  {| localStream := localStream s; gameId := gameId s; playerId := playerId s;
     remoteStreams := remoteStreams s; heap := heap s;
     peerConnections := peerConnections s;
     connectionAttempts := connectionAttempts s;
     pendingOffers := f (pendingOffers s); isInitiator := isInitiator s;
     connectionStates := connectionStates s;
     establishedConnections := establishedConnections s;
     iceCandidateQueue := iceCandidateQueue s; now := now s;
     timers := timers s; sent := sent s |}.

Definition updIsInitiator (f : gmap string bool → gmap string bool)
    (s : Hook) : Hook :=
  {| localStream := localStream s; gameId := gameId s; playerId := playerId s;
     remoteStreams := remoteStreams s; heap := heap s;
     peerConnections := peerConnections s;
     connectionAttempts := connectionAttempts s;
     pendingOffers := pendingOffers s; isInitiator := f (isInitiator s);
     connectionStates := connectionStates s;
     establishedConnections := establishedConnections s;
     iceCandidateQueue := iceCandidateQueue s; now := now s;
     timers := timers s; sent := sent s |}.

Definition updConnectionStates
    (f : gmap string ConnState → gmap string ConnState) (s : Hook) : Hook :=
  {| localStream := localStream s; gameId := gameId s; playerId := playerId s;
     remoteStreams := remoteStreams s; heap := heap s;
     peerConnections := peerConnections s;
     connectionAttempts := connectionAttempts s;
     pendingOffers := pendingOffers s; isInitiator := isInitiator s;
     connectionStates := f (connectionStates s);
     establishedConnections := establishedConnections s;
     iceCandidateQueue := iceCandidateQueue s; now := now s;
     timers := timers s; sent := sent s |}.

Definition updEstablished (f : gset string → gset string) (s : Hook) : Hook :=
  {| localStream := localStream s; gameId := gameId s; playerId := playerId s;
     remoteStreams := remoteStreams s; heap := heap s;
     peerConnections := peerConnections s;
     connectionAttempts := connectionAttempts s;
     pendingOffers := pendingOffers s; isInitiator := isInitiator s;
     connectionStates := connectionStates s;
     establishedConnections := f (establishedConnections s);
     iceCandidateQueue := iceCandidateQueue s; now := now s;
     timers := timers s; sent := sent s |}.

Definition updQueue
    (f : gmap string (list Candidate) → gmap string (list Candidate))
    (s : Hook) : Hook :=
  {| localStream := localStream s; gameId := gameId s; playerId := playerId s;
     remoteStreams := remoteStreams s; heap := heap s;
     peerConnections := peerConnections s;
     connectionAttempts := connectionAttempts s;
     pendingOffers := pendingOffers s; isInitiator := isInitiator s;
     connectionStates := connectionStates s;
     establishedConnections := establishedConnections s;
     iceCandidateQueue := f (iceCandidateQueue s); now := now s;
     timers := timers s; sent := sent s |}.

Definition setNow (t : Z) (s : Hook) : Hook :=
  {| localStream := localStream s; gameId := gameId s; playerId := playerId s;
     remoteStreams := remoteStreams s; heap := heap s;
     peerConnections := peerConnections s;
     connectionAttempts := connectionAttempts s;
     pendingOffers := pendingOffers s; isInitiator := isInitiator s;
     connectionStates := connectionStates s;
     establishedConnections := establishedConnections s;
     iceCandidateQueue := iceCandidateQueue s; now := t;
     timers := timers s; sent := sent s |}.

Definition updTimers (f : list Timer → list Timer) (s : Hook) : Hook :=
  {| localStream := localStream s; gameId := gameId s; playerId := playerId s;
     remoteStreams := remoteStreams s; heap := heap s;
     peerConnections := peerConnections s;
     connectionAttempts := connectionAttempts s;
     pendingOffers := pendingOffers s; isInitiator := isInitiator s;
     connectionStates := connectionStates s;
     establishedConnections := establishedConnections s;
     iceCandidateQueue := iceCandidateQueue s; now := now s;
     timers := f (timers s); sent := sent s |}.

Definition updSent (f : list Post → list Post) (s : Hook) : Hook :=
  {| localStream := localStream s; gameId := gameId s; playerId := playerId s;
     remoteStreams := remoteStreams s; heap := heap s;
     peerConnections := peerConnections s;
     connectionAttempts := connectionAttempts s;
     pendingOffers := pendingOffers s; isInitiator := isInitiator s;
     connectionStates := connectionStates s;
     establishedConnections := establishedConnections s;
     iceCandidateQueue := iceCandidateQueue s; now := now s;
     timers := timers s; sent := f (sent s) |}.

(* --------------------------------------------------------------------- *)
(* 3. Helpers: JavaScript truthiness, the store, timers, thrown errors   *)
(* --------------------------------------------------------------------- *)

(** [!!x] for an optional string: [undefined] and the empty string are
    falsy. *)
Definition truthy (o : option string) : bool :=
  match o with
  | Some x => negb (String.eqb x "")
  | None => false
  end.

(** [playerId! < from]: JavaScript compares two strings code unit by code
    unit; with [playerId] undefined the comparison is false. *)
Definition idLess (me : option string) (from : string) : bool :=
  match me with
  | Some p => String.ltb p from
  | None => false
  end.

(** Apply a method to the connection object at reference [r]. *)
Definition onPc (r : nat) (f : PC → PC) (s : Hook) : Hook :=
  updHeap (alter f r) s.

(** [existingPc.connectionState] is 'connected' or 'connecting'. *)
Definition pcWorking (s : Hook) (r : nat) : bool :=
  from_option working false (heap s !! r).

(** [setTimeout(cb, delay)]. *)
Definition setTimeout (delay : Z) (cb : Callback) (s : Hook) : Hook :=
  updTimers (λ ts, ts ++ [{| due := now s + delay; callback := cb |}]) s.

(** What the browser does with the awaited calls of one handler run: the
    index of the awaited call that throws, if any, and the SDP text that
    [createOffer] / [createAnswer] produces. *)
Record Env := { failure : option nat; produced : nat }.

Definition allOk (n : nat) : Env := {| failure := None; produced := n |}.

(** A computation on the hook state that may throw; the state reached
    before the throw is kept, as in JavaScript. *)
Definition Async (A : Type) : Type := Hook → Hook * option A.

#[global] Instance Async_ret : MRet Async := λ A a s, (s, Some a).
#[global] Instance Async_bind : MBind Async := λ A B f m s,
  match m s with
  | (s', Some a) => f a s'
  | (s', None) => (s', None)
  end.

Definition throw {A : Type} : Async A := λ s, (s, None).

Definition act (f : Hook → Hook) : Async unit := λ s, (f s, Some tt).

(** The [k]-th awaited browser call of a handler: it throws when the
    environment says so, and otherwise runs [m]. *)
Definition await {A : Type} (env : Env) (k : nat) (m : Async A) : Async A :=
  if bool_decide (failure env = Some k) then throw else m.

(** [try { body } catch (error) { handler }]. *)
Definition tryCatch (body : Async unit) (handler : Hook → Hook) (s : Hook) : Hook :=
  match body s with
  | (s', Some _) => s'
  | (s', None) => handler s'
  end.

(* --------------------------------------------------------------------- *)
(* 4. The functions of the hook                                          *)
(* --------------------------------------------------------------------- *)

(** [sendSignalingMessage]: one POST to the relay, or nothing without a
    game or player id. A failed request is logged by the hook and changes
    nothing, so only the request is recorded. *)
Definition sendSignalingMessage (type : MsgKind) (to : string)
    (payload : Payload) (s : Hook) : Hook :=
  if negb (truthy (gameId s)) || negb (truthy (playerId s)) then s
  else updSent (λ l, l ++ [{| postType := type;
                             postGame := default "" (gameId s);
                             postFrom := default "" (playerId s);
                             postTo := to;
                             postPayload := payload |}]) s.

(** The body of [createPeerConnection] after its guard: a new connection
    object gets the local tracks, is entered in the three maps, and the
    candidates queued for the peer are handed to it and the queue entry
    deleted. *)
Definition openPeerConnection (peerId : string) (isInitiatingCall : bool)
    (s : Hook) : nat * Hook :=
  let r := length (heap s) in
  let pc := match localStream s with
            | Some st => pcLog (OpAddTracks st) (newPC peerId)
            | None => newPC peerId
            end in
  let s := updHeap (λ h, h ++ [pc]) s in
  let s := updPeerConnections <[peerId := r]> s in
  let s := updIsInitiator <[peerId := isInitiatingCall]> s in
  let s := updConnectionStates <[peerId := connectionState pc]> s in
  let s := match iceCandidateQueue s !! peerId with
           | Some (c :: q) =>
               updQueue (delete peerId)
                 (onPc r (λ pc, fold_left (λ pc c, pcLog (OpAddIce c) pc)
                                          (c :: q) pc) s)
           | _ => s
           end in
  (r, s).

(** [createPeerConnection(peerId, isInitiatingCall)]: a connection that is
    connected or connecting is returned as it is; any other existing one
    is closed before the new one is made. *)
Definition createPeerConnection (peerId : string) (isInitiatingCall : bool)
    (s : Hook) : nat * Hook :=
  let existingPc := peerConnections s !! peerId in
  match existingPc with
  | Some r0 =>
      if pcWorking s r0 then (r0, s)
      else openPeerConnection peerId isInitiatingCall (onPc r0 pcClose s)
  | None => openPeerConnection peerId isInitiatingCall s
  end.

(** [removePeerConnection(peerId)]. *)
Definition removePeerConnection (peerId : string) (s : Hook) : Hook :=
  let s := match peerConnections s !! peerId with
           | Some r => updPeerConnections (delete peerId) (onPc r pcClose s)
           | None => s
           end in
  let s := updConnectionAttempts (delete peerId) s in
  let s := updPendingOffers (λ p, p ∖ {[peerId]}) s in
  let s := updIsInitiator (delete peerId) s in
  let s := updConnectionStates (delete peerId) s in
  let s := updEstablished (λ e, e ∖ {[peerId]}) s in
  let s := updQueue (delete peerId) s in
  setRemoteStreams (delete peerId) s.

(** The delay of the retry timer: [2000 + (attempts * 2000)]. *)
Definition retryDelay (attempts : Z) : Z := 2000 + attempts * 2000.

(** [handleConnectionFailure(peerId)]. *)
Definition handleConnectionFailure (peerId : string) (s : Hook) : Hook :=
  let attempts := default 0 (connectionAttempts s !! peerId) in
  let wasInitiator := default false (isInitiator s !! peerId) in
  if (attempts <? 3) && wasInitiator then
    let s := updConnectionAttempts <[peerId := attempts + 1]> s in
    let s := removePeerConnection peerId s in
    setTimeout (retryDelay attempts) (RetryCall peerId) s
  else removePeerConnection peerId s.

(** [pc.createOffer(...)] / [pc.createAnswer(...)] when they resolve. *)
Definition createOffer (env : Env) (r : nat) : Async Sdp := λ s,
  (onPc r (pcLog OpCreateOffer) s,
   Some {| sdpType := SdpOffer; sdpBody := produced env |}).

Definition createAnswer (env : Env) (r : nat) : Async Sdp := λ s,
  (onPc r (pcLog OpCreateAnswer) s,
   Some {| sdpType := SdpAnswer; sdpBody := produced env |}).

(** [initiateCall(peerId)]. Awaited calls: 0 [createOffer],
    1 [setLocalDescription]. *)
Definition initiateCall (env : Env) (peerId : string) (s : Hook) : Hook :=
  if negb (bool_decide (is_Some (localStream s)))
     || negb (truthy (gameId s)) || negb (truthy (playerId s)) then s
  else if bool_decide (peerId ∈ pendingOffers s) then s
  else if from_option (pcWorking s) false (peerConnections s !! peerId) then s
  else
    let s := updPendingOffers (λ p, p ∪ {[peerId]}) s in
    let '(pc, s) := createPeerConnection peerId true s in
    tryCatch
      (offer ← await env 0 (createOffer env pc);
       await env 1 (act (onPc pc (pcSetLocal offer)));;
       act (sendSignalingMessage KOffer peerId (PDesc offer)))
      (λ s, removePeerConnection peerId
              (updPendingOffers (λ p, p ∖ {[peerId]}) s))
      s.

(** [handleOffer(from, offer)]. Awaited calls: 0 [setRemoteDescription],
    1 [createAnswer], 2 [setLocalDescription]. *)
Definition handleOffer (env : Env) (from : string) (offer : Sdp) (s : Hook)
    : Hook :=
  if negb (bool_decide (is_Some (localStream s))) || negb (truthy (gameId s))
  then s
  else if from_option (pcWorking s) false (peerConnections s !! from) then s
  else if bool_decide (from ∈ pendingOffers s) && idLess (playerId s) from
  then s
  else
    let '(pc, s) := createPeerConnection from false s in
    tryCatch
      (await env 0 (act (onPc pc (pcSetRemote offer)));;
       answer ← await env 1 (createAnswer env pc);
       await env 2 (act (onPc pc (pcSetLocal answer)));;
       act (sendSignalingMessage KAnswer from (PDesc answer)))
      (removePeerConnection from)
      s.

(** [pc && pc.signalingState === 'have-local-offer'] for the map entry of
    a peer. *)
Definition awaitsAnswer (s : Hook) (from : string) : option nat :=
  r ← peerConnections s !! from;
  pc ← heap s !! r;
  if bool_decide (signalingState pc = SHaveLocalOffer) then Some r else None.

(** [handleAnswer(from, answer)]. Awaited call: 0 [setRemoteDescription]. *)
Definition handleAnswer (env : Env) (from : string) (answer : Sdp) (s : Hook)
    : Hook :=
  match awaitsAnswer s from with
  | Some pc =>
      tryCatch
        (await env 0 (act (onPc pc (pcSetRemote answer)));;
         act (updPendingOffers (λ p, p ∖ {[from]})))
        (removePeerConnection from)
        s
  | None => s
  end.

(** [pc && pc.remoteDescription] for the map entry of a peer. *)
Definition hasRemoteDescription (s : Hook) (from : string) : option nat :=
  r ← peerConnections s !! from;
  pc ← heap s !! r;
  if bool_decide (is_Some (remoteDescription pc)) then Some r else None.

(** [handleIceCandidate(from, candidate)]: [addIceCandidate] at once on a
    connection that has a remote description (an error is caught and
    logged), otherwise the candidate is pushed on the peer's queue. *)
Definition handleIceCandidate (from : string) (candidate : Candidate)
    (s : Hook) : Hook :=
  match hasRemoteDescription s from with
  | Some pc => onPc pc (pcLog (OpAddIce candidate)) s
  | None =>
      let queue := default [] (iceCandidateQueue s !! from) in
      updQueue <[from := queue ++ [candidate]]> s
  end.

(** The [forEach] of [establishConnections]: peers not yet established
    get a timer [index * 1500] ms from now. *)
Fixpoint scheduleCalls (index : Z) (peerIds : list string) (s : Hook) : Hook :=
  match peerIds with
  | [] => s
  | peerId :: rest =>
      let s := if bool_decide (peerId ∈ establishedConnections s) then s
               else setTimeout (index * 1500) (EstablishCall peerId) s in
      scheduleCalls (index + 1) rest s
  end.

(** [establishConnections(peerIds)]. *)
Definition establishConnections (peerIds : list string) (s : Hook) : Hook :=
  if negb (bool_decide (is_Some (localStream s)))
     || negb (truthy (gameId s)) || negb (truthy (playerId s))
     || bool_decide (peerIds = [])
  then s
  else scheduleCalls 0 peerIds s.

Definition messageFrom (m : Message) : string :=
  match m with
  | MsgOffer from _ | MsgAnswer from _ | MsgIce from _ | MsgOther from => from
  end.

(** [handleSignalingMessage(message)]. *)
Definition handleSignalingMessage (env : Env) (message : Message) (s : Hook)
    : Hook :=
  if bool_decide (Some (messageFrom message) = playerId s) then s
  else match message with
       | MsgOffer from payload => handleOffer env from payload s
       | MsgAnswer from payload => handleAnswer env from payload s
       | MsgIce from payload => handleIceCandidate from payload s
       | MsgOther _ => s
       end.

(** [pollSignalingMessages] on a response carrying [messages]: they are
    handled one after the other, in the order of the response. *)
Definition pollSignalingMessages (messages : list (Env * Message)) (s : Hook)
    : Hook :=
  if negb (truthy (gameId s)) || negb (truthy (playerId s)) then s
  else fold_left (λ s m, handleSignalingMessage m.1 m.2 s) messages s.

(* --------------------------------------------------------------------- *)
(* 5. The callbacks installed on a connection, and the timers            *)
(* --------------------------------------------------------------------- *)

(** [pc.onconnectionstatechange] of the connection at [r]; it reads
    [pc.connectionState] of that very object and the [peerId] it was
    created for. *)
Definition onconnectionstatechange (r : nat) (s : Hook) : Hook :=
  match heap s !! r with
  | None => s
  | Some pc =>
      let peerId := pcPeer pc in
      let newState := connectionState pc in
      let oldState := connectionStates s !! peerId in
      if bool_decide (Some newState ≠ oldState) then
        let s := updConnectionStates <[peerId := newState]> s in
        match newState with
        | CConnected =>
            let s := updConnectionAttempts (delete peerId) s in
            let s := updPendingOffers (λ p, p ∖ {[peerId]}) s in
            updEstablished (λ e, e ∪ {[peerId]}) s
        | CFailed =>
            let s := updEstablished (λ e, e ∖ {[peerId]}) s in
            handleConnectionFailure peerId s
        | CDisconnected =>
            let s := updEstablished (λ e, e ∖ {[peerId]}) s in
            setTimeout 10000 (GraceCheck r peerId) s
        | _ => s
        end
      else s
  end.

(** [RTCPeerConnection.iceConnectionState]. *)
Inductive IceState :=
| IceNew | IceChecking | IceConnected | IceCompleted | IceFailed
| IceDisconnected | IceClosed.

(** [pc.oniceconnectionstatechange] of the connection at [r]. *)
Definition oniceconnectionstatechange (r : nat) (ice : IceState) (s : Hook)
    : Hook :=
  match heap s !! r, ice with
  | Some pc, IceFailed => handleConnectionFailure (pcPeer pc) s
  | _, _ => s
  end.

(** [pc.ontrack] of the connection at [r]: the first stream of the event
    is entered under the peer when it is active and has a track. *)
Definition ontrack (r : nat) (remoteStream : option Stream) (active : bool)
    (tracks : nat) (s : Hook) : Hook :=
  match heap s !! r, remoteStream with
  | Some pc, Some st =>
      if active && negb (Nat.eqb tracks 0)
      then setRemoteStreams <[pcPeer pc := st]> s
      else s
  | _, _ => s
  end.

(** [pc.onicecandidate] of the connection at [r]: a local candidate is
    posted to the peer; the end-of-candidates event ([null]) is logged
    only. *)
Definition onicecandidate (r : nat) (candidate : option Candidate) (s : Hook)
    : Hook :=
  match heap s !! r, candidate with
  | Some pc, Some c =>
      if truthy (gameId s)
      then sendSignalingMessage KIce (pcPeer pc) (PCand c) s
      else s
  | _, _ => s
  end.

(** The body of a timer callback. *)
Definition runCallback (env : Env) (cb : Callback) (s : Hook) : Hook :=
  match cb with
  | GraceCheck r peerId =>
      if bool_decide (connectionState <$> heap s !! r = Some CDisconnected)
      then handleConnectionFailure peerId s
      else s
  | RetryCall peerId =>
      if bool_decide (is_Some (localStream s))
         && negb (bool_decide (is_Some (peerConnections s !! peerId)))
      then initiateCall env peerId s
      else s
  | EstablishCall peerId =>
      if from_option (pcWorking s) false (peerConnections s !! peerId)
      then s
      else initiateCall env peerId s
  end.

(** The timer at position [i] fires, once it is due. *)
Definition fire (env : Env) (i : nat) (s : Hook) : Hook :=
  match timers s !! i with
  | Some t =>
      if due t <=? now s
      then runCallback env (callback t) (updTimers (delete i) s)
      else s
  | None => s
  end.

(** The cleanup of the effect that depends on [localStream], as far as
    the refs of connections go: every connection of the map is closed
    and every ref is cleared. The tracks it stops and the interval it
    clears are in [effectCleanup]. *)
Definition cleanup (s : Hook) : Hook :=
  let s := updHeap (λ h, foldr (λ e h, alter pcClose e.2 h) h
                           (map_to_list (peerConnections s))) s in
  let s := updPeerConnections (λ _, ∅) s in
  let s := updConnectionAttempts (λ _, ∅) s in
  let s := updPendingOffers (λ _, ∅) s in
  let s := updIsInitiator (λ _, ∅) s in
  let s := updConnectionStates (λ _, ∅) s in
  let s := updEstablished (λ _, ∅) s in
  updQueue (λ _, ∅) s.

(** [startLocalStream] when [getUserMedia] resolves: [setLocalStream]
    re-renders, which runs the cleanup of the previous render's effect. *)
Definition startLocalStream (st : Stream) (s : Hook) : Hook :=
  setLocalStream (Some st) (cleanup s).

(* --------------------------------------------------------------------- *)
(* 6. Runs of the hook                                                   *)
(* --------------------------------------------------------------------- *)

(** What can happen to a mounted hook: calls from the UI, a poll
    response, browser events on a connection, time passing, a timer
    firing. The handlers run one at a time (one JavaScript thread); the
    awaits inside one handler run are not interleaved with other events
    here. *)
Inductive Event :=
| EvStartLocalStream (st : Stream)
| EvEstablish (peerIds : list string)
| EvInitiateCall (env : Env) (peerId : string)
| EvPoll (messages : list (Env * Message))
| EvConnState (r : nat) (st : ConnState)
| EvIceState (r : nat) (ice : IceState)
| EvTrack (r : nat) (remoteStream : option Stream) (active : bool) (tracks : nat)
| EvCandidate (r : nat) (candidate : option Candidate)
| EvTick (dt : Z)
| EvFire (env : Env) (i : nat)
| EvUnmount.

(** The browser moves a connection to a new state and calls its handler;
    a closed connection changes no more, and 'closed' is reached by
    [close()] only. *)
Definition connStateEvent (r : nat) (st : ConnState) (s : Hook) : Hook :=
  match heap s !! r with
  | Some pc =>
      if bool_decide (connectionState pc = CClosed) || bool_decide (st = CClosed)
      then s
      else onconnectionstatechange r (onPc r (pcSetConnState st) s)
  | None => s
  end.

(** Likewise for the ICE connection state, which the hook only reads
    from the event. *)
Definition iceStateEvent (r : nat) (ice : IceState) (s : Hook) : Hook :=
  match heap s !! r with
  | Some pc =>
      if bool_decide (connectionState pc = CClosed) then s
      else oniceconnectionstatechange r ice s
  | None => s
  end.

Definition exec (e : Event) (s : Hook) : Hook :=
  match e with
  | EvStartLocalStream st => startLocalStream st s
  | EvEstablish peerIds => establishConnections peerIds s
  | EvInitiateCall env peerId => initiateCall env peerId s
  | EvPoll messages => pollSignalingMessages messages s
  | EvConnState r st => connStateEvent r st s
  | EvIceState r ice => iceStateEvent r ice s
  | EvTrack r remoteStream active tracks => ontrack r remoteStream active tracks s
  | EvCandidate r candidate => onicecandidate r candidate s
  | EvTick dt => if 0 <=? dt then setNow (now s + dt) s else s
  | EvFire env i => fire env i s
  | EvUnmount => cleanup s
  end.

Definition run (es : list Event) (s : Hook) : Hook :=
  fold_left (λ s e, exec e s) es s.

(** The states a hook mounted with [g] and [p] can be in. *)
Definition reachable (g p : option string) (s : Hook) : Prop :=
  ∃ es, s = run es (initial g p).

(* --------------------------------------------------------------------- *)
(* 7. Vocabulary of the properties                                       *)
(* --------------------------------------------------------------------- *)

(** The role the hook records for a peer in [isInitiator]. *)
Inductive Role := Initiator | Responder.

Definition roleOf (s : Hook) (peerId : string) : option Role :=
  (λ b : bool, if b then Initiator else Responder) <$> isInitiator s !! peerId.

(** The request that carries an answer with SDP text [n] to [to]. *)
Definition answerPost (s : Hook) (to : string) (n : nat) : Post :=
  {| postType := KAnswer; postGame := default "" (gameId s);
     postFrom := default "" (playerId s); postTo := to;
     postPayload := PDesc {| sdpType := SdpAnswer; sdpBody := n |} |}.

(** The map entry of [peerId] is connected or connecting. *)
Definition hasWorking (s : Hook) (peerId : string) : bool :=
  from_option (pcWorking s) false (peerConnections s !! peerId).

(** A side of a glare: local media and ids are there, an offer toward
    [peer] is pending, made as initiator, and the connection to [peer] is
    neither connected nor connecting yet. *)
Definition inGlare (s : Hook) (me peer : string) : Prop :=
  is_Some (localStream s) ∧ truthy (gameId s) = true
  ∧ playerId s = Some me ∧ me ≠ ""
  ∧ peer ∈ pendingOffers s ∧ isInitiator s !! peer = Some true
  ∧ hasWorking s peer = false.

(** Past its guard, [createPeerConnection] closes what the map held for
    the peer before it opens the new connection. *)
Definition closeExisting (peerId : string) (s : Hook) : Hook :=
  match peerConnections s !! peerId with
  | Some r0 => onPc r0 pcClose s
  | None => s
  end.

(** The connection object of a peer, through the map. *)
Definition connectionOf (s : Hook) (peerId : string) : option PC :=
  r ← peerConnections s !! peerId; heap s !! r.

(** Everything the hook keeps under the key [y]. *)
Definition entriesOf (s : Hook) (y : string) :=
  (peerConnections s !! y, connectionOf s y, connectionAttempts s !! y,
   bool_decide (y ∈ pendingOffers s), isInitiator s !! y,
   connectionStates s !! y, bool_decide (y ∈ establishedConnections s),
   iceCandidateQueue s !! y, remoteStreams s !! y).

(** What the side of a glare that answers has done: the offer is the
    remote description of a new connection, the map entry of the peer,
    in signaling state 'stable' after [setRemoteDescription],
    [createAnswer] and [setLocalDescription]; the connection of its own
    attempt is closed; the role is Responder and the one request posted
    is the answer. *)
Definition answered (s s' : Hook) (peer : string) (offer : Sdp) (n : nat)
    : Prop :=
  roleOf s' peer = Some Responder
  ∧ sent s' = sent s ++ [answerPost s peer n]
  ∧ (∃ pc before,
       connectionOf s' peer = Some pc
       ∧ peerConnections s' !! peer = Some (length (heap s))
       ∧ connectionState pc = CNew ∧ signalingState pc = SStable
       ∧ remoteDescription pc = Some offer
       ∧ ops pc = before ++ [OpSetRemote offer; OpCreateAnswer;
                             OpSetLocal {| sdpType := SdpAnswer;
                                           sdpBody := n |}])
  ∧ (∀ r0 pc0, peerConnections s !! peer = Some r0 → heap s !! r0 = Some pc0 →
       heap s' !! r0 = Some (pcClose pc0)).

Definition callbackPeer (cb : Callback) : string :=
  match cb with
  | GraceCheck _ peerId | RetryCall peerId | EstablishCall peerId => peerId
  end.

(** The pending timers whose callback is about peer [y]. *)
Definition timersOf (s : Hook) (y : string) : list Timer :=
  filter (λ t, callbackPeer (callback t) = y) (timers s).

(** Every connection object that is not closed is the map entry of the
    peer it was created for. *)
Definition liveOwnedIn (h : list PC) (m : gmap string nat) : Prop :=
  ∀ r pc, h !! r = Some pc → connectionState pc ≠ CClosed →
          m !! pcPeer pc = Some r.

(** Every map entry points at an object created for that peer. *)
Definition poolOwnedIn (h : list PC) (m : gmap string nat) : Prop :=
  ∀ p r, m !! p = Some r → ∃ pc, h !! r = Some pc ∧ pcPeer pc = p.

Definition wellFormedIn (h : list PC) (m : gmap string nat) : Prop :=
  liveOwnedIn h m ∧ poolOwnedIn h m.

Definition liveOwned (s : Hook) : Prop :=
  liveOwnedIn (heap s) (peerConnections s).

Definition poolOwned (s : Hook) : Prop :=
  poolOwnedIn (heap s) (peerConnections s).

Definition wellFormed (s : Hook) : Prop :=
  wellFormedIn (heap s) (peerConnections s).

(** A method that keeps the peer of a connection and never reopens a
    closed one. *)
Definition tame (f : PC → PC) : Prop :=
  ∀ pc, pcPeer (f pc) = pcPeer pc
        ∧ (connectionState pc = CClosed → connectionState (f pc) = CClosed).

(** A function of the hook, or a computation that may throw, under which
    the well-formedness of the pool is kept. *)
Definition keeps (f : Hook → Hook) : Prop :=
  ∀ s, wellFormed s → wellFormed (f s).

Definition keepsAsync {A : Type} (t : Async A) : Prop :=
  ∀ s, wellFormed s → wellFormed (t s).1.

(** A function of the hook, or a computation that may throw, that
    returns with no attempt count on record if it started with none. *)
Definition quiet (f : Hook → Hook) : Prop :=
  ∀ s, connectionAttempts s = ∅ → connectionAttempts (f s) = ∅.

Definition quietAsync {A : Type} (t : Async A) : Prop :=
  ∀ s, connectionAttempts s = ∅ → connectionAttempts (t s).1 = ∅.

(** The candidates handed to a connection, in call order. *)
Definition applied (pc : PC) : list Candidate :=
  omap (λ o, match o with OpAddIce c => Some c | _ => None end) (ops pc).

(** Example runs: alice, with local media, calls bob. *)
Definition alice0 : Hook := initial (Some "g") (Some "alice").

Definition aliceCallsBob : Hook :=
  run [EvStartLocalStream 7%nat; EvInitiateCall (allOk 1) "bob"] alice0.

(** alice's connection to bob has become connected. *)
Definition aliceConnected : Hook :=
  run [EvPoll [(allOk 0, MsgAnswer "bob" {| sdpType := SdpAnswer; sdpBody := 3 |})];
       EvConnState 0 CConnecting; EvConnState 0 CConnected] aliceCallsBob.

(** bob, with local media, calls alice. *)
Definition bobCallsAlice : Hook :=
  run [EvStartLocalStream 8%nat; EvInitiateCall (allOk 2) "alice"]
      (initial (Some "g") (Some "bob")).

(** alice, with local media, calls bob and carol. *)
Definition aliceCallsTwo : Hook :=
  run [EvStartLocalStream 7%nat; EvInitiateCall (allOk 1) "bob";
       EvInitiateCall (allOk 2) "carol"] alice0.

(** alice's established connection to bob drops at 0 ms, is back at
    3000 ms, and drops again at 9000 ms; the clock then reaches
    10000 ms. *)
Definition flapsUntil3000 : list Event :=
  [EvConnState 0 CDisconnected; EvTick 3000; EvConnState 0 CConnected].

Definition flapping : Hook :=
  run (flapsUntil3000 ++ [EvTick 6000; EvConnState 0 CDisconnected;
                          EvTick 1000]) aliceConnected.

(** alice's connection to bob fails, and so does each retry, each time
    as soon as the retry timer has fired. *)
Definition failAndRetry (r : nat) : list Event :=
  [EvConnState r CFailed; EvTick 2000; EvFire (allOk (r + 2)) 0].

Definition failsFourTimes : Hook :=
  run (failAndRetry 0 ++ failAndRetry 1 ++ failAndRetry 2 ++ failAndRetry 3)
      aliceCallsBob.

(** alice's call to bob has failed and left a retry timer; before it is
    due, bob's offer has arrived and alice has answered it; 2000 ms
    after the failure the timer is due. *)
Definition aliceAnswersAfterFailure : Hook :=
  run [EvConnState 0 CFailed;
       EvPoll [(allOk 5, MsgOffer "bob" {| sdpType := SdpOffer; sdpBody := 2 |})];
       EvTick 2000] aliceCallsBob.

(** The waits of the pending retry timers, from now. *)
Definition retryWaits (s : Hook) : list Z :=
  omap (λ t, match callback t with
             | RetryCall _ => Some (due t - now s)
             | _ => None
             end) (timers s).

(** bob's candidates 11 and 12 reach alice before his answer. *)
Definition candidatesThenAnswer : Hook :=
  run [EvPoll [(allOk 0, MsgIce "bob" 11%nat); (allOk 0, MsgIce "bob" 12%nat);
               (allOk 0, MsgAnswer "bob" {| sdpType := SdpAnswer; sdpBody := 3 |})]]
      aliceCallsBob.

(** alice's candidates 11 and 12 reach bob before her offer. *)
Definition candidatesThenOffer : Hook :=
  run [EvStartLocalStream 8%nat;
       EvPoll [(allOk 0, MsgIce "alice" 11%nat); (allOk 0, MsgIce "alice" 12%nat);
               (allOk 4, MsgOffer "alice" {| sdpType := SdpOffer; sdpBody := 1 |})]]
      (initial (Some "g") (Some "bob")).

(* --------------------------------------------------------------------- *)
(* 7b. Vocabulary of further properties                                  *)
(* --------------------------------------------------------------------- *)

(** What [entriesOf] reads for a peer the hook keeps nothing about. *)
Definition noEntries :
    option nat * option PC * option Z * bool * option bool
    * option ConnState * bool * option (list Candidate) * option Stream :=
  (None, None, None, false, None, None, false, None, None).

(** The timers [establishConnections] is to set at time [t0] for the
    peers [peerIds], the first of them at position [index] of the call's
    list: one per peer outside [established], [1500] ms per position. *)
Fixpoint callPlan (established : gset string) (t0 : Z) (index : Z)
    (peerIds : list string) : list Timer :=
  match peerIds with
  | [] => []
  | peerId :: rest =>
      (if bool_decide (peerId ∈ established) then []
       else [{| due := t0 + index * 1500; callback := EstablishCall peerId |}])
      ++ callPlan established t0 (index + 1) rest
  end.

(** The request that carries an offer with SDP text [n] to [to]. *)
Definition offerPost (s : Hook) (to : string) (n : nat) : Post :=
  {| postType := KOffer; postGame := default "" (gameId s);
     postFrom := default "" (playerId s); postTo := to;
     postPayload := PDesc {| sdpType := SdpOffer; sdpBody := n |} |}.

(** The browser makes the [k]-th awaited call of a handler run throw. *)
Definition throwsAt (k n : nat) : Env := {| failure := Some k; produced := n |}.

(** The three maps keyed by peer have the same keys, and the two sets
    of peers only hold peers of the map. *)
Definition inSync (s : Hook) : Prop :=
  dom (isInitiator s) = dom (peerConnections s)
  ∧ dom (connectionStates s) = dom (peerConnections s)
  ∧ pendingOffers s ⊆ dom (peerConnections s)
  ∧ establishedConnections s ⊆ dom (peerConnections s).

(** Every map entry points at an object created for that peer that is
    not closed. *)
Definition poolLive (s : Hook) : Prop :=
  ∀ p r, peerConnections s !! p = Some r →
         ∃ pc, heap s !! r = Some pc ∧ pcPeer pc = p
               ∧ connectionState pc ≠ CClosed.

Definition consistent (s : Hook) : Prop :=
  wellFormed s ∧ poolLive s ∧ inSync s.

(** A method that keeps the peer of a connection and neither closes nor
    reopens it. *)
Definition gentle (f : PC → PC) : Prop :=
  ∀ pc, pcPeer (f pc) = pcPeer pc
        ∧ (connectionState (f pc) = CClosed ↔ connectionState pc = CClosed).

Definition stays (f : Hook → Hook) : Prop :=
  ∀ s, consistent s → consistent (f s).

Definition staysAsync {A : Type} (t : Async A) : Prop :=
  ∀ s, consistent s → consistent (t s).1.

(** Every connection object that is closed in [s] is the same in [s']. *)
Definition frozen (s s' : Hook) : Prop :=
  ∀ r pc, heap s !! r = Some pc → connectionState pc = CClosed →
          heap s' !! r = Some pc.

(** A computation that leaves the map alone and, in the store, at most
    applies a method that neither closes nor reopens to the object at
    [r]. *)
Definition blockOn {A : Type} (r : nat) (t : Async A) : Prop :=
  ∀ s, peerConnections (t s).1 = peerConnections s
       ∧ ∃ F, gentle F ∧ heap (t s).1 = alter F r (heap s).

(** A function of the hook under which closed connections stay as they
    are, from any consistent state. *)
Definition spares (f : Hook → Hook) : Prop :=
  ∀ s, consistent s → frozen s (f s).

(** A message type and a payload that fit: an offer carries an offer
    description, an answer an answer description, 'ice-candidate' a
    candidate. *)
Definition typedAs (type : MsgKind) (payload : Payload) : Prop :=
  match type, payload with
  | KOffer, PDesc d => sdpType d = SdpOffer
  | KAnswer, PDesc d => sdpType d = SdpAnswer
  | KIce, PCand _ => True
  | _, _ => False
  end.

(** A request as the hook mounted with [g] and [p] writes it: both ids
    are there, the request names them as game and sender, and its
    payload fits its type. *)
Definition ownPost (g p : option string) (post : Post) : Prop :=
  truthy g = true ∧ truthy p = true
  ∧ postGame post = default "" g ∧ postFrom post = default "" p
  ∧ typedAs (postType post) (postPayload post).

(** From [s] to [s'] the ids are kept and the list of requests only
    grows, by requests written as above. *)
Definition posts (s s' : Hook) : Prop :=
  gameId s' = gameId s ∧ playerId s' = playerId s
  ∧ ∃ l, sent s' = sent s ++ l ∧ Forall (ownPost (gameId s) (playerId s)) l.

Definition posting (f : Hook → Hook) : Prop := ∀ s, posts s (f s).

(** A computation that may throw does so too, and what it returns
    satisfies [Q]. *)
Definition postingAsync {A : Type} (Q : A → Prop) (t : Async A) : Prop :=
  ∀ s, posts s (t s).1 ∧ ∀ a, (t s).2 = Some a → Q a.

(* --------------------------------------------------------------------- *)
(* 7c. The relay                                                         *)
(*     (the webrtc-signaling function, in the text of                    *)
(*      src/netlify/functions/gemini-summarize.js)                       *)
(* --------------------------------------------------------------------- *)

(** [`${x}`] for an id that is a string or missing: [undefined] prints
    as the word. *)
Definition show (x : option string) : string := default "undefined" x.

(** [`${gameId}-${to}`], the key of a mailbox. *)
Definition mailboxKey (gameId to : option string) : string :=
  String.append (show gameId) (String.append "-" (show to)).

Section Relay.

(** The relay never looks into the type, the sender or the payload of a
    message: they are values of any kind. The ids it makes keys of are
    strings, or missing. *)
Variables T F P : Type.

(** One entry of a mailbox, [{ type, from, payload, timestamp }]; a field
    the request did not have is [undefined]. *)
Record Stored := {
  stType : option T;
  stFrom : option F;
  stPayload : option P;
  timestamp : Z
}.

(** [event.body] as the handler reads it: nothing to parse ([null], or
    the empty string: [data] is [{}]), a text [JSON.parse] throws on, the
    JSON text [null], or a value whose fields [type], [gameId], [from],
    [to] and [payload] are read (all missing when the value is not an
    object). *)
Inductive Body :=
| BodyEmpty
| BodyMalformed
| BodyNull
| BodyData (type : option T) (gameId : option string) (from : option F)
           (to : option string) (payload : option P).

(** The part of a Netlify event the handler reads; the two query fields
    are those of [event.queryStringParameters || {}]. *)
Record Request := {
  httpMethod : string;
  body : Body;
  queryGameId : option string;
  queryPlayerId : option string
}.

(** The body of a response, before [JSON.stringify]: [''],
    [{ success: true }], [{ messages }] or [{ error }]. *)
Inductive ResponseBody :=
| NoContent
| Success
| MessagesOf (messages : list Stored)
| ErrorOf (error : string).

Record Response := {
  statusCode : Z;
  headers : list (string * string);
  responseBody : ResponseBody
}.

Definition corsHeaders : list (string * string) :=
  [("Access-Control-Allow-Origin", "*");
   ("Access-Control-Allow-Headers", "Content-Type");
   ("Access-Control-Allow-Methods", "GET, POST, PUT, DELETE, OPTIONS")].

Definition respond (status : Z) (b : ResponseBody) : Response :=
  {| statusCode := status; headers := corsHeaders; responseBody := b |}.

(** The POST branch past [JSON.parse]: the mailbox of the key is created
    when missing, and the message pushed at its end. *)
Definition store (type : option T) (gameId : option string) (from : option F)
    (to : option string) (payload : option P) (nowMs : Z)
    (signalingData : gmap string (list Stored)) : gmap string (list Stored) :=
  let key := mailboxKey gameId to in
  let signalingData :=
    if bool_decide (is_Some (signalingData !! key)) then signalingData
    else <[key := []]> signalingData in
  alter (λ l, l ++ [{| stType := type; stFrom := from; stPayload := payload;
                       timestamp := nowMs |}]) key signalingData.

Definition internalError : Response :=
  respond 500 (ErrorOf "Internal server error").

(** [exports.handler], on the module's [signalingData] and the clock
    [Date.now()] reads. *)
Definition handler (event : Request) (nowMs : Z)
    (signalingData : gmap string (list Stored))
    : Response * gmap string (list Stored) :=
  if String.eqb (httpMethod event) "OPTIONS"
  then (respond 200 NoContent, signalingData)
  else
    match body event with
    | BodyMalformed => (internalError, signalingData)
    | data =>
        if String.eqb (httpMethod event) "POST" then
          match data with
          | BodyData type gameId from to payload =>
              (respond 200 Success,
               store type gameId from to payload nowMs signalingData)
          | BodyEmpty =>
              (respond 200 Success,
               store None None None None None nowMs signalingData)
          | _ => (internalError, signalingData)
          end
        else if String.eqb (httpMethod event) "GET" then
          let key := mailboxKey (queryGameId event) (queryPlayerId event) in
          let messages := default [] (signalingData !! key) in
          (respond 200 (MessagesOf messages), delete key signalingData)
        else (respond 404 (ErrorOf "Not found"), signalingData)
    end.

(** What a GET for a key would be answered. *)
Definition mailbox (signalingData : gmap string (list Stored)) (key : string)
    : list Stored :=
  default [] (signalingData !! key).

(** The key a POST with this body stores under. *)
Definition bodyKey (b : Body) : string :=
  match b with
  | BodyData _ gameId _ to _ => mailboxKey gameId to
  | _ => mailboxKey None None
  end.

(** The key a GET of this event reads. *)
Definition queryKey (event : Request) : string :=
  mailboxKey (queryGameId event) (queryPlayerId event).

(** A well-formed POST of one message to the mailbox of [to] in game
    [gameId], and the GET of that mailbox. *)
Definition postOf (gameId to : option string)
    (m : option T * option F * option P) : Request :=
  {| httpMethod := "POST";
     body := BodyData m.1.1 gameId m.1.2 to m.2;
     queryGameId := None; queryPlayerId := None |}.

Definition getOf (gameId playerId : option string) : Request :=
  {| httpMethod := "GET"; body := BodyEmpty;
     queryGameId := gameId; queryPlayerId := playerId |}.

(** The relay after a list of requests, each at its time. *)
Definition serve (requests : list (Request * Z))
    (signalingData : gmap string (list Stored)) : gmap string (list Stored) :=
  fold_left (λ d r, (handler r.1 r.2 d).2) requests signalingData.

End Relay.

Arguments stType {T F P} _.
Arguments stFrom {T F P} _.
Arguments stPayload {T F P} _.
Arguments timestamp {T F P} _.
Arguments BodyEmpty {T F P}.
Arguments BodyMalformed {T F P}.
Arguments BodyNull {T F P}.
Arguments BodyData {T F P} _ _ _ _ _.
Arguments httpMethod {T F P} _.
Arguments body {T F P} _.
Arguments queryGameId {T F P} _.
Arguments queryPlayerId {T F P} _.
Arguments NoContent {T F P}.
Arguments Success {T F P}.
Arguments MessagesOf {T F P} _.
Arguments ErrorOf {T F P} _.
Arguments statusCode {T F P} _.
Arguments headers {T F P} _.
Arguments responseBody {T F P} _.
Arguments respond {T F P} _ _.
Arguments store {T F P} _ _ _ _ _ _ _.
Arguments internalError {T F P}.
Arguments handler {T F P} _ _ _.
Arguments mailbox {T F P} _ _.
Arguments bodyKey {T F P} _.
Arguments queryKey {T F P} _.
Arguments postOf {T F P} _ _ _.
Arguments getOf {T F P} _ _.
Arguments serve {T F P} _ _.

(** No character of the string is a dash. *)
Fixpoint dashFree (x : string) : bool :=
  match x with
  | EmptyString => true
  | String c rest => negb (Ascii.eqb c "-"%char) && dashFree rest
  end.

(* --------------------------------------------------------------------- *)
(* 7d. Hooks and relay together                                          *)
(* --------------------------------------------------------------------- *)

(** An entry of a mailbox when the clients of the relay are hooks: type,
    sender and payload are what [sendSignalingMessage] writes. *)
Abbreviation Wire := (Stored MsgKind string Payload).

(** The request [sendSignalingMessage] makes of a post:
    [JSON.stringify({ type, gameId, from: playerId, to, payload })]. *)
Definition postRequest (post : Post) : Request MsgKind string Payload :=
  postOf (Some (postGame post)) (Some (postTo post))
         (Some (postType post), Some (postFrom post), Some (postPayload post)).

(** The request [pollSignalingMessages] makes,
    [?gameId=${gameId}&playerId=${playerId}]. The ids are put into the
    URL as they are; they are taken to hold no character a URL gives a
    meaning to, so that the relay reads them back unchanged. *)
Definition pollRequest (s : Hook) : Request MsgKind string Payload :=
  getOf (gameId s) (playerId s).

(** One message of a poll response as [handleSignalingMessage] reads it.
    A message without a type falls through the switch. A message
    without a sender, or whose payload does not fit its type, is outside
    what [Message] can say; no hook posts one. *)
Definition readMessage (m : Wire) : option Message :=
  match stType m, stFrom m, stPayload m with
  | Some KOffer, Some from, Some (PDesc d) => Some (MsgOffer from d)
  | Some KAnswer, Some from, Some (PDesc d) => Some (MsgAnswer from d)
  | Some KIce, Some from, Some (PCand c) => Some (MsgIce from c)
  | None, Some from, _ => Some (MsgOther from)
  | _, _, _ => None
  end.

(** The requests a hook made on its way from [s] to [s'] reach the relay
    in the order they were made. *)
Definition deliver (s s' : Hook) (t : Z) (d : gmap string (list Wire))
    : gmap string (list Wire) :=
  serve (map (λ post, (postRequest post, t))
             (drop (length (sent s)) (sent s'))) d.

(** One round of [pollSignalingMessages] against the relay: the GET,
    then, when the response is ok, the handlers over its messages, the
    [i]-th one with the browser behaving as [envs i]; what they post
    reaches the relay. *)
Definition pollRound (envs : nat → Env) (t : Z) (s : Hook)
    (d : gmap string (list Wire))
    : Hook * gmap string (list Wire) :=
  if negb (truthy (gameId s)) || negb (truthy (playerId s)) then (s, d)
  else
    let response := (handler (pollRequest s) t d).1 in
    let d1 := (handler (pollRequest s) t d).2 in
    if (200 <=? statusCode response) && (statusCode response <=? 299) then
      match responseBody response with
      | MessagesOf messages =>
          let s' := pollSignalingMessages
                      (imap (λ i m, (envs i, m)) (omap readMessage messages))
                      s in
          (s', deliver s s' t d1)
      | _ => (s, d1)
      end
    else (s, d1).

(** A hook of player [me] in game [g] with local media. *)
Definition ready (g me : string) (s : Hook) : Prop :=
  is_Some (localStream s) ∧ gameId s = Some g ∧ playerId s = Some me
  ∧ g ≠ "" ∧ me ≠ "".

(** Example: alice and bob of game "g", both with local media. *)
Definition aliceWithMedia : Hook := run [EvStartLocalStream 7%nat] alice0.

Definition bobWithMedia : Hook :=
  run [EvStartLocalStream 8%nat] (initial (Some "g") (Some "bob")).

(* --------------------------------------------------------------------- *)
(* 7e. The caller (AppContent, in the text of                            *)
(*     src/src/components/TurnTimer.tsx)                                 *)
(* --------------------------------------------------------------------- *)

(** [onGameStateChange]: the peers it has [establishConnections] called
    for, if it does: the players of the lobby other than the current
    player, when there is local media, a current player and such a
    player. Players are their ids. *)
Definition onGameStateChange (lobby : bool) (players : list string)
    (localStream : option Stream) (currentPlayer : option string)
    : option (list string) :=
  match currentPlayer with
  | Some me =>
      if lobby && bool_decide (is_Some localStream) then
        let otherPlayers := filter (λ p, p ≠ me) players in
        if (0 <? length otherPlayers)%nat then Some otherPlayers else None
      else None
  | None => None
  end.

(** [onPlayerJoined]: the player it has [initiateCall] called for, if it
    does. *)
Definition onPlayerJoined (player : string) (localStream : option Stream)
    (currentPlayer : option string) : option string :=
  match currentPlayer with
  | Some me =>
      if bool_decide (is_Some localStream) && bool_decide (player ≠ me)
      then Some player else None
  | None => None
  end.

(** An event of the hook of player [me] that, if it is a call of
    [establishConnections] or [initiateCall], is one that the two
    callbacks above make. *)
Definition asked (me : string) (e : Event) : Prop :=
  match e with
  | EvEstablish peerIds =>
      ∃ lobby players st,
        onGameStateChange lobby players st (Some me) = Some peerIds
  | EvInitiateCall _ peerId =>
      ∃ st, onPlayerJoined peerId st (Some me) = Some peerId
  | _ => True
  end.

(** The hook of player [me] keeps no connection for [me], has created no
    connection object for it, has no timer about it pending and has
    posted nothing to it. *)
Definition apart (me : string) (s : Hook) : Prop :=
  playerId s = Some me
  ∧ peerConnections s !! me = None
  ∧ (∀ r pc, heap s !! r = Some pc → pcPeer pc ≠ me)
  ∧ Forall (λ t, callbackPeer (callback t) ≠ me) (timers s)
  ∧ Forall (λ post, postTo post ≠ me) (sent s).

Definition aloof (me : string) (f : Hook → Hook) : Prop :=
  ∀ s, apart me s → apart me (f s).

Definition aloofAsync {A : Type} (me : string) (t : Async A) : Prop :=
  ∀ s, apart me s → apart me (t s).1.

(* --------------------------------------------------------------------- *)
(* 7f. Summarization: the gemini-summarize function                      *)
(*     (src/netlify/functions/gemini-summarize.js) and its client,       *)
(*     [useGeminiSummarization] (in the text of                          *)
(*     src/src/hooks/useServerlessWebRTC.ts)                             *)
(* --------------------------------------------------------------------- *)

(** [response.ok]: the status is in 200..299. *)
Definition okStatus (status : Z) : bool := (200 <=? status) && (status <=? 299).

(** [x || y] for strings that may be missing. *)
Definition orElse (x : option string) (y : string) : string :=
  if truthy x then default "" x else y.

(** [event.body] as the function reads it, which parses it once in the
    [try] block and once more in the [catch] block: no body ([null],
    [undefined] or ['']), a text that is not JSON, the JSON text [null],
    or a value whose field [text] is read, a string or missing (missing
    for every value that is not an object). *)
Inductive SummaryBody :=
| SumEmpty
| SumMalformed
| SumNull
| SumData (text : option string).

(** What the JSON of an ok response of the Gemini API gives at
    [data.candidates[0].content.parts[0].text.trim()]: [response.json()]
    throws; [candidates], its first entry or that entry's [content] is
    falsy; one of the steps throws; or there is a text. *)
Inductive GeminiData :=
| GJsonThrows
| GShapeless
| GBroken
| GText (t : string).

(** What the call of the Gemini API gives: [fetch] throws, or a response
    with its status, the text of its body for an error response
    ([None]: [response.text()] throws), and its JSON. *)
Inductive Gemini :=
| GFetchThrows
| GResponse (status : Z) (errorText : option string) (data : GeminiData).

(** The JSON of a response of the function, without the field [details],
    which its client does not read. *)
Inductive SummaryJson :=
| SumNoContent
| SumError (error : string) (message : option string)
           (originalText : option string)
| SumSuccess (originalText summarizedText : string)
             (originalLength summarizedLength : nat).

Record SummaryResponse := { sumStatus : Z; sumJson : SummaryJson }.

(** The [catch] block of the function: it parses the body again. With
    no body the text is [''], a body that is not JSON throws again and
    so does reading [text] of [null]: the function then rejects
    ([None]). *)
Definition summarizeCatch (body : SummaryBody) : option SummaryResponse :=
  match body with
  | SumEmpty =>
      Some {| sumStatus := 500;
              sumJson := SumError "Internal server error" None (Some "") |}
  | SumData text =>
      Some {| sumStatus := 500;
              sumJson := SumError "Internal server error" None
                           (Some (orElse text "")) |}
  | SumMalformed | SumNull => None
  end.

(** The error message for an error status of the Gemini API. *)
Definition geminiErrorMessage (status : Z) : string :=
  if status =? 401 then "Invalid API key"
  else if status =? 429 then "Rate limit exceeded"
  else if status =? 400 then "Invalid request parameters"
  else "Failed to summarize text".

(** [exports.handler] of gemini-summarize, on what the environment holds
    as [GEMINI_API_KEY] and what the Gemini API does. [trim] and
    [jsLength] are [String.prototype.trim] and [.length]. *)
Definition summarizeHandler (trim : string → string) (jsLength : string → nat)
    (httpMethod : string) (body : SummaryBody) (apiKey : option string)
    (gemini : Gemini) : option SummaryResponse :=
  if String.eqb httpMethod "OPTIONS"
  then Some {| sumStatus := 200; sumJson := SumNoContent |}
  else if negb (String.eqb httpMethod "POST")
  then Some {| sumStatus := 405;
               sumJson := SumError "Method not allowed" None None |}
  else
    match body with
    | SumData text =>
        if negb (truthy text)
        then Some {| sumStatus := 400;
                     sumJson := SumError "Text is required" None None |}
        else if negb (truthy apiKey)
        then Some {| sumStatus := 503;
                     sumJson :=
                       SumError "Summarization service not available"
                         (Some "AI summarization feature is not configured. Please contact the administrator to enable this feature.")
                         text |}
        else
          match gemini with
          | GFetchThrows => summarizeCatch body
          | GResponse status errorText data =>
              if negb (okStatus status) then
                match errorText with
                | Some _ =>
                    Some {| sumStatus := status;
                            sumJson := SumError (geminiErrorMessage status)
                                         None text |}
                | None => summarizeCatch body
                end
              else
                match data with
                | GJsonThrows | GBroken => summarizeCatch body
                | GShapeless =>
                    Some {| sumStatus := 500;
                            sumJson :=
                              SumError
                                "Unexpected response format from AI service"
                                None text |}
                | GText t =>
                    let summarizedText := trim t in
                    Some {| sumStatus := 200;
                            sumJson :=
                              SumSuccess (default "" text) summarizedText
                                (jsLength (default "" text))
                                (jsLength summarizedText) |}
                end
          end
    | _ => summarizeCatch body
    end.










(* --------------------------------------------------------------------- *)
(* 7g. A poll response with messages that have no payload                *)
(* --------------------------------------------------------------------- *)






(* --------------------------------------------------------------------- *)
(* 7h. The mounted hook: its two effects                                 *)
(* --------------------------------------------------------------------- *)

(** The hook as mounted in a component. Besides its state: whether the
    interval of [pollingInterval.current] is running, and the local
    streams whose tracks have been stopped, in order. *)
Record Mounted := {
  hook : Hook;
  pollingInterval : bool;
  stoppedTracks : list Stream
}.

(** The effect that depends on [gameId], [playerId] and
    [pollSignalingMessages]: with both ids it sets the interval. *)
Definition pollingEffect (m : Mounted) : Mounted :=
  if truthy (gameId (hook m)) && truthy (playerId (hook m))
  then {| hook := hook m; pollingInterval := true;
          stoppedTracks := stoppedTracks m |}
  else m.

(** A tick of the interval, the relay answering with [messages]: a
    cleared interval does not tick. *)
Definition pollTick (messages : list (Env * Message)) (m : Mounted) : Mounted :=
  if pollingInterval m
  then {| hook := pollSignalingMessages messages (hook m);
          pollingInterval := true; stoppedTracks := stoppedTracks m |}
  else m.

(** The whole cleanup of the effect that depends on [localStream]: it
    stops the tracks of the local stream of its render, does to the
    refs what [cleanup] says, and clears the interval. *)
Definition effectCleanup (m : Mounted) : Mounted :=
  {| hook := cleanup (hook m);
     pollingInterval := false;
     stoppedTracks := stoppedTracks m ++ option_list (localStream (hook m)) |}.

(** alice has called bob, the call has failed, and the wait of the
    retry is over. *)
Definition aliceRetryDue : Hook :=
  run [EvStartLocalStream 7%nat; EvInitiateCall (allOk 1) "bob";
       EvConnState 0 CFailed; EvTick 2000] alice0.

(* ===================================================================== *)
(* 8. Basic facts                                                        *)
(* ===================================================================== *)

(** Two different strings are ordered one way or the other. *)
Lemma ltb_asym_total (a b : string) :
  a ≠ b → String.ltb b a = negb (String.ltb a b).
Proof.
  intros Hne. unfold String.ltb. rewrite (String.compare_antisym b a).
  destruct (String.compare a b) eqn:E; simpl; try reflexivity.
  apply String.compare_eq_iff in E. contradiction.
Qed.

(** What [openPeerConnection] leaves behind. *)
Lemma openPeerConnection_ref (p : string) (i : bool) (s : Hook) :
  (openPeerConnection p i s).1 = length (heap s).
Proof. reflexivity. Qed.

Lemma openPeerConnection_frame (p : string) (i : bool) (s : Hook) :
  let s' := (openPeerConnection p i s).2 in
  localStream s' = localStream s ∧ gameId s' = gameId s
  ∧ playerId s' = playerId s ∧ sent s' = sent s ∧ timers s' = timers s
  ∧ now s' = now s ∧ pendingOffers s' = pendingOffers s
  ∧ connectionAttempts s' = connectionAttempts s
  ∧ establishedConnections s' = establishedConnections s
  ∧ remoteStreams s' = remoteStreams s
  ∧ peerConnections s' = <[p := length (heap s)]> (peerConnections s)
  ∧ isInitiator s' = <[p := i]> (isInitiator s)
  ∧ connectionStates s' = <[p := CNew]> (connectionStates s)
  ∧ length (heap s') = S (length (heap s)).
Proof.
  unfold openPeerConnection. cbn.
  destruct (iceCandidateQueue s !! p) as [[|c q]|], (localStream s) eqn:E;
    cbn; repeat split; try done;
    rewrite ?length_alter, ?length_app; cbn; lia.
Qed.

(** The new object: fresh, for peer [p], with no remote description; the
    only calls on it so far are [addTrack] and [addIceCandidate]. *)
Lemma openPeerConnection_new (p : string) (i : bool) (s : Hook) :
  ∃ pc, heap (openPeerConnection p i s).2 !! length (heap s) = Some pc
        ∧ pcPeer pc = p ∧ connectionState pc = CNew
        ∧ signalingState pc = SStable ∧ remoteDescription pc = None.
Proof.
  assert (Hfold : ∀ (l : list Candidate) (pc : PC),
    let pc' := fold_left (λ pc c, pcLog (OpAddIce c) pc) l pc in
    pcPeer pc' = pcPeer pc ∧ connectionState pc' = connectionState pc
    ∧ signalingState pc' = signalingState pc
    ∧ remoteDescription pc' = remoteDescription pc).
  { induction l as [|c l IH]; intros pc; cbn; [done|].
    destruct (IH (pcLog (OpAddIce c) pc)) as (?&?&?&?). cbn in *. done. }
  unfold openPeerConnection. cbn.
  destruct (iceCandidateQueue s !! p) as [[|c q]|]; cbn.
  1,3: eexists; split; [apply list_lookup_middle; reflexivity|];
       destruct (localStream s); done.
  eexists. split.
  { rewrite list_lookup_alter_eq, list_lookup_middle by reflexivity.
    reflexivity. }
  match goal with |- context [fold_left ?f q ?x] =>
    destruct (Hfold q x) as (H1&H2&H3&H4) end.
  cbn in H1, H2, H3, H4. rewrite H1, H2, H3, H4.
  destruct (localStream s); done.
Qed.

Lemma openPeerConnection_old (p : string) (i : bool) (s : Hook) (r : nat) :
  r ≠ length (heap s) →
  heap (openPeerConnection p i s).2 !! r = heap s !! r.
Proof.
  intros Hr. unfold openPeerConnection. cbn.
  assert (Hl : ∀ x : PC, (heap s ++ [x]) !! r = heap s !! r).
  { intros x. destruct (decide (r < length (heap s))%nat).
    - by rewrite lookup_app_l.
    - rewrite !lookup_ge_None_2; [done|lia|rewrite length_app; cbn; lia]. }
  destruct (iceCandidateQueue s !! p) as [[|c q]|]; cbn; rewrite ?Hl; try done.
  rewrite list_lookup_alter_ne by done. apply Hl.
Qed.

Lemma createPeerConnection_fresh (p : string) (i : bool) (s : Hook) :
  hasWorking s p = false →
  createPeerConnection p i s = openPeerConnection p i (closeExisting p s).
Proof.
  unfold hasWorking, createPeerConnection, closeExisting.
  destruct (peerConnections s !! p) as [r0|]; cbn; [|done].
  by intros ->.
Qed.

Lemma closeExisting_length (p : string) (s : Hook) :
  length (heap (closeExisting p s)) = length (heap s).
Proof.
  unfold closeExisting. destruct (peerConnections s !! p); cbn; [|done].
  apply length_alter.
Qed.

(** The try blocks of the three handlers when no browser call throws. *)
Lemma offer_block_ok (n : nat) (r : nat) (from : string) (offer : Sdp)
    (h : Hook → Hook) (s : Hook) :
  tryCatch
    (await (allOk n) 0 (act (onPc r (pcSetRemote offer)));;
     answer ← await (allOk n) 1 (createAnswer (allOk n) r);
     await (allOk n) 2 (act (onPc r (pcSetLocal answer)));;
     act (sendSignalingMessage KAnswer from (PDesc answer))) h s
  = let answer := {| sdpType := SdpAnswer; sdpBody := n |} in
    sendSignalingMessage KAnswer from (PDesc answer)
      (onPc r (pcSetLocal answer)
         (onPc r (pcLog OpCreateAnswer) (onPc r (pcSetRemote offer) s))).
Proof. reflexivity. Qed.

Lemma call_block_ok (n : nat) (r : nat) (peerId : string)
    (h : Hook → Hook) (s : Hook) :
  tryCatch
    (offer ← await (allOk n) 0 (createOffer (allOk n) r);
     await (allOk n) 1 (act (onPc r (pcSetLocal offer)));;
     act (sendSignalingMessage KOffer peerId (PDesc offer))) h s
  = let offer := {| sdpType := SdpOffer; sdpBody := n |} in
    sendSignalingMessage KOffer peerId (PDesc offer)
      (onPc r (pcSetLocal offer) (onPc r (pcLog OpCreateOffer) s)).
Proof. reflexivity. Qed.

Lemma answer_block_ok (n : nat) (r : nat) (from : string) (answer : Sdp)
    (h : Hook → Hook) (s : Hook) :
  tryCatch
    (await (allOk n) 0 (act (onPc r (pcSetRemote answer)));;
     act (updPendingOffers (λ p, p ∖ {[from]}))) h s
  = updPendingOffers (λ p, p ∖ {[from]}) (onPc r (pcSetRemote answer) s).
Proof. reflexivity. Qed.

(* ===================================================================== *)
(* 9. Guards of the handlers                                             *)
(* ===================================================================== *)

(** The offer handler on the answering path: the guards are passed, the
    browser calls succeed. *)
Lemma handleOffer_answers (n : nat) (from : string) (offer : Sdp) (s : Hook) :
  is_Some (localStream s) → truthy (gameId s) = true →
  truthy (playerId s) = true →
  hasWorking s from = false →
  (bool_decide (from ∈ pendingOffers s) && idLess (playerId s) from) = false →
  let s' := handleOffer (allOk n) from offer s in
  roleOf s' from = Some Responder
  ∧ sent s' = sent s ++ [answerPost s from n]
  ∧ peerConnections s' !! from = Some (length (heap s))
  ∧ (∃ pc, heap s' !! length (heap s) = Some pc
           ∧ remoteDescription pc = Some offer).
Proof.
  intros [st Hst] Hg Hp Hw Hgl. unfold handleOffer.
  rewrite Hst, Hg. 
  replace (bool_decide (is_Some (Some st))) with true
    by (symmetry; apply bool_decide_eq_true; eauto).
  cbn [negb orb]. fold (hasWorking s from). rewrite Hw, Hgl.
  rewrite createPeerConnection_fresh by done.
  pose proof (openPeerConnection_frame from false (closeExisting from s)) as Hf.
  pose proof (openPeerConnection_new from false (closeExisting from s)) as Hn.
  destruct (openPeerConnection from false (closeExisting from s)) as [r s1] eqn:E.
  cbn in Hf, Hn. cbn in E. injection E as <- _. rewrite closeExisting_length in *.
  destruct Hf as (_&Hg1&Hp1&Hs1&_&_&_&_&_&_&Hpc1&Hi1&_&_).
  destruct Hn as (pc&Hpc&_&_&_&_).
  assert (Hcg : gameId (closeExisting from s) = gameId s
                ∧ playerId (closeExisting from s) = playerId s
                ∧ sent (closeExisting from s) = sent s).
  { unfold closeExisting. by destruct (peerConnections s !! from). }
  destruct Hcg as (Hg0&Hp0&Hs0).
  rewrite offer_block_ok. cbn zeta. unfold sendSignalingMessage.
  cbn -[roleOf]. rewrite Hg1, Hp1, Hg0, Hp0, Hg, Hp. cbn -[roleOf].
  unfold roleOf. cbn. rewrite Hi1, Hpc1, Hs1, Hs0, !lookup_insert_eq.
  repeat split; try done.
  rewrite !list_lookup_alter_eq, Hpc. cbn. eauto.
Qed.

(** The same path, object by object: the connection the map held for the
    sender is closed, the map entry is a new connection on which the
    offer was set as remote description and an answer created and set
    as local description, and the pending offers are left as they
    were. *)
Lemma handleOffer_yields (n : nat) (from : string) (offer : Sdp) (s : Hook) :
  is_Some (localStream s) → truthy (gameId s) = true →
  hasWorking s from = false →
  (bool_decide (from ∈ pendingOffers s) && idLess (playerId s) from) = false →
  let s' := handleOffer (allOk n) from offer s in
  let answer := {| sdpType := SdpAnswer; sdpBody := n |} in
  (∃ pc before,
     connectionOf s' from = Some pc
     ∧ peerConnections s' !! from = Some (length (heap s))
     ∧ connectionState pc = CNew ∧ signalingState pc = SStable
     ∧ remoteDescription pc = Some offer
     ∧ ops pc = before ++ [OpSetRemote offer; OpCreateAnswer;
                           OpSetLocal answer])
  ∧ (∀ r0 pc0, peerConnections s !! from = Some r0 → heap s !! r0 = Some pc0 →
       heap s' !! r0 = Some (pcClose pc0))
  ∧ pendingOffers s' = pendingOffers s.
Proof.
  intros [st Hst] Hg Hw Hgl. unfold handleOffer.
  rewrite Hst, Hg.
  replace (bool_decide (is_Some (Some st))) with true
    by (symmetry; apply bool_decide_eq_true; eauto).
  cbn [negb orb]. fold (hasWorking s from). rewrite Hw, Hgl.
  rewrite createPeerConnection_fresh by done.
  set (s0 := closeExisting from s).
  assert (Hlen : length (heap s0) = length (heap s))
    by apply closeExisting_length.
  pose proof (openPeerConnection_frame from false s0) as Hf.
  pose proof (openPeerConnection_new from false s0) as Hn.
  pose proof (openPeerConnection_old from false s0) as Ho.
  destruct (openPeerConnection from false s0) as [r s1] eqn:E.
  cbn in Hf, Hn, Ho. cbn in E. injection E as <- _. rewrite Hlen in *.
  destruct Hf as (_&_&_&_&_&_&Hpe1&_&_&_&Hpc1&_).
  destruct Hn as (pc&Hpc&_&N2&N3&_).
  assert (Hpe0 : pendingOffers s0 = pendingOffers s).
  { unfold s0, closeExisting. by destruct (peerConnections s !! from). }
  rewrite offer_block_ok. cbv zeta.
  set (answer := {| sdpType := SdpAnswer; sdpBody := n |}).
  set (s3 := onPc (length (heap s)) (pcSetLocal answer)
               (onPc (length (heap s)) (pcLog OpCreateAnswer)
                  (onPc (length (heap s)) (pcSetRemote offer) s1))).
  assert (Hsend : ∀ x, heap (sendSignalingMessage KAnswer from (PDesc answer) x)
                       = heap x
                       ∧ peerConnections
                           (sendSignalingMessage KAnswer from (PDesc answer) x)
                         = peerConnections x
                       ∧ pendingOffers
                           (sendSignalingMessage KAnswer from (PDesc answer) x)
                         = pendingOffers x).
  { intros x. unfold sendSignalingMessage. by case_match. }
  destruct (Hsend s3) as (Hh&Hm&Hpe). unfold connectionOf.
  rewrite Hh, Hm, Hpe.
  change (peerConnections s3) with (peerConnections s1).
  change (pendingOffers s3) with (pendingOffers s1).
  rewrite Hpc1, lookup_insert_eq. cbn [mbind option_bind].
  assert (H3 : heap s3 !! length (heap s)
               = Some (pcSetLocal answer
                         (pcLog OpCreateAnswer (pcSetRemote offer pc)))).
  { unfold s3. cbn. by rewrite !list_lookup_alter_eq, Hpc. }
  split; [|split].
  - exists (pcSetLocal answer (pcLog OpCreateAnswer (pcSetRemote offer pc))),
      (ops pc).
    split; [exact H3|]. split; [done|]. split; [exact N2|].
    split; [done|]. split; [done|]. cbn. by rewrite <- !app_assoc.
  - intros r0 pc0 Hr0 Hpc0.
    assert (Hlt : (r0 < length (heap s))%nat)
      by (apply lookup_lt_is_Some; eauto).
    assert (Hne : length (heap s) ≠ r0) by lia.
    unfold s3. cbn. rewrite !list_lookup_alter_ne by done.
    rewrite Ho by lia. unfold s0, closeExisting. rewrite Hr0. cbn.
    by rewrite list_lookup_alter_eq, Hpc0.
  - by rewrite Hpe1, Hpe0.
Qed.

Lemma handleOffer_ignores_glare (env : Env) (from : string) (offer : Sdp)
    (s : Hook) :
  from ∈ pendingOffers s → idLess (playerId s) from = true →
  handleOffer env from offer s = s.
Proof.
  intros Hp Hl. unfold handleOffer.
  destruct (negb _ || negb _); [done|].
  destruct (from_option _ _ _); [done|].
  by rewrite bool_decide_eq_true_2, Hl.
Qed.

Lemma handleOffer_ignores_working (env : Env) (from : string) (offer : Sdp)
    (s : Hook) :
  hasWorking s from = true → handleOffer env from offer s = s.
Proof.
  intros Hw. unfold handleOffer. fold (hasWorking s from). rewrite Hw.
  by destruct (negb _ || negb _).
Qed.

Lemma handleOffer_needs_media (env : Env) (from : string) (offer : Sdp)
    (s : Hook) :
  localStream s = None → handleOffer env from offer s = s.
Proof. intros H. unfold handleOffer. by rewrite H. Qed.

Lemma truthy_Some (x : string) : x ≠ "" → truthy (Some x) = true.
Proof.
  intros H. cbn. destruct (String.eqb x "") eqn:E; [|done].
  apply String.eqb_eq in E. contradiction.
Qed.

(** The two sides of a glare, as [handleOffer] treats them. *)
Lemma inGlare_smaller (env : Env) (me from : string) (offer : Sdp) (s : Hook) :
  inGlare s me from → String.ltb me from = true →
  handleOffer env from offer s = s ∧ roleOf s from = Some Initiator.
Proof.
  intros (Hst&Hg&Hme&Hne&Hpend&Hini&Hw) Hlt. split.
  - apply handleOffer_ignores_glare; [done|]. by rewrite Hme.
  - unfold roleOf. by rewrite Hini.
Qed.

Lemma inGlare_not_smaller (n : nat) (me from : string) (offer : Sdp)
    (s : Hook) :
  inGlare s me from → String.ltb me from = false →
  let s' := handleOffer (allOk n) from offer s in
  let answer := {| sdpType := SdpAnswer; sdpBody := n |} in
  roleOf s' from = Some Responder
  ∧ sent s' = sent s ++ [answerPost s from n]
  ∧ (∃ pc before,
       connectionOf s' from = Some pc
       ∧ peerConnections s' !! from = Some (length (heap s))
       ∧ connectionState pc = CNew ∧ signalingState pc = SStable
       ∧ remoteDescription pc = Some offer
       ∧ ops pc = before ++ [OpSetRemote offer; OpCreateAnswer;
                             OpSetLocal answer])
  ∧ (∀ r0 pc0, peerConnections s !! from = Some r0 → heap s !! r0 = Some pc0 →
       heap s' !! r0 = Some (pcClose pc0))
  ∧ from ∈ pendingOffers s'.
Proof.
  intros (Hst&Hg&Hme&Hne&Hpend&Hini&Hw) Hlt.
  assert (Hp : truthy (playerId s) = true)
    by (rewrite Hme; by apply truthy_Some).
  assert (Hgl : (bool_decide (from ∈ pendingOffers s)
                 && idLess (playerId s) from) = false).
  { rewrite Hme. cbn. rewrite Hlt. apply andb_false_r. }
  destruct (handleOffer_answers n from offer s Hst Hg Hp Hw Hgl)
    as (Hr&Hs&_).
  destruct (handleOffer_yields n from offer s Hst Hg Hw Hgl)
    as (Hnew&Hold&Hpe).
  cbv zeta in *. split; [exact Hr|]. split; [exact Hs|].
  split; [exact Hnew|]. split; [exact Hold|]. by rewrite Hpe.
Qed.

(** C1 (amended). In a glare with peer [from] the comparison of the two
    ids decides, the other way round from the specification. The side
    whose id is the smaller one ignores the incoming offer: its state is
    untouched and it stays Initiator. The side whose id is not smaller
    yields: the connection of its own attempt is closed, the incoming
    offer is set as remote description on a new connection, which takes
    the place of the old one in the map, an answer is created, set as
    local description and posted, and the role becomes Responder. The
    mark of its own pending offer is not cleared by this: a call to
    that peer is refused for as long as the mark stays. *)
Theorem glare_tie_break (env : Env) (n : nat) (me from : string) (offer : Sdp)
    (s : Hook) :
  inGlare s me from →
  (String.ltb me from = true →
     handleOffer env from offer s = s ∧ roleOf s from = Some Initiator)
  ∧ (String.ltb me from = false →
     let s' := handleOffer (allOk n) from offer s in
     let answer := {| sdpType := SdpAnswer; sdpBody := n |} in
     roleOf s' from = Some Responder
     ∧ sent s' = sent s ++ [answerPost s from n]
     ∧ (∃ pc before,
          connectionOf s' from = Some pc
          ∧ peerConnections s' !! from = Some (length (heap s))
          ∧ connectionState pc = CNew ∧ signalingState pc = SStable
          ∧ remoteDescription pc = Some offer
          ∧ ops pc = before ++ [OpSetRemote offer; OpCreateAnswer;
                                OpSetLocal answer])
     ∧ (∀ r0 pc0, peerConnections s !! from = Some r0 →
          heap s !! r0 = Some pc0 → heap s' !! r0 = Some (pcClose pc0))
     ∧ from ∈ pendingOffers s'
     ∧ ∀ env', initiateCall env' from s' = s').
Proof.
  intros H. split; intros Hlt.
  - by apply (inGlare_smaller env me).
  - destruct (inGlare_not_smaller n me from offer s H Hlt)
      as (H1&H2&H3&H4&H5).
    cbv zeta in *. repeat (split; [assumption|]).
    intros env'. unfold initiateCall.
    destruct (negb _ || negb _ || negb _); [done|].
    by rewrite bool_decide_eq_true_2.
Qed.

Lemma aliceCallsBob_inGlare : inGlare aliceCallsBob "alice" "bob".
Proof.
  repeat split; try (vm_compute; congruence); try by vm_compute; eauto.
Qed.

Lemma bobCallsAlice_inGlare : inGlare bobCallsAlice "bob" "alice".
Proof.
  repeat split; try (vm_compute; congruence); try by vm_compute; eauto.
Qed.

(** alice, with the smaller id, ignores bob's offer; bob, handling
    alice's offer, closes the connection he had made as Initiator
    (object 0) and still has his mark of a pending offer. *)
Lemma glare_tie_break_witness :
  let offerA := {| sdpType := SdpOffer; sdpBody := 1 |} in
  let offerB := {| sdpType := SdpOffer; sdpBody := 2 |} in
  let bob' := handleOffer (allOk 6) "alice" offerA bobCallsAlice in
  inGlare aliceCallsBob "alice" "bob"
  ∧ String.ltb "alice" "bob" = true
  ∧ handleOffer (allOk 5) "bob" offerB aliceCallsBob = aliceCallsBob
  ∧ inGlare bobCallsAlice "bob" "alice"
  ∧ String.ltb "bob" "alice" = false
  ∧ peerConnections bobCallsAlice !! "alice" = Some 0%nat
  ∧ connectionState <$> heap bob' !! 0%nat = Some CClosed
  ∧ peerConnections bob' !! "alice" = Some 1%nat
  ∧ "alice" ∈ pendingOffers bob'.
Proof.
  intros offerA offerB bob'.
  assert (HA : String.ltb "alice" "bob" = true) by reflexivity.
  assert (HB : String.ltb "bob" "alice" = false) by reflexivity.
  split; [exact aliceCallsBob_inGlare|]. split; [exact HA|].
  split.
  { exact (proj1 (proj1 (glare_tie_break (allOk 5) 5 "alice" "bob" offerB
                           aliceCallsBob aliceCallsBob_inGlare) HA)). }
  split; [exact bobCallsAlice_inGlare|]. split; [exact HB|].
  destruct (proj2 (glare_tie_break (allOk 6) 6 "bob" "alice" offerA
                     bobCallsAlice bobCallsAlice_inGlare) HB)
    as (_&_&(pc&before&_&Hm&_)&Hold&Hpe&_).
  assert (H0 : peerConnections bobCallsAlice !! "alice" = Some 0%nat)
    by (by vm_compute).
  assert (E0 : ∃ pc0, heap bobCallsAlice !! 0%nat = Some pc0)
    by (eexists; vm_compute; reflexivity).
  destruct E0 as [pc0 E0].
  split; [exact H0|]. split.
  { unfold bob'. by rewrite (Hold 0%nat pc0 H0 E0). }
  split; [exact Hm|exact Hpe].
Defined.

(** C1 (as specified, refuted). alice and bob have each a pending offer
    toward the other. bob's offer reaches alice, who has the smaller id:
    the specification makes her yield and answer; the hook leaves her
    state untouched, she stays Initiator and posts no answer. alice's
    offer reaches bob, who has the larger id: the specification makes him
    ignore it; the hook makes him Responder. *)
Lemma smaller_id_does_not_yield :
  let offerA := {| sdpType := SdpOffer; sdpBody := 1 |} in
  let offerB := {| sdpType := SdpOffer; sdpBody := 2 |} in
  let alice' := handleOffer (allOk 5) "bob" offerB aliceCallsBob in
  let bob' := handleOffer (allOk 6) "alice" offerA bobCallsAlice in
  "bob" ∈ pendingOffers aliceCallsBob
  ∧ "alice" ∈ pendingOffers bobCallsAlice
  ∧ String.ltb "alice" "bob" = true
  ∧ roleOf alice' "bob" ≠ Some Responder
  ∧ roleOf alice' "bob" = Some Initiator
  ∧ sent alice' = sent aliceCallsBob
  ∧ roleOf bob' "alice" = Some Responder.
Proof.
  destruct aliceCallsBob_inGlare as (_&_&_&_&HpA&_).
  destruct bobCallsAlice_inGlare as (_&_&_&_&HpB&_).
  cbn zeta. rewrite handleOffer_ignores_glare; [|done|by vm_compute].
  repeat split; try done; by vm_compute.
Qed.

(** C5. In a glare between [a] and [b], each side handling the other's
    offer, exactly one side stays Initiator, its state untouched by the
    offer it ignores, and the other acts as Responder: it closes the
    connection of its own attempt, sets the incoming offer as remote
    description of a new connection, creates an answer, sets it as
    local description and posts it, that answer being the one request
    it makes. Which side is which is read off the comparison of the two
    ids alone, so both sides arrive at the same assignment on their
    own. *)
Theorem glare_exactly_one (a b : string) (sA sB : Hook) (offerA offerB : Sdp)
    (nA nB : nat) :
  a ≠ b → inGlare sA a b → inGlare sB b a →
  let sA' := handleOffer (allOk nA) b offerB sA in
  let sB' := handleOffer (allOk nB) a offerA sB in
  (roleOf sA' b = Some Initiator ↔ String.ltb a b = true)
  ∧ (roleOf sB' a = Some Initiator ↔ String.ltb a b = false)
  ∧ ((roleOf sA' b = Some Initiator ∧ sA' = sA
      ∧ roleOf sB' a = Some Responder
      ∧ sent sB' = sent sB ++ [answerPost sB a nB]
      ∧ answered sB sB' a offerA nB)
     ∨ (roleOf sB' a = Some Initiator ∧ sB' = sB
        ∧ roleOf sA' b = Some Responder
        ∧ sent sA' = sent sA ++ [answerPost sA b nA]
        ∧ answered sA sA' b offerB nA)).
Proof.
  intros Hne HA HB sA' sB'.
  pose proof (ltb_asym_total a b Hne) as Hflip.
  destruct (String.ltb a b) eqn:E; cbn in Hflip.
  - destruct (inGlare_smaller (allOk nA) a b offerB sA HA E) as [HeA HrA].
    destruct (inGlare_not_smaller nB b a offerA sB HB Hflip)
      as (HrB&HsB&HnB&HoB&_).
    subst sA' sB'. rewrite HeA. split; [done|]. split.
    + rewrite HrB. split; discriminate.
    + left. by repeat split.
  - destruct (inGlare_smaller (allOk nB) b a offerA sB HB Hflip) as [HeB HrB].
    destruct (inGlare_not_smaller nA a b offerB sA HA E)
      as (HrA&HsA&HnA&HoA&_).
    subst sA' sB'. rewrite HeB. split.
    + rewrite HrA. split; discriminate.
    + split; [done|]. right. by repeat split.
Qed.

Lemma glare_exactly_one_witness :
  let offerA := {| sdpType := SdpOffer; sdpBody := 1 |} in
  let offerB := {| sdpType := SdpOffer; sdpBody := 2 |} in
  let alice' := handleOffer (allOk 3) "bob" offerB aliceCallsBob in
  let bob' := handleOffer (allOk 4) "alice" offerA bobCallsAlice in
  "alice" ≠ "bob"
  ∧ inGlare aliceCallsBob "alice" "bob" ∧ inGlare bobCallsAlice "bob" "alice"
  ∧ (roleOf alice' "bob" = Some Initiator ↔ String.ltb "alice" "bob" = true)
  ∧ alice' = aliceCallsBob
  ∧ answered bobCallsAlice bob' "alice" offerA 4.
Proof.
  intros offerA offerB alice' bob'.
  assert (Hne : "alice" ≠ "bob") by discriminate.
  split; [exact Hne|].
  split; [exact aliceCallsBob_inGlare|].
  split; [exact bobCallsAlice_inGlare|].
  destruct (glare_exactly_one "alice" "bob" aliceCallsBob bobCallsAlice
              offerA offerB 3 4 Hne aliceCallsBob_inGlare
              bobCallsAlice_inGlare) as (H1&H2&[H3|H3]).
  - split; [exact H1|]. destruct H3 as (_&H4&_&_&H5). by split.
  - exfalso. destruct H3 as (H4&_). apply H2 in H4. discriminate H4.
Defined.

Lemma handleAnswer_stale (env : Env) (from : string) (answer : Sdp) (s : Hook) :
  (∀ pc, connectionOf s from = Some pc → signalingState pc ≠ SHaveLocalOffer) →
  handleAnswer env from answer s = s.
Proof.
  intros H. unfold handleAnswer, awaitsAnswer.
  unfold connectionOf in H.
  destruct (peerConnections s !! from) as [r|]; cbn in *; [|done].
  destruct (heap s !! r) as [pc|]; cbn; [|done].
  rewrite bool_decide_eq_false_2; [done|]. by apply H.
Qed.

Lemma working_hasWorking (s : Hook) (p : string) (pc : PC) :
  connectionOf s p = Some pc →
  connectionState pc = CConnected ∨ connectionState pc = CConnecting →
  hasWorking s p = true.
Proof.
  unfold connectionOf, hasWorking, pcWorking, working.
  destruct (peerConnections s !! p) as [r|]; cbn; [|done].
  intros Hpc Hst. rewrite Hpc. cbn. by destruct Hst as [-> | ->].
Qed.

(** C9. An answer from a peer whose connection is not in the
    'have-local-offer' signaling state (or for which there is no
    connection), and an offer from a peer whose connection is already
    connected or connecting, leave the whole state of the hook as it was,
    whatever the browser would have done; so does the message handler on
    such a message. *)
Theorem stale_messages_are_noops (env : Env) (from : string) (d : Sdp)
    (s : Hook) :
  ((∀ pc, connectionOf s from = Some pc →
          signalingState pc ≠ SHaveLocalOffer) →
   handleAnswer env from d s = s
   ∧ handleSignalingMessage env (MsgAnswer from d) s = s)
  ∧ ((∃ pc, connectionOf s from = Some pc
            ∧ (connectionState pc = CConnected
               ∨ connectionState pc = CConnecting)) →
     handleOffer env from d s = s
     ∧ handleSignalingMessage env (MsgOffer from d) s = s).
Proof.
  split.
  - intros H. pose proof (handleAnswer_stale env from d s H) as E.
    split; [done|]. unfold handleSignalingMessage. by case_bool_decide.
  - intros (pc&Hpc&Hst).
    pose proof (handleOffer_ignores_working env from d s
                  (working_hasWorking s from pc Hpc Hst)) as E.
    split; [done|]. unfold handleSignalingMessage. by case_bool_decide.
Qed.

Lemma stale_messages_are_noops_witness :
  let d := {| sdpType := SdpAnswer; sdpBody := 3 |} in
  (∀ pc, connectionOf aliceConnected "bob" = Some pc →
         signalingState pc ≠ SHaveLocalOffer)
  ∧ (∃ pc, connectionOf aliceConnected "bob" = Some pc
           ∧ (connectionState pc = CConnected
              ∨ connectionState pc = CConnecting))
  ∧ handleAnswer (allOk 0) "bob" d aliceConnected = aliceConnected
  ∧ handleOffer (allOk 0) "bob" d aliceConnected = aliceConnected.
Proof.
  cbn zeta.
  assert (H1 : ∀ pc, connectionOf aliceConnected "bob" = Some pc →
                     signalingState pc ≠ SHaveLocalOffer).
  { intros pc H. vm_compute in H. injection H as <-. discriminate. }
  assert (H2 : ∃ pc, connectionOf aliceConnected "bob" = Some pc
                     ∧ (connectionState pc = CConnected
                        ∨ connectionState pc = CConnecting)).
  { eexists. split; [vm_compute; reflexivity|]. left. reflexivity. }
  split; [exact H1|]. split; [exact H2|]. split.
  - exact (proj1 (proj1 (stale_messages_are_noops (allOk 0) "bob"
             {| sdpType := SdpAnswer; sdpBody := 3 |} aliceConnected) H1)).
  - exact (proj1 (proj2 (stale_messages_are_noops (allOk 0) "bob"
             {| sdpType := SdpAnswer; sdpBody := 3 |} aliceConnected) H2)).
Defined.

Lemma initiateCall_needs_media (env : Env) (peerId : string) (s : Hook) :
  localStream s = None → initiateCall env peerId s = s.
Proof. intros H. unfold initiateCall. by rewrite H. Qed.

(** C10 (amended). While there is no local stream, an offer (to the
    handler or through the message dispatch), [initiateCall],
    [establishConnections] and the two timers that would call
    [initiateCall] change nothing: no connection is made, nothing is
    buffered, nothing is posted. An inbound ICE candidate is not gated on
    local media: with no connection for the sender it is appended to the
    sender's queue. *)
Theorem without_local_media (env : Env) (from peerId : string) (offer : Sdp)
    (peerIds : list string) (c : Candidate) (s : Hook) :
  localStream s = None →
  handleOffer env from offer s = s
  ∧ handleSignalingMessage env (MsgOffer from offer) s = s
  ∧ initiateCall env peerId s = s
  ∧ establishConnections peerIds s = s
  ∧ runCallback env (RetryCall peerId) s = s
  ∧ runCallback env (EstablishCall peerId) s = s
  ∧ (peerConnections s !! from = None →
     iceCandidateQueue (handleIceCandidate from c s) !! from
     = Some (default [] (iceCandidateQueue s !! from) ++ [c])).
Proof.
  intros H.
  pose proof (handleOffer_needs_media env from offer s H) as E1.
  pose proof (initiateCall_needs_media env peerId s H) as E2.
  repeat split; try done.
  - unfold handleSignalingMessage. by case_bool_decide.
  - unfold establishConnections. by rewrite H.
  - cbn. by rewrite H.
  - cbn. rewrite E2. by destruct (from_option _ _ _).
  - intros Hn. unfold handleIceCandidate, hasRemoteDescription.
    rewrite Hn. cbn. apply lookup_insert_eq.
Qed.

Lemma without_local_media_witness :
  localStream alice0 = None
  ∧ handleOffer (allOk 0) "bob" {| sdpType := SdpOffer; sdpBody := 2 |} alice0
    = alice0.
Proof.
  split; [reflexivity|].
  apply (without_local_media (allOk 0) "bob" "bob"
           {| sdpType := SdpOffer; sdpBody := 2 |} ["bob"] 5%nat alice0).
  reflexivity.
Defined.

(** C10 (as specified, refuted). With no local stream, and nothing else
    in the state, an ICE candidate from bob is not discarded: it lands in
    bob's queue. *)
Lemma candidate_buffered_without_media :
  localStream alice0 = None
  ∧ iceCandidateQueue alice0 !! "bob" = None
  ∧ iceCandidateQueue
      (handleSignalingMessage (allOk 0) (MsgIce "bob" 5%nat) alice0) !! "bob"
    = Some [5%nat]
  ∧ handleSignalingMessage (allOk 0) (MsgIce "bob" 5%nat) alice0 ≠ alice0.
Proof.
  split; [reflexivity|]. split; [reflexivity|]. split; [by vm_compute|].
  intros H. apply (f_equal (λ s, iceCandidateQueue s !! "bob")) in H.
  vm_compute in H. discriminate.
Qed.

(* ===================================================================== *)
(* 10. The pool invariant                                                *)
(* ===================================================================== *)

Section Invariant.

Implicit Types (h : list PC) (m : gmap string nat) (s : Hook).

Lemma tame_pcLog (o : PcOp) : tame (pcLog o).
Proof. by intros pc. Qed.

Lemma tame_pcClose : tame pcClose.
Proof. by intros pc. Qed.

Lemma tame_pcSetLocal (d : Sdp) : tame (pcSetLocal d).
Proof. by intros pc. Qed.

Lemma tame_pcSetRemote (d : Sdp) : tame (pcSetRemote d).
Proof. by intros pc. Qed.

Lemma tame_addAll (l : list Candidate) :
  tame (λ pc, fold_left (λ pc c, pcLog (OpAddIce c) pc) l pc).
Proof.
  induction l as [|c l IH]; intros pc; cbn; [done|].
  destruct (IH (pcLog (OpAddIce c) pc)) as [H1 H2]. cbn in *. split; [done|].
  intros Hc. by apply H2.
Qed.

Lemma wellFormedIn_alter (f : PC → PC) (r : nat) h m :
  tame f → wellFormedIn h m → wellFormedIn (alter f r h) m.
Proof.
  intros Hf [Hl Ho]. split.
  - intros r' pc Hpc Hlive.
    destruct (decide (r = r')) as [<-|Hne].
    + rewrite list_lookup_alter_eq in Hpc.
      destruct (h !! r) as [pc0|] eqn:E; [|done]. injection Hpc as <-.
      destruct (Hf pc0) as [Hp Hc]. rewrite Hp. apply Hl; [done|].
      intros Hcl. by apply Hlive, Hc.
    + rewrite list_lookup_alter_ne in Hpc by done. by apply Hl.
  - intros p r' Hp. destruct (Ho p r' Hp) as (pc&Hpc&Hpeer).
    destruct (decide (r = r')) as [<-|Hne].
    + exists (f pc). rewrite list_lookup_alter_eq, Hpc. split; [done|].
      by rewrite (proj1 (Hf pc)).
    + exists pc. by rewrite list_lookup_alter_ne.
Qed.

(** The browser changing the state of a connection that is not closed. *)
Lemma wellFormedIn_connState (st : ConnState) (r : nat) (pc : PC) h m :
  h !! r = Some pc → connectionState pc ≠ CClosed →
  wellFormedIn h m → wellFormedIn (alter (pcSetConnState st) r h) m.
Proof.
  intros Hr Hlive [Hl Ho]. split.
  - intros r' pc' Hpc' Hlive'.
    destruct (decide (r = r')) as [<-|Hne].
    + rewrite list_lookup_alter_eq, Hr in Hpc'. injection Hpc' as <-.
      cbn. by apply Hl.
    + rewrite list_lookup_alter_ne in Hpc' by done. by apply Hl.
  - intros p r' Hp. destruct (Ho p r' Hp) as (pc'&Hpc'&Hpeer).
    destruct (decide (r = r')) as [<-|Hne].
    + eexists. rewrite list_lookup_alter_eq, Hpc'. split; [done|]. done.
    + exists pc'. by rewrite list_lookup_alter_ne.
Qed.

(** Closing the entry of a peer and deleting it. *)
Lemma wellFormedIn_remove (p : string) (r : nat) h m :
  m !! p = Some r → wellFormedIn h m →
  wellFormedIn (alter pcClose r h) (delete p m).
Proof.
  intros Hp [Hl Ho]. split.
  - intros r' pc' Hpc' Hlive.
    destruct (decide (r = r')) as [<-|Hne].
    + rewrite list_lookup_alter_eq in Hpc'.
      destruct (h !! r); [|done]. injection Hpc' as <-. by destruct Hlive.
    + rewrite list_lookup_alter_ne in Hpc' by done.
      pose proof (Hl r' pc' Hpc' Hlive) as Hm.
      rewrite lookup_delete_ne; [done|]. intros E. rewrite <- E in Hm.
      congruence.
  - intros q r' Hq.
    destruct (decide (p = q)) as [<-|Hne];
      [by rewrite lookup_delete_eq in Hq|].
    rewrite lookup_delete_ne in Hq by done.
    destruct (Ho q r' Hq) as (pc&Hpc&Hpeer).
    destruct (decide (r = r')) as [<-|Hne'].
    + exists (pcClose pc). by rewrite list_lookup_alter_eq, Hpc.
    + exists pc. by rewrite list_lookup_alter_ne.
Qed.

(** Entering a new object for a peer all of whose objects are closed. *)
Lemma wellFormedIn_open (p : string) (pc : PC) h m :
  pcPeer pc = p →
  (∀ r pc', h !! r = Some pc' → pcPeer pc' = p →
            connectionState pc' = CClosed) →
  wellFormedIn h m → wellFormedIn (h ++ [pc]) (<[p := length h]> m).
Proof.
  intros Hpeer Hclosed [Hl Ho]. split.
  - intros r' pc' Hpc' Hlive.
    apply lookup_snoc_Some in Hpc' as [[Hlt Hpc']|[-> ->]].
    + destruct (decide (pcPeer pc' = p)) as [E|E].
      * destruct Hlive. by eapply Hclosed.
      * rewrite lookup_insert_ne by done. by apply Hl.
    + subst. by rewrite lookup_insert_eq.
  - intros q r' Hq.
    destruct (decide (p = q)) as [<-|Hne].
    + rewrite lookup_insert_eq in Hq. injection Hq as <-.
      exists pc. split; [|done]. by apply list_lookup_middle.
    + rewrite lookup_insert_ne in Hq by done.
      destruct (Ho q r' Hq) as (pc'&Hpc'&Hp').
      exists pc'. split; [|done]. rewrite lookup_app_l; [done|].
      by eapply lookup_lt_Some.
Qed.

(** Closing every entry of the map and clearing it. *)
Lemma closeAll_lookup (l : list (string * nat)) h (r : nat) (pc : PC) :
  foldr (λ e h, alter pcClose e.2 h) h l !! r = Some pc →
  connectionState pc ≠ CClosed →
  h !! r = Some pc ∧ r ∉ l.*2.
Proof.
  revert r pc. induction l as [|e l IH]; intros r pc; cbn.
  - intros H _. split; [done|]. apply not_elem_of_nil.
  - intros H Hlive. destruct (decide (e.2 = r)) as [<-|Hne].
    + rewrite list_lookup_alter_eq in H.
      destruct (foldr _ _ _ !! _); [|done]. injection H as <-.
      by destruct Hlive.
    + rewrite list_lookup_alter_ne in H by done.
      destruct (IH r pc H Hlive) as [H1 H2]. split; [done|].
      rewrite not_elem_of_cons. done.
Qed.

Lemma wellFormedIn_closeAll h m :
  wellFormedIn h m →
  wellFormedIn (foldr (λ e h, alter pcClose e.2 h) h (map_to_list m)) ∅.
Proof.
  intros [Hl Ho]. split.
  - intros r pc Hpc Hlive.
    destruct (closeAll_lookup _ _ _ _ Hpc Hlive) as [H1 H2].
    destruct H2. apply list_elem_of_fmap. exists (pcPeer pc, r).
    split; [done|]. apply elem_of_map_to_list. by apply Hl.
  - intros p r Hp. by rewrite lookup_empty in Hp.
Qed.

End Invariant.

(** The same invariant along the functions of the hook. *)

Ltac frame :=
  unfold wellFormed in *;
  cbn [heap peerConnections setLocalStream setRemoteStreams updHeap
       updPeerConnections updConnectionAttempts updPendingOffers
       updIsInitiator updConnectionStates updEstablished updQueue setNow
       updTimers updSent setTimeout onPc] in *.

Lemma wellFormed_initial (g p : option string) : wellFormed (initial g p).
Proof.
  split; cbn.
  - intros r pc H. by rewrite lookup_nil in H.
  - intros q r H. by rewrite lookup_empty in H.
Qed.

Lemma keeps_onPc (r : nat) (f : PC → PC) : tame f → keeps (onPc r f).
Proof. intros Hf s H. frame. by apply wellFormedIn_alter. Qed.

Lemma keeps_sendSignalingMessage (k : MsgKind) (to : string) (pl : Payload) :
  keeps (sendSignalingMessage k to pl).
Proof.
  intros s H. unfold sendSignalingMessage.
  destruct (negb _ || negb _); [done|]. by frame.
Qed.

Lemma keeps_removePeerConnection (p : string) : keeps (removePeerConnection p).
Proof.
  intros s H. unfold removePeerConnection.
  destruct (peerConnections s !! p) as [r|] eqn:E; frame; [|done].
  by apply wellFormedIn_remove.
Qed.

Lemma keeps_setTimeout (delay : Z) (cb : Callback) :
  keeps (setTimeout delay cb).
Proof. intros s H. exact H. Qed.

Lemma keeps_handleConnectionFailure (p : string) :
  keeps (handleConnectionFailure p).
Proof.
  intros s H. unfold handleConnectionFailure.
  destruct (_ && _); [|by apply keeps_removePeerConnection].
  apply keeps_setTimeout, keeps_removePeerConnection.
  exact H.
Qed.

Lemma closeExisting_closed (p : string) (s : Hook) :
  hasWorking s p = false → wellFormed s →
  wellFormed (closeExisting p s)
  ∧ ∀ r pc, heap (closeExisting p s) !! r = Some pc → pcPeer pc = p →
            connectionState pc = CClosed.
Proof.
  intros _ H. unfold closeExisting.
  destruct (peerConnections s !! p) as [r0|] eqn:E.
  - split; [by apply (keeps_onPc _ _ tame_pcClose)|].
    intros r pc Hpc Hp. cbn in Hpc.
    destruct (decide (r0 = r)) as [<-|Hne].
    + rewrite list_lookup_alter_eq in Hpc.
      destruct (heap s !! r0); [|done]. by injection Hpc as <-.
    + rewrite list_lookup_alter_ne in Hpc by done.
      destruct (decide (connectionState pc = CClosed)) as [|Hlive]; [done|].
      pose proof (proj1 H r pc Hpc Hlive) as Hm. congruence.
  - split; [done|]. intros r pc Hpc Hp.
    destruct (decide (connectionState pc = CClosed)) as [|Hlive]; [done|].
    pose proof (proj1 H r pc Hpc Hlive) as Hm. congruence.
Qed.

Lemma openPeerConnection_core (p : string) (i : bool) (s : Hook) :
  ∃ pc, pcPeer pc = p
        ∧ heap (openPeerConnection p i s).2 = heap s ++ [pc]
        ∧ peerConnections (openPeerConnection p i s).2
          = <[p := length (heap s)]> (peerConnections s).
Proof.
  unfold openPeerConnection. cbn.
  destruct (iceCandidateQueue s !! p) as [[|c q]|]; cbn.
  1,3: eexists; split; [|split; reflexivity]; by destruct (localStream s).
  exists (fold_left (λ pc c, pcLog (OpAddIce c) pc) q
            (pcLog (OpAddIce c)
               match localStream s with
               | Some st => pcLog (OpAddTracks st) (newPC p)
               | None => newPC p
               end)).
  split.
  - rewrite (proj1 (tame_addAll q _)). by destruct (localStream s).
  - split; [|done].
    rewrite <- (Nat.add_0_r (length (heap s))). by rewrite alter_app_r.
Qed.

Lemma wellFormed_createPeerConnection (p : string) (i : bool) (s : Hook) :
  wellFormed s → wellFormed (createPeerConnection p i s).2.
Proof.
  intros H. destruct (hasWorking s p) eqn:Hw.
  - unfold createPeerConnection. unfold hasWorking in Hw.
    destruct (peerConnections s !! p) as [r0|]; cbn in Hw; [|done].
    by rewrite Hw.
  - rewrite createPeerConnection_fresh by done.
    destruct (closeExisting_closed p s Hw H) as [H0 Hc].
    destruct (openPeerConnection_core p i (closeExisting p s))
      as (pc&Hp&Hh&Hm).
    unfold wellFormed. rewrite Hh, Hm. by apply wellFormedIn_open.
Qed.

Lemma keepsAsync_bind {A B : Type} (t : Async A) (k : A → Async B) :
  keepsAsync t → (∀ a, keepsAsync (k a)) → keepsAsync (t ≫= k).
Proof.
  intros Ht Hk s H. unfold mbind, Async_bind. specialize (Ht s H).
  destruct (t s) as [s' [a|]]; cbn in *; [by apply Hk|done].
Qed.

Lemma keepsAsync_await {A : Type} (env : Env) (k : nat) (t : Async A) :
  keepsAsync t → keepsAsync (await env k t).
Proof. intros Ht. unfold await. case_bool_decide; [by intros s Hs|done]. Qed.

Lemma keepsAsync_act (f : Hook → Hook) : keeps f → keepsAsync (act f).
Proof. intros Hf s H. by apply Hf. Qed.

Lemma keepsAsync_createOffer (env : Env) (r : nat) :
  keepsAsync (createOffer env r).
Proof. intros s H. by apply (keeps_onPc _ _ (tame_pcLog _)). Qed.

Lemma keepsAsync_createAnswer (env : Env) (r : nat) :
  keepsAsync (createAnswer env r).
Proof. intros s H. by apply (keeps_onPc _ _ (tame_pcLog _)). Qed.

Lemma keeps_tryCatch (body : Async unit) (handler : Hook → Hook) :
  keepsAsync body → keeps handler → keeps (tryCatch body handler).
Proof.
  intros Hb Hh s H. unfold tryCatch. specialize (Hb s H).
  destruct (body s) as [s' [a|]]; cbn in *; [done|by apply Hh].
Qed.

Lemma keeps_initiateCall (env : Env) (p : string) : keeps (initiateCall env p).
Proof.
  intros s H. unfold initiateCall.
  destruct (negb _ || negb _ || negb _); [done|].
  case_bool_decide; [done|].
  destruct (from_option _ _ _); [done|].
  pose proof (wellFormed_createPeerConnection p true
                (updPendingOffers (λ q, q ∪ {[p]}) s)) as Hc.
  destruct (createPeerConnection _ _ _) as [r s1]. cbn in Hc.
  apply keeps_tryCatch; [| |by apply Hc; frame].
  - apply keepsAsync_bind; [apply keepsAsync_await, keepsAsync_createOffer|].
    intros offer. apply keepsAsync_bind.
    + apply keepsAsync_await, keepsAsync_act, keeps_onPc, tame_pcSetLocal.
    + intros _. apply keepsAsync_act, keeps_sendSignalingMessage.
  - intros s2 H2. apply keeps_removePeerConnection. by frame.
Qed.

Lemma keeps_handleOffer (env : Env) (from : string) (offer : Sdp) :
  keeps (handleOffer env from offer).
Proof.
  intros s H. unfold handleOffer.
  destruct (negb _ || negb _); [done|].
  destruct (from_option _ _ _); [done|].
  destruct (_ && _); [done|].
  pose proof (wellFormed_createPeerConnection from false s H) as Hc.
  destruct (createPeerConnection _ _ _) as [r s1]. cbn in Hc.
  apply keeps_tryCatch; [| |done].
  - apply keepsAsync_bind.
    { apply keepsAsync_await, keepsAsync_act, keeps_onPc, tame_pcSetRemote. }
    intros _. apply keepsAsync_bind;
      [apply keepsAsync_await, keepsAsync_createAnswer|].
    intros answer. apply keepsAsync_bind.
    + apply keepsAsync_await, keepsAsync_act, keeps_onPc, tame_pcSetLocal.
    + intros _. apply keepsAsync_act, keeps_sendSignalingMessage.
  - apply keeps_removePeerConnection.
Qed.

Lemma keeps_handleAnswer (env : Env) (from : string) (answer : Sdp) :
  keeps (handleAnswer env from answer).
Proof.
  intros s H. unfold handleAnswer.
  destruct (awaitsAnswer s from) as [r|]; [|done].
  apply keeps_tryCatch; [| |done].
  - apply keepsAsync_bind.
    { apply keepsAsync_await, keepsAsync_act, keeps_onPc, tame_pcSetRemote. }
    intros _. apply keepsAsync_act. intros s1 H1. by frame.
  - apply keeps_removePeerConnection.
Qed.

Lemma keeps_handleIceCandidate (from : string) (c : Candidate) :
  keeps (handleIceCandidate from c).
Proof.
  intros s H. unfold handleIceCandidate.
  destruct (hasRemoteDescription s from) as [r|].
  - by apply (keeps_onPc _ _ (tame_pcLog _)).
  - by frame.
Qed.

Lemma keeps_handleSignalingMessage (env : Env) (msg : Message) :
  keeps (handleSignalingMessage env msg).
Proof.
  intros s H. unfold handleSignalingMessage. case_bool_decide; [done|].
  destruct msg.
  - by apply keeps_handleOffer.
  - by apply keeps_handleAnswer.
  - by apply keeps_handleIceCandidate.
  - done.
Qed.

Lemma keeps_pollSignalingMessages (msgs : list (Env * Message)) :
  keeps (pollSignalingMessages msgs).
Proof.
  intros s H. unfold pollSignalingMessages.
  destruct (negb _ || negb _); [done|].
  revert s H. induction msgs as [|m msgs IH]; intros s H; cbn; [done|].
  by apply IH, keeps_handleSignalingMessage.
Qed.

Lemma keeps_scheduleCalls (peerIds : list string) (index : Z) :
  keeps (scheduleCalls index peerIds).
Proof.
  revert index. induction peerIds as [|p l IH]; intros index s H; cbn;
    [done|].
  apply IH. case_bool_decide; [done|]. unfold setTimeout. by frame.
Qed.

Lemma keeps_establishConnections (peerIds : list string) :
  keeps (establishConnections peerIds).
Proof.
  intros s H. unfold establishConnections.
  destruct (negb _ || negb _ || negb _ || _); [done|].
  by apply keeps_scheduleCalls.
Qed.

Lemma keeps_onconnectionstatechange (r : nat) :
  keeps (onconnectionstatechange r).
Proof.
  intros s H. unfold onconnectionstatechange.
  destruct (heap s !! r) as [pc|]; [|done].
  case_bool_decide; [|done].
  destruct (connectionState pc); try by frame.
  apply keeps_handleConnectionFailure. by frame.
Qed.

Lemma keeps_connStateEvent (r : nat) (st : ConnState) :
  keeps (connStateEvent r st).
Proof.
  intros s H. unfold connStateEvent.
  destruct (heap s !! r) as [pc|] eqn:E; [|done].
  destruct (bool_decide (connectionState pc = CClosed)) eqn:Hc; [done|].
  destruct (bool_decide (st = CClosed)); [done|]. cbn.
  apply bool_decide_eq_false in Hc.
  apply keeps_onconnectionstatechange. frame.
  by eapply wellFormedIn_connState.
Qed.

Lemma keeps_iceStateEvent (r : nat) (ice : IceState) :
  keeps (iceStateEvent r ice).
Proof.
  intros s H. unfold iceStateEvent, oniceconnectionstatechange.
  destruct (heap s !! r) as [pc|]; [|done].
  case_bool_decide; [done|].
  destruct ice; try done. by apply keeps_handleConnectionFailure.
Qed.

Lemma keeps_ontrack (r : nat) (st : option Stream) (a : bool) (n : nat) :
  keeps (ontrack r st a n).
Proof.
  intros s H. unfold ontrack.
  destruct (heap s !! r), st; try done. destruct (_ && _); [|done].
  by frame.
Qed.

Lemma keeps_onicecandidate (r : nat) (c : option Candidate) :
  keeps (onicecandidate r c).
Proof.
  intros s H. unfold onicecandidate.
  destruct (heap s !! r), c; try done. destruct (truthy _); [|done].
  by apply keeps_sendSignalingMessage.
Qed.

Lemma keeps_runCallback (env : Env) (cb : Callback) :
  keeps (runCallback env cb).
Proof.
  intros s H. destruct cb; cbn.
  - case_bool_decide; [|done]. by apply keeps_handleConnectionFailure.
  - destruct (_ && _); [|done]. by apply keeps_initiateCall.
  - destruct (from_option _ _ _); [done|]. by apply keeps_initiateCall.
Qed.

Lemma keeps_fire (env : Env) (i : nat) : keeps (fire env i).
Proof.
  intros s H. unfold fire. destruct (timers s !! i) as [t|]; [|done].
  destruct (due t <=? now s); [|done].
  apply keeps_runCallback. by frame.
Qed.

Lemma keeps_cleanup : keeps cleanup.
Proof.
  intros s H. unfold cleanup. frame. by apply wellFormedIn_closeAll.
Qed.

Lemma keeps_setLocalStream (v : option Stream) : keeps (setLocalStream v).
Proof. intros s H. exact H. Qed.

Lemma keeps_startLocalStream (st : Stream) : keeps (startLocalStream st).
Proof. intros s H. apply keeps_setLocalStream, keeps_cleanup, H. Qed.

Lemma keeps_tick (dt : Z) :
  keeps (λ s, if 0 <=? dt then setNow (now s + dt) s else s).
Proof. intros s H. destruct (0 <=? dt); exact H. Qed.

Lemma keeps_exec (e : Event) : keeps (exec e).
Proof.
  destruct e; cbn [exec].
  - apply keeps_startLocalStream.
  - apply keeps_establishConnections.
  - apply keeps_initiateCall.
  - apply keeps_pollSignalingMessages.
  - apply keeps_connStateEvent.
  - apply keeps_iceStateEvent.
  - apply keeps_ontrack.
  - apply keeps_onicecandidate.
  - apply keeps_tick.
  - apply keeps_fire.
  - apply keeps_cleanup.
Qed.

Lemma keeps_run (es : list Event) : keeps (run es).
Proof.
  induction es as [|e es IH]; intros s H; cbn; [done|].
  by apply IH, keeps_exec.
Qed.

Lemma wellFormed_reachable (g p : option string) (s : Hook) :
  reachable g p s → wellFormed s.
Proof. intros [es ->]. apply keeps_run, wellFormed_initial. Qed.

(** C4. In every state the hook can reach, two connection objects that
    are not closed belong to different peers, and an object that is not
    closed is the map entry of its peer: per peer there is at most one
    live connection, the one in the map. [createPeerConnection] for a
    peer either hands back the existing connection, unchanged, when that
    one is connected or connecting, or closes whatever the map held for
    the peer and enters a fresh object in its place; the property holds
    again afterwards. *)
Theorem one_connection_per_peer (g p : option string) (s : Hook) :
  reachable g p s →
  (∀ r1 r2 pc1 pc2,
     heap s !! r1 = Some pc1 → heap s !! r2 = Some pc2 →
     connectionState pc1 ≠ CClosed → connectionState pc2 ≠ CClosed →
     pcPeer pc1 = pcPeer pc2 → r1 = r2)
  ∧ liveOwned s
  ∧ ∀ (peerId : string) (i : bool),
      let r := (createPeerConnection peerId i s).1 in
      let s' := (createPeerConnection peerId i s).2 in
      liveOwned s'
      ∧ ((hasWorking s peerId = true ∧ s' = s
          ∧ peerConnections s !! peerId = Some r)
         ∨ (hasWorking s peerId = false
            ∧ r = length (heap s)
            ∧ peerConnections s' !! peerId = Some r
            ∧ (∃ pc, heap s' !! r = Some pc ∧ connectionState pc = CNew)
            ∧ ∀ r0 pc0, peerConnections s !! peerId = Some r0 →
                        heap s !! r0 = Some pc0 →
                        heap s' !! r0 = Some (pcClose pc0))).
Proof.
  intros Hr. pose proof (wellFormed_reachable g p s Hr) as H.
  split; [|split; [exact (proj1 H)|]].
  - intros r1 r2 pc1 pc2 H1 H2 L1 L2 E.
    pose proof (proj1 H r1 pc1 H1 L1) as M1.
    pose proof (proj1 H r2 pc2 H2 L2) as M2. congruence.
  - intros peerId i.
    split; [exact (proj1 (wellFormed_createPeerConnection peerId i s H))|].
    destruct (hasWorking s peerId) eqn:Hw.
    + left. unfold createPeerConnection. unfold hasWorking in Hw.
      destruct (peerConnections s !! peerId) as [r0|]; cbn in Hw; [|done].
      by rewrite Hw.
    + right. rewrite createPeerConnection_fresh by done.
      pose proof (openPeerConnection_frame peerId i (closeExisting peerId s))
        as Hf.
      destruct (openPeerConnection_new peerId i (closeExisting peerId s))
        as (pc&Hpc&_&Hst&_).
      cbv zeta in Hf. destruct Hf as (_&_&_&_&_&_&_&_&_&_&Hm&_).
      rewrite openPeerConnection_ref. rewrite closeExisting_length in *.
      split; [done|]. split; [reflexivity|]. split.
      { rewrite Hm. apply lookup_insert_eq. }
      split; [by exists pc|].
      intros r0 pc0 Hr0 Hpc0. rewrite openPeerConnection_old.
      * unfold closeExisting. rewrite Hr0. cbn.
        by rewrite list_lookup_alter_eq, Hpc0.
      * rewrite closeExisting_length.
        apply lookup_lt_Some in Hpc0. lia.
Qed.

Lemma aliceCallsBob_reachable :
  reachable (Some "g") (Some "alice") aliceCallsBob.
Proof. eexists. reflexivity. Qed.

Lemma one_connection_per_peer_witness :
  reachable (Some "g") (Some "alice") aliceCallsBob
  ∧ liveOwned aliceCallsBob.
Proof.
  split; [exact aliceCallsBob_reachable|].
  exact (proj1 (proj2 (one_connection_per_peer (Some "g") (Some "alice")
                         aliceCallsBob aliceCallsBob_reachable))).
Defined.

(** Isolation, on any state whose map entries point at objects of their
    own peer. *)
Lemma removePeerConnection_frame (x y : string) (s : Hook) :
  poolOwned s → x ≠ y →
  entriesOf (removePeerConnection x s) y = entriesOf s y
  ∧ timers (removePeerConnection x s) = timers s
  ∧ sent (removePeerConnection x s) = sent s.
Proof.
  intros Ho Hxy. unfold removePeerConnection, entriesOf, connectionOf.
  assert (Hset : ∀ e : gset string,
            bool_decide (y ∈ e ∖ {[x]}) = bool_decide (y ∈ e)).
  { intros e. apply bool_decide_ext.
    rewrite elem_of_difference, elem_of_singleton. split; [tauto|].
    intros Hy. split; [done|]. by intros ->. }
  destruct (peerConnections s !! x) as [rx|] eqn:Ex; cbn;
    rewrite ?lookup_delete_ne, ?Hset by done; [|by repeat split].
  split; [|by split].
  assert (Hc : (peerConnections s !! y ≫= λ r, alter pcClose rx (heap s) !! r)
               = (peerConnections s !! y ≫= λ r, heap s !! r)).
  { destruct (peerConnections s !! y) as [ry|] eqn:Ey; cbn; [|done].
    rewrite list_lookup_alter_ne; [done|]. intros <-.
    destruct (Ho x rx Ex) as (pc1&H1&P1).
    destruct (Ho y rx Ey) as (pc2&H2&P2). congruence. }
  by rewrite Hc.
Qed.

Lemma filter_snoc_other (y : string) (t : Timer) (ts : list Timer) :
  callbackPeer (callback t) ≠ y →
  filter (λ t, callbackPeer (callback t) = y) (ts ++ [t])
  = filter (λ t, callbackPeer (callback t) = y) ts.
Proof.
  intros H. rewrite filter_app, filter_cons_False by done.
  by rewrite filter_nil, app_nil_r.
Qed.

Lemma entriesOf_setTimeout (delay : Z) (cb : Callback) (s : Hook) (y : string) :
  entriesOf (setTimeout delay cb s) y = entriesOf s y.
Proof. reflexivity. Qed.

Lemma entriesOf_attempts (x y : string) (n : Z) (s : Hook) :
  x ≠ y →
  entriesOf (updConnectionAttempts <[x := n]> s) y = entriesOf s y.
Proof.
  intros Hxy. unfold entriesOf, connectionOf. cbn.
  by rewrite lookup_insert_ne.
Qed.

Lemma handleConnectionFailure_frame (x y : string) (s : Hook) :
  poolOwned s → x ≠ y →
  entriesOf (handleConnectionFailure x s) y = entriesOf s y
  ∧ timersOf (handleConnectionFailure x s) y = timersOf s y
  ∧ sent (handleConnectionFailure x s) = sent s.
Proof.
  intros Ho Hxy. unfold handleConnectionFailure, timersOf.
  destruct (_ && _).
  - set (s1 := updConnectionAttempts _ s).
    destruct (removePeerConnection_frame x y s1 Ho Hxy) as (He&Ht&Hs).
    rewrite entriesOf_setTimeout, He. unfold s1 at 1.
    rewrite entriesOf_attempts by done. split; [done|].
    generalize dependent (removePeerConnection x s1). intros s2 _ Ht Hs.
    unfold setTimeout. cbn [timers sent updTimers].
    rewrite filter_snoc_other, Ht, Hs by done. done.
  - destruct (removePeerConnection_frame x y s Ho Hxy) as (He&Ht&Hs).
    by rewrite He, Ht, Hs.
Qed.

(** C7. In a state the hook can reach, removing the connection of peer
    [x], or handling a failure of it, leaves everything kept under any
    other peer [y] as it was: the map entry and the connection object
    behind it, the attempt counter, the pending-offer and established
    flags, the role, the recorded state, the candidate queue, the remote
    stream, and the pending timers of [y]. *)
Theorem failure_is_isolated (g p : option string) (x y : string) (s : Hook) :
  reachable g p s → x ≠ y →
  entriesOf (removePeerConnection x s) y = entriesOf s y
  ∧ timersOf (removePeerConnection x s) y = timersOf s y
  ∧ entriesOf (handleConnectionFailure x s) y = entriesOf s y
  ∧ timersOf (handleConnectionFailure x s) y = timersOf s y.
Proof.
  intros Hr Hxy. pose proof (proj2 (wellFormed_reachable g p s Hr)) as Ho.
  destruct (removePeerConnection_frame x y s Ho Hxy) as (H1&H2&_).
  destruct (handleConnectionFailure_frame x y s Ho Hxy) as (H3&H4&_).
  unfold timersOf in *. by rewrite H1, H2, H3, H4.
Qed.

Lemma aliceCallsTwo_reachable :
  reachable (Some "g") (Some "alice") aliceCallsTwo.
Proof. eexists. reflexivity. Qed.

Lemma failure_is_isolated_witness :
  reachable (Some "g") (Some "alice") aliceCallsTwo ∧ "bob" ≠ "carol"
  ∧ entriesOf (handleConnectionFailure "bob" aliceCallsTwo) "carol"
    = entriesOf aliceCallsTwo "carol".
Proof.
  assert (Hne : "bob" ≠ "carol") by discriminate.
  split; [exact aliceCallsTwo_reachable|]. split; [exact Hne|].
  exact (proj1 (proj2 (proj2 (failure_is_isolated (Some "g") (Some "alice")
           "bob" "carol" aliceCallsTwo aliceCallsTwo_reachable Hne)))).
Defined.

(* ===================================================================== *)
(* 11. The grace window                                                  *)
(* ===================================================================== *)

(** A connection that is not closed is reported 'disconnected', the hook
    having recorded another state for its peer: the state is recorded,
    the peer leaves the established set, and one timer is set. *)
Lemma connStateEvent_disconnected (r : nat) (pc : PC) (s : Hook) :
  heap s !! r = Some pc → connectionState pc ≠ CClosed →
  connectionStates s !! pcPeer pc ≠ Some CDisconnected →
  connStateEvent r CDisconnected s
  = setTimeout 10000 (GraceCheck r (pcPeer pc))
      (updEstablished (λ e, e ∖ {[pcPeer pc]})
         (updConnectionStates <[pcPeer pc := CDisconnected]>
            (onPc r (pcSetConnState CDisconnected) s))).
Proof.
  intros Hr Hlive Hold. unfold connStateEvent. rewrite Hr.
  rewrite (bool_decide_eq_false_2 _ Hlive). cbn [orb bool_decide].
  replace (bool_decide (CDisconnected = CClosed)) with false by done.
  unfold onconnectionstatechange.
  assert (E : heap (onPc r (pcSetConnState CDisconnected) s) !! r
              = Some (pcSetConnState CDisconnected pc)).
  { cbn. by rewrite list_lookup_alter_eq, Hr. }
  rewrite E.
  cbn [pcPeer connectionState pcSetConnState connectionStates onPc updHeap].
  rewrite bool_decide_eq_true_2; [done|]. congruence.
Qed.

Lemma fire_grace (env : Env) (i r : nat) (p : string) (t : Timer) (s : Hook) :
  timers s !! i = Some t → callback t = GraceCheck r p →
  (now s < due t → fire env i s = s)
  ∧ (due t ≤ now s →
     connectionState <$> heap s !! r = Some CDisconnected →
     fire env i s = handleConnectionFailure p (updTimers (delete i) s))
  ∧ (due t ≤ now s →
     connectionState <$> heap s !! r ≠ Some CDisconnected →
     fire env i s = updTimers (delete i) s).
Proof.
  intros Ht Hcb. unfold fire. rewrite Ht, Hcb.
  repeat split.
  - intros Hlt. by rewrite (proj2 (Z.leb_gt _ _) Hlt).
  - intros Hle Hd. rewrite (proj2 (Z.leb_le _ _) Hle). cbn.
    by rewrite bool_decide_eq_true_2.
  - intros Hle Hd. rewrite (proj2 (Z.leb_le _ _) Hle). cbn.
    by rewrite bool_decide_eq_false_2.
Qed.

(** What the hook does when a connection is reported 'disconnected', and
    what the timer it sets then does: before it is due, nothing; when it
    fires, failure handling for the peer exactly when the state of that
    connection object is 'disconnected' at that moment; otherwise the
    timer is dropped and nothing else changes. *)
Lemma grace_window (env : Env) (r : nat) (pc : PC) (s : Hook) :
  heap s !! r = Some pc → connectionState pc ≠ CClosed →
  connectionStates s !! pcPeer pc ≠ Some CDisconnected →
  let peerId := pcPeer pc in
  let s1 := connStateEvent r CDisconnected s in
  s1 = setTimeout 10000 (GraceCheck r peerId)
         (updEstablished (λ e, e ∖ {[peerId]})
            (updConnectionStates <[peerId := CDisconnected]>
               (onPc r (pcSetConnState CDisconnected) s)))
  ∧ timers s1
    = timers s ++ [{| due := now s + 10000; callback := GraceCheck r peerId |}]
  ∧ peerConnections s1 = peerConnections s
  ∧ ∀ (s2 : Hook) (i : nat) (t : Timer),
      timers s2 !! i = Some t → callback t = GraceCheck r peerId →
      (now s2 < due t → fire env i s2 = s2)
      ∧ (due t ≤ now s2 →
         connectionState <$> heap s2 !! r = Some CDisconnected →
         fire env i s2
         = handleConnectionFailure peerId (updTimers (delete i) s2))
      ∧ (due t ≤ now s2 →
         connectionState <$> heap s2 !! r ≠ Some CDisconnected →
         fire env i s2 = updTimers (delete i) s2).
Proof.
  intros Hr Hlive Hold peerId s1.
  pose proof (connStateEvent_disconnected r pc s Hr Hlive Hold) as E.
  fold peerId in E. fold s1 in E.
  split; [exact E|]. split; [by rewrite E|]. split; [by rewrite E|].
  intros s2 i t Ht Hcb. by apply fire_grace.
Qed.

Lemma connStateEvent_live (r : nat) (st : ConnState) (pc : PC) (s : Hook) :
  heap s !! r = Some pc → connectionState pc ≠ CClosed → st ≠ CClosed →
  connectionStates s !! pcPeer pc ≠ Some st →
  connStateEvent r st s
  = let peerId := pcPeer pc in
    let s1 := updConnectionStates <[peerId := st]>
                (onPc r (pcSetConnState st) s) in
    match st with
    | CConnected =>
        updEstablished (λ e, e ∪ {[peerId]})
          (updPendingOffers (λ p, p ∖ {[peerId]})
             (updConnectionAttempts (delete peerId) s1))
    | CFailed =>
        handleConnectionFailure peerId
          (updEstablished (λ e, e ∖ {[peerId]}) s1)
    | CDisconnected =>
        setTimeout 10000 (GraceCheck r peerId)
          (updEstablished (λ e, e ∖ {[peerId]}) s1)
    | _ => s1
    end.
Proof.
  intros Hr Hlive Hst Hold. unfold connStateEvent. rewrite Hr.
  rewrite (bool_decide_eq_false_2 _ Hlive), (bool_decide_eq_false_2 _ Hst).
  cbn [orb]. unfold onconnectionstatechange.
  assert (E : heap (onPc r (pcSetConnState st) s) !! r
              = Some (pcSetConnState st pc)).
  { cbn. by rewrite list_lookup_alter_eq, Hr. }
  rewrite E.
  cbn [pcPeer connectionState pcSetConnState connectionStates onPc updHeap].
  rewrite bool_decide_eq_true_2 by congruence. reflexivity.
Qed.

(** The fields the grace window depends on, after a report of
    'connected' and after a report of 'disconnected'. *)
Lemma connStateEvent_connected_fields (r : nat) (pc : PC) (s : Hook) :
  heap s !! r = Some pc → connectionState pc ≠ CClosed →
  connectionStates s !! pcPeer pc ≠ Some CConnected →
  let s' := connStateEvent r CConnected s in
  heap s' !! r = Some (pcSetConnState CConnected pc)
  ∧ connectionStates s' !! pcPeer pc = Some CConnected
  ∧ pcPeer pc ∈ establishedConnections s'
  ∧ timers s' = timers s ∧ now s' = now s.
Proof.
  intros Hr Hlive Hold. cbv zeta.
  rewrite (connStateEvent_live r CConnected pc s) by done. cbn.
  rewrite list_lookup_alter_eq, Hr, lookup_insert_eq.
  repeat split. apply elem_of_union_r. by apply elem_of_singleton.
Qed.

Lemma connStateEvent_disconnected_fields (r : nat) (pc : PC) (s : Hook) :
  heap s !! r = Some pc → connectionState pc ≠ CClosed →
  connectionStates s !! pcPeer pc ≠ Some CDisconnected →
  let s' := connStateEvent r CDisconnected s in
  heap s' !! r = Some (pcSetConnState CDisconnected pc)
  ∧ connectionStates s' !! pcPeer pc = Some CDisconnected
  ∧ timers s' = timers s ++ [{| due := now s + 10000;
                                callback := GraceCheck r (pcPeer pc) |}]
  ∧ now s' = now s.
Proof.
  intros Hr Hlive Hold. cbv zeta.
  rewrite (connStateEvent_disconnected r pc s) by done. cbn.
  by rewrite list_lookup_alter_eq, Hr, lookup_insert_eq.
Qed.

Lemma tick_fields (dt : Z) (s : Hook) :
  0 ≤ dt →
  let s' := exec (EvTick dt) s in
  heap s' = heap s ∧ connectionStates s' = connectionStates s
  ∧ timers s' = timers s ∧ now s' = now s + dt.
Proof.
  intros H. cbn [exec]. by rewrite (proj2 (Z.leb_le 0 dt) H).
Qed.

Lemma peerConnections_setTimeout (delay : Z) (cb : Callback) (s : Hook) :
  peerConnections (setTimeout delay cb s) = peerConnections s.
Proof. reflexivity. Qed.

Lemma removePeerConnection_entry (p : string) (s : Hook) :
  peerConnections (removePeerConnection p s) !! p = None.
Proof.
  unfold removePeerConnection.
  destruct (peerConnections s !! p) eqn:E; cbn; [apply lookup_delete_eq|done].
Qed.

(** Failure handling leaves no map entry for the peer. *)
Lemma handleConnectionFailure_entry (p : string) (s : Hook) :
  peerConnections (handleConnectionFailure p s) !! p = None.
Proof.
  unfold handleConnectionFailure. case_match.
  - rewrite peerConnections_setTimeout. apply removePeerConnection_entry.
  - apply removePeerConnection_entry.
Qed.

(** C6 (the code against the claim). A 'connected' report does not
    cancel the timer of the grace window, and the timer does not know
    which disconnection set it. A connection drops, is reported
    'connected' again [d1] ms later, inside the window, and drops once
    more [d2] ms after that, still inside the window of the first drop.
    When that first window ends, the second drop being [d3] ms old,
    less than 10000, the timer of the first drop is still pending; it
    fires, finds the connection 'disconnected' and runs failure
    handling, after which the map has no entry for the peer. So failure
    handling is performed for a connection that returned to 'connected'
    before the window elapsed and has not stayed 'disconnected' for 10
    seconds. *)
Theorem stale_grace_timer_fires (env : Env) (r : nat) (pc : PC) (s : Hook)
    (d1 d2 d3 : Z) :
  heap s !! r = Some pc → connectionState pc ≠ CClosed →
  connectionStates s !! pcPeer pc ≠ Some CDisconnected →
  0 ≤ d1 < 10000 → 0 ≤ d2 → 0 ≤ d3 < 10000 → d1 + d2 + d3 = 10000 →
  let peerId := pcPeer pc in
  let i := length (timers s) in
  let first := {| due := now s + 10000; callback := GraceCheck r peerId |} in
  let dropped := connStateEvent r CDisconnected s in
  let back := connStateEvent r CConnected (exec (EvTick d1) dropped) in
  let again := connStateEvent r CDisconnected (exec (EvTick d2) back) in
  let late := exec (EvTick d3) again in
  timers dropped !! i = Some first
  ∧ now back < now s + 10000
  ∧ connectionState <$> heap back !! r = Some CConnected
  ∧ connectionStates back !! peerId = Some CConnected
  ∧ peerId ∈ establishedConnections back
  ∧ timers back !! i = Some first
  ∧ now late = now s + 10000
  ∧ now late - now again = d3
  ∧ timers late !! i = Some first
  ∧ fire env i late = handleConnectionFailure peerId (updTimers (delete i) late)
  ∧ peerConnections (fire env i late) !! peerId = None.
Proof.
  intros Hr Hlive Hold H1 H2 H3 Hsum peerId i first dropped back again late.
  destruct (connStateEvent_disconnected_fields r pc s Hr Hlive Hold)
    as (A1&A2&A3&A4).
  fold dropped in A1, A2, A3, A4. fold peerId in A2, A3.
  destruct (tick_fields d1 dropped (proj1 H1)) as (B1&B2&B3&B4).
  set (s1 := exec (EvTick d1) dropped) in *.
  assert (C0 : heap s1 !! r = Some (pcSetConnState CDisconnected pc))
    by by rewrite B1.
  destruct (connStateEvent_connected_fields r _ s1 C0)
    as (C1&C2&C3&C4&C5).
  { done. }
  { cbn [pcPeer pcSetConnState]. fold peerId. rewrite B2, A2. discriminate. }
  fold back in C1, C2, C3, C4, C5. cbn [pcPeer pcSetConnState] in C2, C3.
  fold peerId in C2, C3.
  destruct (tick_fields d2 back H2) as (D1&D2&D3&D4).
  set (s2 := exec (EvTick d2) back) in *.
  assert (E0 : heap s2 !! r
               = Some (pcSetConnState CConnected
                         (pcSetConnState CDisconnected pc)))
    by by rewrite D1.
  destruct (connStateEvent_disconnected_fields r _ s2 E0)
    as (E1&E2&E3&E4).
  { done. }
  { cbn [pcPeer pcSetConnState]. fold peerId. rewrite D2, C2. discriminate. }
  fold again in E1, E2, E3, E4. cbn [pcPeer pcSetConnState] in E3.
  fold peerId in E3.
  destruct (tick_fields d3 again (proj1 H3)) as (F1&F2&F3&F4).
  fold late in F1, F2, F3, F4.
  assert (T0 : timers dropped !! i = Some first).
  { rewrite A3. unfold i. by rewrite list_lookup_middle. }
  assert (T1 : timers back !! i = Some first) by by rewrite C4, B3.
  assert (T2 : timers late !! i = Some first).
  { rewrite F3, E3, D3. apply lookup_app_l_Some. exact T1. }
  assert (N1 : now back = now s + d1) by (rewrite C5, B4, A4; lia).
  assert (N2 : now again = now s + d1 + d2) by (rewrite E4, D4, N1; lia).
  assert (N3 : now late = now s + 10000) by (rewrite F4, N2; lia).
  assert (Hfire : fire env i late
                  = handleConnectionFailure peerId
                      (updTimers (delete i) late)).
  { destruct (fire_grace env i r peerId first late T2 eq_refl)
      as (_&Hf&_).
    apply Hf; [unfold first; cbn [due]; rewrite N3; lia|].
    by rewrite F1, E1. }
  split; [exact T0|]. split; [lia|]. split; [by rewrite C1|].
  split; [exact C2|]. split; [exact C3|]. split; [exact T1|].
  split; [exact N3|]. split; [lia|]. split; [exact T2|].
  split; [exact Hfire|]. rewrite Hfire. apply handleConnectionFailure_entry.
Qed.

(** alice's established connection to bob drops at 0 ms, is back at
    3000 ms and drops again at 9000 ms. *)
Lemma stale_grace_timer_fires_witness :
  ∃ pc, heap aliceConnected !! 0%nat = Some pc
        ∧ connectionState pc ≠ CClosed
        ∧ connectionStates aliceConnected !! pcPeer pc ≠ Some CDisconnected
        ∧ 0 ≤ 3000 < 10000 ∧ 0 ≤ 6000 ∧ 0 ≤ 1000 < 10000
        ∧ 3000 + 6000 + 1000 = 10000
        ∧ let back := connStateEvent 0 CConnected
                        (exec (EvTick 3000)
                           (connStateEvent 0 CDisconnected aliceConnected)) in
          let late := exec (EvTick 1000)
                        (connStateEvent 0 CDisconnected
                           (exec (EvTick 6000) back)) in
          connectionState <$> heap back !! 0%nat = Some CConnected
          ∧ peerConnections
              (fire (allOk 9) (length (timers aliceConnected)) late)
            !! pcPeer pc = None.
Proof.
  assert (H : ∃ pc, heap aliceConnected !! 0%nat = Some pc
                    ∧ connectionState pc ≠ CClosed
                    ∧ connectionStates aliceConnected !! pcPeer pc
                      ≠ Some CDisconnected).
  { eexists. split; [vm_compute; reflexivity|]. split; by vm_compute. }
  destruct H as (pc&H1&H2&H3). exists pc.
  assert (H4 : 0 ≤ 3000 < 10000) by lia. assert (H5 : 0 ≤ 6000) by lia.
  assert (H6 : 0 ≤ 1000 < 10000) by lia.
  assert (H7 : 3000 + 6000 + 1000 = 10000) by lia.
  pose proof (stale_grace_timer_fires (allOk 9) 0 pc aliceConnected
                3000 6000 1000 H1 H2 H3 H4 H5 H6 H7) as H.
  cbv zeta in H. destruct H as (_&_&R1&_&_&_&_&_&_&_&R2).
  split; [exact H1|]. split; [exact H2|]. split; [exact H3|].
  split; [exact H4|]. split; [exact H5|]. split; [exact H6|].
  split; [exact H7|]. cbv zeta. split; [exact R1|exact R2].
Defined.

(** The same on a run, computed: alice's established connection to bob
    drops at 0 ms and is connected again at 3000 ms, well inside the
    window; it drops a second time at 9000 ms. At 10000 ms the first
    timer fires, finds the connection 'disconnected' and runs failure
    handling: the connection is removed and a retry is scheduled, one
    second into the second window. *)
Lemma grace_timer_not_cancelled :
  let back := run flapsUntil3000 aliceConnected in
  let s' := fire (allOk 9) 0 flapping in
  now back = 3000
  ∧ connectionState <$> connectionOf back "bob" = Some CConnected
  ∧ connectionStates back !! "bob" = Some CConnected
  ∧ now flapping = 10000
  ∧ timers flapping = [{| due := 10000; callback := GraceCheck 0 "bob" |};
                       {| due := 19000; callback := GraceCheck 0 "bob" |}]
  ∧ peerConnections flapping !! "bob" = Some 0%nat
  ∧ peerConnections s' !! "bob" = None
  ∧ connectionState <$> heap s' !! 0%nat = Some CClosed
  ∧ timers s' = [{| due := 19000; callback := GraceCheck 0 "bob" |};
                 {| due := 12000; callback := RetryCall "bob" |}].
Proof. repeat split; by vm_compute. Qed.

(* ===================================================================== *)
(* 12. Candidates, retries and their delay                               *)
(* ===================================================================== *)

(** A candidate for a connection that has a remote description goes to
    the connection at once. *)
Lemma handleIceCandidate_immediate (from : string) (c : Candidate) (r : nat)
    (pc : PC) (s : Hook) :
  peerConnections s !! from = Some r → heap s !! r = Some pc →
  is_Some (remoteDescription pc) →
  connectionOf (handleIceCandidate from c s) from
  = Some (pcLog (OpAddIce c) pc)
  ∧ iceCandidateQueue (handleIceCandidate from c s) = iceCandidateQueue s.
Proof.
  intros Hr Hpc Hrd. unfold handleIceCandidate, hasRemoteDescription.
  rewrite Hr. cbn. rewrite Hpc. cbn. rewrite bool_decide_eq_true_2 by done.
  unfold connectionOf. cbn. rewrite Hr. cbn.
  by rewrite list_lookup_alter_eq, Hpc.
Qed.

(** Any other candidate goes to the end of the sender's queue. *)
Lemma handleIceCandidate_queues (from : string) (c : Candidate) (s : Hook) :
  hasRemoteDescription s from = None →
  iceCandidateQueue (handleIceCandidate from c s) !! from
  = Some (default [] (iceCandidateQueue s !! from) ++ [c])
  ∧ heap (handleIceCandidate from c s) = heap s.
Proof.
  intros H. unfold handleIceCandidate. rewrite H. cbn.
  by rewrite lookup_insert_eq.
Qed.

(** An answer that is applied sets the remote description and leaves the
    queue of the sender as it is: nothing is handed to the connection. *)
Lemma handleAnswer_keeps_queue (n : nat) (from : string) (answer : Sdp)
    (r : nat) (pc : PC) (s : Hook) :
  peerConnections s !! from = Some r → heap s !! r = Some pc →
  signalingState pc = SHaveLocalOffer →
  let s' := handleAnswer (allOk n) from answer s in
  connectionOf s' from = Some (pcSetRemote answer pc)
  ∧ iceCandidateQueue s' = iceCandidateQueue s.
Proof.
  intros Hr Hpc Hsig. unfold handleAnswer, awaitsAnswer.
  rewrite Hr. cbn. rewrite Hpc. cbn. rewrite bool_decide_eq_true_2 by done.
  rewrite answer_block_ok. unfold connectionOf. cbn. rewrite Hr. cbn.
  by rewrite list_lookup_alter_eq, Hpc.
Qed.

(** C2 (the code at the failing inputs). alice has called bob; bob's
    candidates 11 and 12 arrive before his answer. After the answer the
    connection has its remote description, no candidate was handed to it,
    and both are still in the queue. On bob's side, where the candidates
    arrive before alice's offer, they are handed to the new connection
    before [setRemoteDescription] is called on it. *)
Theorem queued_candidates_miss_the_remote_description :
  let answer := {| sdpType := SdpAnswer; sdpBody := 3 |} in
  let offer := {| sdpType := SdpOffer; sdpBody := 1 |} in
  remoteDescription <$> connectionOf candidatesThenAnswer "bob"
  = Some (Some answer)
  ∧ applied <$> connectionOf candidatesThenAnswer "bob" = Some []
  ∧ iceCandidateQueue candidatesThenAnswer !! "bob" = Some [11; 12]%nat
  ∧ ops <$> connectionOf candidatesThenOffer "alice"
    = Some [OpAddTracks 8%nat; OpAddIce 11%nat; OpAddIce 12%nat;
            OpSetRemote offer; OpCreateAnswer;
            OpSetLocal {| sdpType := SdpAnswer; sdpBody := 4 |}].
Proof. repeat split; by vm_compute. Qed.

Lemma attempts_setTimeout (delay : Z) (cb : Callback) (s : Hook) :
  connectionAttempts (setTimeout delay cb s) = connectionAttempts s.
Proof. reflexivity. Qed.

Lemma attempts_removePeerConnection (p : string) (s : Hook) :
  connectionAttempts (removePeerConnection p s)
  = delete p (connectionAttempts s).
Proof.
  unfold removePeerConnection. by destruct (peerConnections s !! p).
Qed.

(** Failure handling never leaves an attempt count behind: the count it
    has just written is deleted by [removePeerConnection]. *)
Lemma handleConnectionFailure_forgets_attempts (p : string) (s : Hook) :
  connectionAttempts (handleConnectionFailure p s) !! p = None.
Proof.
  unfold handleConnectionFailure. destruct (_ && _).
  - rewrite attempts_setTimeout, attempts_removePeerConnection.
    apply lookup_delete_eq.
  - rewrite attempts_removePeerConnection. apply lookup_delete_eq.
Qed.

(** With no count recorded, the failure of a connection made as
    initiator is always retried, after 2000 ms. *)
Lemma handleConnectionFailure_retries (p : string) (s : Hook) :
  connectionAttempts s !! p = None → isInitiator s !! p = Some true →
  timers (handleConnectionFailure p s)
  = timers s ++ [{| due := now s + 2000; callback := RetryCall p |}].
Proof.
  intros Ha Hi. unfold handleConnectionFailure. rewrite Ha, Hi. cbn.
  unfold removePeerConnection.
  destruct (peerConnections s !! p); reflexivity.
Qed.

(** The failure of a connection not made as initiator is never retried. *)
Lemma handleConnectionFailure_responder (p : string) (s : Hook) :
  isInitiator s !! p ≠ Some true →
  handleConnectionFailure p s = removePeerConnection p s.
Proof.
  intros Hi. unfold handleConnectionFailure.
  destruct (isInitiator s !! p) as [[|]|]; cbn; try done.
  all: by rewrite andb_false_r.
Qed.

(** C3 (the code at the failing input). alice's connection to bob fails,
    and each retry fails again as soon as it is made. After four failures
    and four fired retry timers alice has posted five offers to bob, the
    original one and four retries, holds a fifth, live connection to him,
    and has no attempt count on record. *)
Theorem a_fourth_retry_is_made :
  length (sent failsFourTimes) = 5%nat
  ∧ Forall (λ q, postType q = KOffer ∧ postTo q = "bob") (sent failsFourTimes)
  ∧ peerConnections failsFourTimes !! "bob" = Some 4%nat
  ∧ connectionState <$> connectionOf failsFourTimes "bob" = Some CNew
  ∧ (connectionState <$> heap failsFourTimes) !! 3%nat = Some CClosed
  ∧ connectionAttempts failsFourTimes !! "bob" = None.
Proof.
  split; [by vm_compute|]. split.
  { vm_compute. repeat constructor. }
  repeat split; by vm_compute.
Qed.

(** C8 (the code at the failing input). In the same run the wait of the
    retry timer is 2000 ms after the first failure, and 2000 ms again
    after the second, the third and the fourth: it does not grow. *)
Theorem retry_wait_does_not_grow :
  retryWaits (run [EvConnState 0 CFailed] aliceCallsBob) = [2000]
  ∧ retryWaits (run (failAndRetry 0 ++ [EvConnState 1 CFailed]) aliceCallsBob)
    = [2000]
  ∧ retryWaits (run (failAndRetry 0 ++ failAndRetry 1
                     ++ [EvConnState 2 CFailed]) aliceCallsBob)
    = [2000]
  ∧ retryWaits (run (failAndRetry 0 ++ failAndRetry 1 ++ failAndRetry 2
                     ++ [EvConnState 3 CFailed]) aliceCallsBob)
    = [2000]
  ∧ retryDelay 0 = 2000 ∧ retryDelay 1 = 4000 ∧ retryDelay 2 = 6000.
Proof. repeat split; by vm_compute. Qed.

(** The attempt counter is empty whenever a handler starts: no function
    of the hook returns with a count on record. *)
Lemma quiet_removePeerConnection (p : string) : quiet (removePeerConnection p).
Proof.
  intros s H. rewrite attempts_removePeerConnection, H. apply delete_empty.
Qed.

Lemma attempts_written (p : string) (n : Z) (s : Hook) :
  connectionAttempts (updConnectionAttempts <[p := n]> s)
  = <[p := n]> (connectionAttempts s).
Proof. reflexivity. Qed.

Lemma quiet_handleConnectionFailure (p : string) :
  quiet (handleConnectionFailure p).
Proof.
  intros s H. unfold handleConnectionFailure.
  destruct (_ && _); [|by apply quiet_removePeerConnection].
  rewrite attempts_setTimeout, attempts_removePeerConnection, attempts_written.
  rewrite H, delete_insert_eq. apply delete_empty.
Qed.

Lemma quiet_createPeerConnection (p : string) (i : bool) (s : Hook) :
  connectionAttempts s = ∅ →
  connectionAttempts (createPeerConnection p i s).2 = ∅.
Proof.
  intros H. unfold createPeerConnection.
  assert (Ho : ∀ s0, connectionAttempts s0 = ∅ →
                     connectionAttempts (openPeerConnection p i s0).2 = ∅).
  { intros s0 H0.
    by rewrite (proj1 (proj2 (proj2 (proj2 (proj2 (proj2 (proj2 (proj2
                 (openPeerConnection_frame p i s0))))))))). }
  destruct (peerConnections s !! p) as [r0|]; [|by apply Ho].
  destruct (pcWorking s r0); [done|]. by apply Ho.
Qed.

Lemma quietAsync_bind {A B : Type} (t : Async A) (k : A → Async B) :
  quietAsync t → (∀ a, quietAsync (k a)) → quietAsync (t ≫= k).
Proof.
  intros Ht Hk s H. unfold mbind, Async_bind. specialize (Ht s H).
  destruct (t s) as [s' [a|]]; cbn in *; [by apply Hk|done].
Qed.

Lemma quietAsync_await {A : Type} (env : Env) (k : nat) (t : Async A) :
  quietAsync t → quietAsync (await env k t).
Proof. intros Ht. unfold await. case_bool_decide; [by intros s Hs|done]. Qed.

Lemma quietAsync_act (f : Hook → Hook) : quiet f → quietAsync (act f).
Proof. intros Hf s H. by apply Hf. Qed.

Lemma quiet_onPc (r : nat) (f : PC → PC) : quiet (onPc r f).
Proof. by intros s H. Qed.

Lemma quiet_sendSignalingMessage (k : MsgKind) (to : string) (pl : Payload) :
  quiet (sendSignalingMessage k to pl).
Proof.
  intros s H. unfold sendSignalingMessage. by destruct (negb _ || negb _).
Qed.

Lemma quiet_tryCatch (body : Async unit) (handler : Hook → Hook) :
  quietAsync body → quiet handler → quiet (tryCatch body handler).
Proof.
  intros Hb Hh s H. unfold tryCatch. specialize (Hb s H).
  destruct (body s) as [s' [a|]]; cbn in *; [done|by apply Hh].
Qed.

Lemma quiet_initiateCall (env : Env) (p : string) : quiet (initiateCall env p).
Proof.
  intros s H. unfold initiateCall.
  destruct (negb _ || negb _ || negb _); [done|].
  case_bool_decide; [done|].
  destruct (from_option _ _ _); [done|].
  pose proof (quiet_createPeerConnection p true
                (updPendingOffers (λ q, q ∪ {[p]}) s) H) as Hc.
  destruct (createPeerConnection _ _ _) as [r s1]. cbn [snd] in Hc.
  apply quiet_tryCatch; [| |exact Hc].
  - apply quietAsync_bind; [apply quietAsync_await; by intros ? ?|].
    intros offer. apply quietAsync_bind.
    + apply quietAsync_await, quietAsync_act, quiet_onPc.
    + intros _. apply quietAsync_act, quiet_sendSignalingMessage.
  - intros s2 H2. by apply quiet_removePeerConnection.
Qed.

Lemma quiet_handleOffer (env : Env) (from : string) (offer : Sdp) :
  quiet (handleOffer env from offer).
Proof.
  intros s H. unfold handleOffer.
  destruct (negb _ || negb _); [done|].
  destruct (from_option _ _ _); [done|].
  destruct (_ && _); [done|].
  pose proof (quiet_createPeerConnection from false s H) as Hc.
  destruct (createPeerConnection _ _ _) as [r s1]. cbn [snd] in Hc.
  apply quiet_tryCatch; [| |done].
  - apply quietAsync_bind.
    { apply quietAsync_await, quietAsync_act, quiet_onPc. }
    intros _. apply quietAsync_bind; [apply quietAsync_await; by intros ? ?|].
    intros answer. apply quietAsync_bind.
    + apply quietAsync_await, quietAsync_act, quiet_onPc.
    + intros _. apply quietAsync_act, quiet_sendSignalingMessage.
  - apply quiet_removePeerConnection.
Qed.

Lemma quiet_handleAnswer (env : Env) (from : string) (answer : Sdp) :
  quiet (handleAnswer env from answer).
Proof.
  intros s H. unfold handleAnswer.
  destruct (awaitsAnswer s from) as [r|]; [|done].
  apply quiet_tryCatch; [| |done].
  - apply quietAsync_bind.
    { apply quietAsync_await, quietAsync_act, quiet_onPc. }
    intros _. apply quietAsync_act. by intros s1 H1.
  - apply quiet_removePeerConnection.
Qed.

Lemma quiet_handleSignalingMessage (env : Env) (msg : Message) :
  quiet (handleSignalingMessage env msg).
Proof.
  intros s H. unfold handleSignalingMessage. case_bool_decide; [done|].
  destruct msg.
  - by apply quiet_handleOffer.
  - by apply quiet_handleAnswer.
  - unfold handleIceCandidate. by destruct (hasRemoteDescription _ _).
  - done.
Qed.

Lemma quiet_pollSignalingMessages (msgs : list (Env * Message)) :
  quiet (pollSignalingMessages msgs).
Proof.
  intros s H. unfold pollSignalingMessages.
  destruct (negb _ || negb _); [done|].
  revert s H. induction msgs as [|m msgs IH]; intros s H; cbn; [done|].
  by apply IH, quiet_handleSignalingMessage.
Qed.

Lemma quiet_establishConnections (peerIds : list string) :
  quiet (establishConnections peerIds).
Proof.
  intros s H. unfold establishConnections.
  destruct (negb _ || negb _ || negb _ || _); [done|].
  generalize 0. revert s H.
  induction peerIds as [|p l IH]; intros s H index; cbn; [done|].
  apply IH. by case_bool_decide.
Qed.

Lemma quiet_connStateEvent (r : nat) (st : ConnState) :
  quiet (connStateEvent r st).
Proof.
  intros s H. unfold connStateEvent.
  destruct (heap s !! r) as [pc|]; [|done].
  destruct (_ || _); [done|]. unfold onconnectionstatechange.
  destruct (heap _ !! r) as [pc'|]; [|done].
  case_bool_decide; [|done].
  destruct (connectionState pc'); try done.
  - cbn. rewrite H. apply delete_empty.
  - by apply quiet_handleConnectionFailure.
Qed.

Lemma quiet_runCallback (env : Env) (cb : Callback) :
  quiet (runCallback env cb).
Proof.
  intros s H. destruct cb; cbn.
  - case_bool_decide; [|done]. by apply quiet_handleConnectionFailure.
  - destruct (_ && _); [|done]. by apply quiet_initiateCall.
  - destruct (from_option _ _ _); [done|]. by apply quiet_initiateCall.
Qed.

Lemma quiet_exec (e : Event) : quiet (exec e).
Proof.
  intros s H. destruct e; cbn [exec].
  - reflexivity.
  - by apply quiet_establishConnections.
  - by apply quiet_initiateCall.
  - by apply quiet_pollSignalingMessages.
  - by apply quiet_connStateEvent.
  - unfold iceStateEvent, oniceconnectionstatechange.
    destruct (heap s !! r) as [pc|]; [|done].
    case_bool_decide; [done|]. destruct ice; try done.
    by apply quiet_handleConnectionFailure.
  - unfold ontrack. destruct (heap s !! r), remoteStream; try done.
    by destruct (_ && _).
  - unfold onicecandidate. destruct (heap s !! r), candidate; try done.
    destruct (truthy _); [|done]. by apply quiet_sendSignalingMessage.
  - by destruct (0 <=? dt).
  - unfold fire. destruct (timers s !! i) as [t|]; [|done].
    destruct (due t <=? now s); [|done]. by apply quiet_runCallback.
  - reflexivity.
Qed.

Lemma attempts_always_empty (g p : option string) (s : Hook) :
  reachable g p s → connectionAttempts s = ∅.
Proof.
  intros [es ->].
  assert (H : ∀ s0, connectionAttempts s0 = ∅ →
                    connectionAttempts (run es s0) = ∅).
  { induction es as [|e es IH]; intros s0 H0; cbn; [done|].
    by apply IH, quiet_exec. }
  by apply H.
Qed.

(** So, in every state the hook can reach, the failure of a connection
    made as initiator schedules one more retry, 2000 ms from now: the
    number of retries has no bound and their wait does not grow. *)
Lemma every_failure_is_retried (g p : option string) (peerId : string)
    (s : Hook) :
  reachable g p s → isInitiator s !! peerId = Some true →
  timers (handleConnectionFailure peerId s)
  = timers s ++ [{| due := now s + 2000; callback := RetryCall peerId |}].
Proof.
  intros Hr Hi. apply handleConnectionFailure_retries; [|done].
  by rewrite (attempts_always_empty g p s Hr), lookup_empty.
Qed.

(* ===================================================================== *)
(* 13. Removal, cleanup and scheduling                                   *)
(* ===================================================================== *)

(** Two states with the same fields are the same state. *)
Lemma hook_ext (s1 s2 : Hook) :
  localStream s1 = localStream s2 → gameId s1 = gameId s2 →
  playerId s1 = playerId s2 → remoteStreams s1 = remoteStreams s2 →
  heap s1 = heap s2 → peerConnections s1 = peerConnections s2 →
  connectionAttempts s1 = connectionAttempts s2 →
  pendingOffers s1 = pendingOffers s2 → isInitiator s1 = isInitiator s2 →
  connectionStates s1 = connectionStates s2 →
  establishedConnections s1 = establishedConnections s2 →
  iceCandidateQueue s1 = iceCandidateQueue s2 → now s1 = now s2 →
  timers s1 = timers s2 → sent s1 = sent s2 → s1 = s2.
Proof. destruct s1, s2; cbn; intros; subst; reflexivity. Qed.

(** The fields of a state after [removePeerConnection]. *)
Lemma removePeerConnection_fields (p : string) (s : Hook) :
  let s' := removePeerConnection p s in
  localStream s' = localStream s ∧ gameId s' = gameId s
  ∧ playerId s' = playerId s
  ∧ remoteStreams s' = delete p (remoteStreams s)
  ∧ heap s' = from_option (λ r, alter pcClose r (heap s)) (heap s)
                (peerConnections s !! p)
  ∧ peerConnections s' = delete p (peerConnections s)
  ∧ connectionAttempts s' = delete p (connectionAttempts s)
  ∧ pendingOffers s' = pendingOffers s ∖ {[p]}
  ∧ isInitiator s' = delete p (isInitiator s)
  ∧ connectionStates s' = delete p (connectionStates s)
  ∧ establishedConnections s' = establishedConnections s ∖ {[p]}
  ∧ iceCandidateQueue s' = delete p (iceCandidateQueue s)
  ∧ now s' = now s ∧ timers s' = timers s ∧ sent s' = sent s.
Proof.
  unfold removePeerConnection.
  destruct (peerConnections s !! p) as [r|] eqn:E; cbn; repeat split.
  symmetry. by apply delete_id.
Qed.

Lemma entriesOf_removed (p : string) (s : Hook) :
  entriesOf (removePeerConnection p s) p = noEntries.
Proof.
  unfold removePeerConnection, entriesOf, connectionOf, noEntries.
  assert (Hset : ∀ e : gset string, bool_decide (p ∈ e ∖ {[p]}) = false).
  { intros e. apply bool_decide_eq_false_2.
    rewrite elem_of_difference, elem_of_singleton. tauto. }
  destruct (peerConnections s !! p) as [r|] eqn:E; cbn;
    rewrite ?lookup_delete_eq, ?Hset, ?E; reflexivity.
Qed.

Lemma removePeerConnection_twice (p : string) (s : Hook) :
  removePeerConnection p (removePeerConnection p s) = removePeerConnection p s.
Proof.
  assert (Hset : ∀ e : gset string, (e ∖ {[p]}) ∖ {[p]} = e ∖ {[p]}).
  { intros e. apply set_eq. intros x.
    rewrite !elem_of_difference, elem_of_singleton. tauto. }
  pose proof (removePeerConnection_fields p (removePeerConnection p s)) as H2.
  pose proof (removePeerConnection_fields p s) as H1.
  cbv zeta in H1, H2. set (s1 := removePeerConnection p s) in *.
  destruct H1 as (A1&A2&A3&A4&A5&A6&A7&A8&A9&A10&A11&A12&A13&A14&A15).
  destruct H2 as (B1&B2&B3&B4&B5&B6&B7&B8&B9&B10&B11&B12&B13&B14&B15).
  apply hook_ext; try congruence.
  all: rewrite ?B4, ?B5, ?B6, ?B7, ?B8, ?B9, ?B10, ?B11, ?B12.
  all: rewrite ?A4, ?A6, ?A7, ?A8, ?A9, ?A10, ?A11, ?A12.
  all: by rewrite ?delete_delete_eq, ?lookup_delete_eq, ?Hset.
Qed.

(** X1. [removePeerConnection] releases everything the hook keeps under
    the peer: no map entry, counter, flag, role, recorded state, queue or
    remote stream is left, the connection object the map held is closed,
    and every other connection object is as it was. Removing twice is
    the same as removing once. *)
Theorem removePeerConnection_releases (p : string) (s : Hook) :
  entriesOf (removePeerConnection p s) p = noEntries
  ∧ (∀ r pc, peerConnections s !! p = Some r → heap s !! r = Some pc →
             heap (removePeerConnection p s) !! r = Some (pcClose pc))
  ∧ (∀ r, peerConnections s !! p ≠ Some r →
          heap (removePeerConnection p s) !! r = heap s !! r)
  ∧ removePeerConnection p (removePeerConnection p s)
    = removePeerConnection p s.
Proof.
  split; [apply entriesOf_removed|]. split; [|split].
  - intros r pc Hr Hpc. unfold removePeerConnection. rewrite Hr. cbn.
    by rewrite list_lookup_alter_eq, Hpc.
  - intros r Hr. unfold removePeerConnection.
    destruct (peerConnections s !! p) as [r0|]; cbn; [|done].
    rewrite list_lookup_alter_ne; [done|]. congruence.
  - apply removePeerConnection_twice.
Qed.

Lemma cleanup_fields (s : Hook) :
  peerConnections (cleanup s) = ∅ ∧ connectionAttempts (cleanup s) = ∅
  ∧ pendingOffers (cleanup s) = ∅ ∧ isInitiator (cleanup s) = ∅
  ∧ connectionStates (cleanup s) = ∅ ∧ establishedConnections (cleanup s) = ∅
  ∧ iceCandidateQueue (cleanup s) = ∅
  ∧ timers (cleanup s) = timers s ∧ remoteStreams (cleanup s) = remoteStreams s
  ∧ sent (cleanup s) = sent s.
Proof. repeat split. Qed.

Lemma cleanup_closes (s : Hook) :
  wellFormed s →
  (∀ r pc, heap (cleanup s) !! r = Some pc → connectionState pc = CClosed)
  ∧ length (heap (cleanup s)) = length (heap s).
Proof.
  intros H. pose proof (keeps_cleanup s H) as [Hl _].
  destruct (cleanup_fields s) as (E1&_).
  split.
  - intros r pc Hpc.
    destruct (decide (connectionState pc = CClosed)) as [|Hlive]; [done|].
    specialize (Hl r pc Hpc Hlive). rewrite E1, lookup_empty in Hl. done.
  - unfold cleanup. cbn [heap updQueue updEstablished updConnectionStates
      updIsInitiator updPendingOffers updConnectionAttempts
      updPeerConnections updHeap].
    induction (map_to_list (peerConnections s)) as [|e l IH]; cbn; [done|].
    by rewrite length_alter.
Qed.

Lemma cleanup_frame (s : Hook) :
  localStream (cleanup s) = localStream s ∧ gameId (cleanup s) = gameId s
  ∧ playerId (cleanup s) = playerId s ∧ now (cleanup s) = now s.
Proof. repeat split. Qed.

Lemma scheduleCalls_plan (peerIds : list string) (index : Z) (s : Hook) :
  scheduleCalls index peerIds s
  = updTimers (λ ts, ts ++ callPlan (establishedConnections s) (now s)
                              index peerIds) s.
Proof.
  revert index s. induction peerIds as [|p l IH]; intros index s; cbn.
  - unfold updTimers. destruct s; cbn. by rewrite app_nil_r.
  - case_bool_decide; rewrite IH; [done|].
    unfold setTimeout, updTimers. cbn. by rewrite <- app_assoc.
Qed.

Lemma callPlan_targets (est : gset string) (t0 index : Z)
    (peerIds : list string) (t : Timer) :
  t ∈ callPlan est t0 index peerIds →
  ∃ (k : nat) (peerId : string),
    peerIds !! k = Some peerId ∧ (peerId ∉ est)
    ∧ t = {| due := t0 + (index + Z.of_nat k) * 1500;
             callback := EstablishCall peerId |}.
Proof.
  revert index. induction peerIds as [|p l IH]; intros index; cbn.
  - intros H. by apply elem_of_nil in H.
  - rewrite elem_of_app. intros [H|H].
    + case_bool_decide; [by apply elem_of_nil in H|].
      apply list_elem_of_singleton in H as ->.
      exists 0%nat, p. repeat split; try done. cbn. by rewrite Z.add_0_r.
    + destruct (IH _ H) as (k&q&Hk&Hq&->). exists (S k), q.
      repeat split; try done. do 2 f_equal. lia.
Qed.

Lemma callPlan_covers (est : gset string) (t0 index : Z)
    (peerIds : list string) (k : nat) (peerId : string) :
  peerIds !! k = Some peerId → peerId ∉ est →
  {| due := t0 + (index + Z.of_nat k) * 1500;
     callback := EstablishCall peerId |} ∈ callPlan est t0 index peerIds.
Proof.
  revert index k. induction peerIds as [|p l IH]; intros index k; [done|].
  destruct k as [|k]; cbn [callPlan lookup list_lookup].
  - intros [= ->] Hn. rewrite bool_decide_eq_false_2 by done.
    cbn [Z.of_nat]. rewrite Z.add_0_r. apply elem_of_app. left.
    by apply list_elem_of_singleton.
  - intros Hk Hn. apply elem_of_app. right.
    replace (index + Z.of_nat (S k)) with (index + 1 + Z.of_nat k) by lia.
    by apply IH.
Qed.

(** X3. [establishConnections], when local media and both ids are there
    and the list is not empty, changes nothing but the pending timers, to
    which it appends, in the order of the list, one call timer per peer
    that is not in the established set: the peer at position [k] of the
    list is called [1500 * k] ms from now, a skipped peer keeping its
    position, and no timer is set for an established peer. *)
Theorem establishConnections_staggers (peerIds : list string) (s : Hook) :
  is_Some (localStream s) → truthy (gameId s) = true →
  truthy (playerId s) = true → peerIds ≠ [] →
  let plan := callPlan (establishedConnections s) (now s) 0 peerIds in
  establishConnections peerIds s = updTimers (λ ts, ts ++ plan) s
  ∧ (∀ t, t ∈ plan ↔
          ∃ (k : nat) (peerId : string),
            peerIds !! k = Some peerId
            ∧ (peerId ∉ establishedConnections s)
            ∧ t = {| due := now s + Z.of_nat k * 1500;
                     callback := EstablishCall peerId |})
  ∧ (length plan ≤ length peerIds)%nat.
Proof.
  intros [st Hst] Hg Hp Hne plan. split; [|split].
  - unfold establishConnections. rewrite Hst, Hg, Hp.
    rewrite (bool_decide_eq_false_2 _ Hne).
    replace (bool_decide (is_Some (Some st))) with true
      by (symmetry; apply bool_decide_eq_true; eauto).
    cbn [negb orb]. apply scheduleCalls_plan.
  - intros t. split.
    + intros H. destruct (callPlan_targets _ _ _ _ _ H) as (k&q&Hk&Hq&->).
      exists k, q. by rewrite Z.add_0_l.
    + intros (k&q&Hk&Hq&->).
      pose proof (callPlan_covers (establishedConnections s) (now s) 0
                    peerIds k q Hk Hq) as H.
      by rewrite Z.add_0_l in H.
  - subst plan. generalize 0. induction peerIds as [|q l IH]; intros index;
      cbn; [done|].
    rewrite length_app.
    assert (l ≠ [] ∨ l = []) as [Hl| ->] by (destruct l; eauto).
    + specialize (IH Hl (index + 1)). case_bool_decide; cbn; lia.
    + case_bool_decide; cbn; lia.
Qed.

Lemma aliceReady_facts :
  is_Some (localStream aliceConnected)
  ∧ truthy (gameId aliceConnected) = true
  ∧ truthy (playerId aliceConnected) = true.
Proof. repeat split; by vm_compute; eauto. Qed.

Lemma establishConnections_staggers_witness :
  is_Some (localStream aliceConnected)
  ∧ truthy (gameId aliceConnected) = true
  ∧ truthy (playerId aliceConnected) = true
  ∧ ["bob"; "carol"] ≠ []
  ∧ establishConnections ["bob"; "carol"] aliceConnected
    = updTimers (λ ts, ts ++ callPlan (establishedConnections aliceConnected)
                               (now aliceConnected) 0 ["bob"; "carol"])
        aliceConnected.
Proof.
  destruct aliceReady_facts as (H1&H2&H3).
  assert (H4 : ["bob"; "carol"] ≠ []) by discriminate.
  split; [exact H1|]. split; [exact H2|]. split; [exact H3|].
  split; [exact H4|].
  exact (proj1 (establishConnections_staggers ["bob"; "carol"] aliceConnected
                  H1 H2 H3 H4)).
Defined.

(* ===================================================================== *)
(* 14. What a handler run leaves behind                                  *)
(* ===================================================================== *)

Lemma closeExisting_fields (p : string) (s : Hook) :
  let s' := closeExisting p s in
  localStream s' = localStream s ∧ gameId s' = gameId s
  ∧ playerId s' = playerId s ∧ remoteStreams s' = remoteStreams s
  ∧ peerConnections s' = peerConnections s
  ∧ connectionAttempts s' = connectionAttempts s
  ∧ pendingOffers s' = pendingOffers s ∧ isInitiator s' = isInitiator s
  ∧ connectionStates s' = connectionStates s
  ∧ establishedConnections s' = establishedConnections s
  ∧ iceCandidateQueue s' = iceCandidateQueue s ∧ now s' = now s
  ∧ timers s' = timers s ∧ sent s' = sent s.
Proof.
  unfold closeExisting. destruct (peerConnections s !! p); repeat split.
Qed.

Lemma applied_pcLog_ice (c : Candidate) (pc : PC) :
  applied (pcLog (OpAddIce c) pc) = applied pc ++ [c].
Proof. unfold applied. cbn. by rewrite omap_app. Qed.

Lemma applied_addAll (q : list Candidate) (pc : PC) :
  applied (fold_left (λ pc c, pcLog (OpAddIce c) pc) q pc) = applied pc ++ q.
Proof.
  revert pc. induction q as [|c q IH]; intros pc; cbn;
    [by rewrite app_nil_r|].
  by rewrite IH, applied_pcLog_ice, <- app_assoc.
Qed.

(** The queue of a peer after [openPeerConnection], and what the new
    object was handed. *)
Lemma openPeerConnection_queue (p : string) (i : bool) (s : Hook) :
  let s' := (openPeerConnection p i s).2 in
  applied <$> heap s' !! length (heap s)
  = Some (default [] (iceCandidateQueue s !! p))
  ∧ default [] (iceCandidateQueue s' !! p) = []
  ∧ ∀ y, y ≠ p → iceCandidateQueue s' !! y = iceCandidateQueue s !! y.
Proof.
  unfold openPeerConnection. cbn.
  destruct (iceCandidateQueue s !! p) as [[|c q]|] eqn:E; cbn.
  - rewrite E. split; [|done].
    rewrite list_lookup_middle by done. by destruct (localStream s).
  - rewrite lookup_delete_eq. split; [|split; [done|]].
    + rewrite list_lookup_alter_eq, list_lookup_middle by done. cbn.
      rewrite applied_addAll, applied_pcLog_ice.
      by destruct (localStream s).
    + intros y Hy. by rewrite lookup_delete_ne.
  - rewrite E. split; [|done].
    rewrite list_lookup_middle by done. by destruct (localStream s).
Qed.

(** [createPeerConnection] past its guard, field by field. *)
Lemma createPeerConnection_fields (p : string) (i : bool) (s : Hook) :
  hasWorking s p = false →
  let r := (createPeerConnection p i s).1 in
  let s' := (createPeerConnection p i s).2 in
  r = length (heap s)
  ∧ localStream s' = localStream s ∧ gameId s' = gameId s
  ∧ playerId s' = playerId s ∧ sent s' = sent s ∧ timers s' = timers s
  ∧ now s' = now s ∧ pendingOffers s' = pendingOffers s
  ∧ connectionAttempts s' = connectionAttempts s
  ∧ establishedConnections s' = establishedConnections s
  ∧ remoteStreams s' = remoteStreams s
  ∧ peerConnections s' = <[p := r]> (peerConnections s)
  ∧ isInitiator s' = <[p := i]> (isInitiator s)
  ∧ connectionStates s' = <[p := CNew]> (connectionStates s)
  ∧ (∃ pc, heap s' !! r = Some pc ∧ pcPeer pc = p
           ∧ connectionState pc = CNew ∧ signalingState pc = SStable
           ∧ remoteDescription pc = None
           ∧ applied pc = default [] (iceCandidateQueue s !! p))
  ∧ default [] (iceCandidateQueue s' !! p) = []
  ∧ (∀ y, y ≠ p → iceCandidateQueue s' !! y = iceCandidateQueue s !! y).
Proof.
  intros Hw. rewrite createPeerConnection_fresh by done. cbv zeta.
  pose proof (openPeerConnection_frame p i (closeExisting p s)) as Hf.
  pose proof (openPeerConnection_queue p i (closeExisting p s)) as Hq.
  destruct (openPeerConnection_new p i (closeExisting p s))
    as (pc&Hpc&N1&N2&N3&N4).
  destruct (closeExisting_fields p s)
    as (C1&C2&C3&C4&C5&C6&C7&C8&C9&C10&C11&C12&C13&C14).
  cbv zeta in Hf, Hq.
  destruct Hf as (F1&F2&F3&F4&F5&F6&F7&F8&F9&F10&F11&F12&F13&_).
  destruct Hq as (Q1&Q2&Q3).
  rewrite openPeerConnection_ref. rewrite closeExisting_length in *.
  rewrite C11 in Q1, Q3.
  repeat split; try congruence.
  - exists pc. repeat split; try done.
    rewrite Hpc in Q1. cbn in Q1. congruence.
  - intros y Hy. by apply Q3.
Qed.

Lemma call_block_throws0 (n r : nat) (peerId : string) (h : Hook → Hook)
    (s : Hook) :
  tryCatch
    (offer ← await (throwsAt 0 n) 0 (createOffer (throwsAt 0 n) r);
     await (throwsAt 0 n) 1 (act (onPc r (pcSetLocal offer)));;
     act (sendSignalingMessage KOffer peerId (PDesc offer))) h s
  = h s.
Proof. reflexivity. Qed.

Lemma call_block_throws1 (n r : nat) (peerId : string) (h : Hook → Hook)
    (s : Hook) :
  tryCatch
    (offer ← await (throwsAt 1 n) 0 (createOffer (throwsAt 1 n) r);
     await (throwsAt 1 n) 1 (act (onPc r (pcSetLocal offer)));;
     act (sendSignalingMessage KOffer peerId (PDesc offer))) h s
  = h (onPc r (pcLog OpCreateOffer) s).
Proof. reflexivity. Qed.

Lemma initiateCall_pending (env : Env) (p : string) (s : Hook) :
  p ∈ pendingOffers s → initiateCall env p s = s.
Proof.
  intros H. unfold initiateCall. destruct (negb _ || negb _ || negb _); [done|].
  by rewrite bool_decide_eq_true_2.
Qed.

(** [initiateCall] past its guards. *)
Lemma initiateCall_unfold (env : Env) (p : string) (s : Hook) :
  is_Some (localStream s) → truthy (gameId s) = true →
  truthy (playerId s) = true → p ∉ pendingOffers s →
  hasWorking s p = false →
  initiateCall env p s
  = let s1 := updPendingOffers (λ q, q ∪ {[p]}) s in
    let r := (createPeerConnection p true s1).1 in
    let s2 := (createPeerConnection p true s1).2 in
    tryCatch
      (offer ← await env 0 (createOffer env r);
       await env 1 (act (onPc r (pcSetLocal offer)));;
       act (sendSignalingMessage KOffer p (PDesc offer)))
      (λ s, removePeerConnection p
              (updPendingOffers (λ q, q ∖ {[p]}) s))
      s2.
Proof.
  intros [st Hst] Hg Hp Hpend Hw. unfold initiateCall.
  rewrite Hst, Hg, Hp.
  replace (bool_decide (is_Some (Some st))) with true
    by (symmetry; apply bool_decide_eq_true; eauto).
  cbn [negb orb]. rewrite (bool_decide_eq_false_2 _ Hpend).
  fold (hasWorking s p). rewrite Hw. cbv zeta.
  by destruct (createPeerConnection p true _).
Qed.

(** X4. [initiateCall] for a peer with no pending offer and no connected
    or connecting connection, all browser calls succeeding: exactly one
    offer is posted, to that peer and in the hook's own name; the peer has
    a pending offer and the role Initiator; its map entry is a fresh
    connection in 'have-local-offer' with no remote description, which
    was handed whatever candidates were queued for the peer; and calling
    [initiateCall] again for that peer changes nothing, whatever the
    browser would do. *)
Theorem initiateCall_posts_one_offer (n : nat) (p : string) (s : Hook) :
  is_Some (localStream s) → truthy (gameId s) = true →
  truthy (playerId s) = true → p ∉ pendingOffers s →
  hasWorking s p = false →
  let s' := initiateCall (allOk n) p s in
  sent s' = sent s ++ [offerPost s p n]
  ∧ p ∈ pendingOffers s'
  ∧ roleOf s' p = Some Initiator
  ∧ peerConnections s' !! p = Some (length (heap s))
  ∧ (∃ pc, heap s' !! length (heap s) = Some pc
           ∧ connectionState pc = CNew
           ∧ signalingState pc = SHaveLocalOffer
           ∧ remoteDescription pc = None
           ∧ applied pc = default [] (iceCandidateQueue s !! p))
  ∧ timers s' = timers s
  ∧ ∀ env, initiateCall env p s' = s'.
Proof.
  intros Hst Hg Hp Hpend Hw s'.
  assert (Hpend' : p ∈ pendingOffers s' → ∀ env, initiateCall env p s' = s').
  { intros H env. by apply initiateCall_pending. }
  revert Hpend'. subst s'. rewrite initiateCall_unfold by done. cbv zeta.
  set (s1 := updPendingOffers (λ q, q ∪ {[p]}) s).
  assert (Hw1 : hasWorking s1 p = false) by exact Hw.
  destruct (createPeerConnection_fields p true s1 Hw1)
    as (Er&F1&F2&F3&F4&F5&F6&F7&F8&F9&F10&F11&F12&F13&(pc&Hpc&N1&N2&N3&N4&N5)&_).
  cbv zeta in *.
  set (r := (createPeerConnection p true s1).1) in *.
  set (s2 := (createPeerConnection p true s1).2) in *.
  rewrite call_block_ok. cbv zeta. unfold sendSignalingMessage.
  cbn [gameId playerId onPc updHeap]. rewrite F2, F3.
  change (gameId s1) with (gameId s). change (playerId s1) with (playerId s).
  rewrite Hg, Hp. cbn [negb orb]. intros Hdup.
  assert (Hin : p ∈ pendingOffers s2).
  { rewrite F7. unfold s1. cbn. apply elem_of_union_r.
    by apply elem_of_singleton. }
  change (length (heap s1)) with (length (heap s)) in Er.
  rewrite <- Er.
  split; [cbn; by rewrite F4|]. split; [exact Hin|].
  split; [unfold roleOf; cbn; by rewrite F12, lookup_insert_eq|].
  split; [cbn; by rewrite F11, lookup_insert_eq|].
  split; [|split; [cbn; by rewrite F5|by apply Hdup]].
  eexists. split.
  { cbn. by rewrite !list_lookup_alter_eq, Hpc. }
  cbn [connectionState signalingState remoteDescription pcSetLocal pcLog
       sdpType].
  rewrite N2, N4. repeat split.
  unfold applied in *. cbn [ops pcSetLocal pcLog].
  rewrite !omap_app. cbn [omap list_omap]. rewrite !app_nil_r. exact N5.
Qed.

Lemma initiateCall_posts_one_offer_witness :
  is_Some (localStream aliceCallsBob)
  ∧ truthy (gameId aliceCallsBob) = true
  ∧ truthy (playerId aliceCallsBob) = true
  ∧ ("carol" ∉ pendingOffers aliceCallsBob)
  ∧ hasWorking aliceCallsBob "carol" = false
  ∧ sent (initiateCall (allOk 2) "carol" aliceCallsBob)
    = sent aliceCallsBob ++ [offerPost aliceCallsBob "carol" 2].
Proof.
  assert (H1 : is_Some (localStream aliceCallsBob)) by (by vm_compute; eauto).
  assert (H2 : truthy (gameId aliceCallsBob) = true) by (by vm_compute).
  assert (H3 : truthy (playerId aliceCallsBob) = true) by (by vm_compute).
  assert (H4 : "carol" ∉ pendingOffers aliceCallsBob).
  { apply (bool_decide_unpack _). by vm_compute. }
  assert (H5 : hasWorking aliceCallsBob "carol" = false) by (by vm_compute).
  split; [exact H1|]. split; [exact H2|]. split; [exact H3|].
  split; [exact H4|]. split; [exact H5|].
  exact (proj1 (initiateCall_posts_one_offer 2 "carol" aliceCallsBob
                  H1 H2 H3 H4 H5)).
Defined.

(** What is left of a peer whose new connection is removed again:
    nothing under its key, the new object closed. *)
Lemma removed_after_create (p : string) (i : bool) (s sx : Hook) (f : PC → PC) :
  hasWorking s p = false →
  peerConnections sx = peerConnections (createPeerConnection p i s).2 →
  heap sx = alter f (length (heap s)) (heap (createPeerConnection p i s).2) →
  sent sx = sent s → timers sx = timers s →
  let s' := removePeerConnection p sx in
  sent s' = sent s ∧ timers s' = timers s
  ∧ entriesOf s' p = noEntries
  ∧ connectionState <$> heap s' !! length (heap s) = Some CClosed.
Proof.
  intros Hw Hm Hh Hs Ht s'.
  destruct (removePeerConnection_fields p sx)
    as (_&_&_&_&A5&_&_&_&_&_&_&_&_&A14&A15).
  destruct (createPeerConnection_fields p i s Hw)
    as (Er&_&_&_&_&_&_&_&_&_&_&F11&_&_&(pc&Hpc&_)&_).
  cbv zeta in *. fold s' in A5, A14, A15.
  split; [congruence|]. split; [congruence|].
  split; [apply entriesOf_removed|].
  rewrite A5, Hm, F11, lookup_insert_eq, Er. cbn.
  rewrite list_lookup_alter_eq, Hh, list_lookup_alter_eq.
  rewrite Er in Hpc. by rewrite Hpc.
Qed.

(** X5. [initiateCall] when [createOffer] or [setLocalDescription]
    throws: no offer is posted and no timer is set; nothing is kept under
    the peer (no map entry, no pending offer, no role, no queue) and the
    connection object just created is closed. No retry is scheduled. *)
Theorem initiateCall_rolls_back (k n : nat) (p : string) (s : Hook) :
  is_Some (localStream s) → truthy (gameId s) = true →
  truthy (playerId s) = true → p ∉ pendingOffers s →
  hasWorking s p = false → (k < 2)%nat →
  let s' := initiateCall (throwsAt k n) p s in
  sent s' = sent s ∧ timers s' = timers s
  ∧ entriesOf s' p = noEntries
  ∧ connectionState <$> heap s' !! length (heap s) = Some CClosed.
Proof.
  intros Hst Hg Hp Hpend Hw Hk. cbv zeta.
  rewrite initiateCall_unfold by done. cbv zeta.
  set (s1 := updPendingOffers (λ q, q ∪ {[p]}) s).
  assert (Hw1 : hasWorking s1 p = false) by exact Hw.
  destruct (createPeerConnection_fields p true s1 Hw1)
    as (Er&_&_&_&F4&F5&_). cbv zeta in *.
  change (length (heap s1)) with (length (heap s)) in Er.
  destruct k as [|[|k]]; [| |lia].
  - rewrite call_block_throws0.
    apply (removed_after_create p true s1 _ id); try done.
    symmetry. by apply list_alter_id.
  - rewrite call_block_throws1.
    apply (removed_after_create p true s1 _ (pcLog OpCreateOffer));
      try done.
    cbn. by rewrite Er.
Qed.

Lemma initiateCall_rolls_back_witness :
  is_Some (localStream aliceCallsBob)
  ∧ truthy (gameId aliceCallsBob) = true
  ∧ truthy (playerId aliceCallsBob) = true
  ∧ ("carol" ∉ pendingOffers aliceCallsBob)
  ∧ hasWorking aliceCallsBob "carol" = false ∧ (1 < 2)%nat
  ∧ sent (initiateCall (throwsAt 1 2) "carol" aliceCallsBob)
    = sent aliceCallsBob.
Proof.
  assert (H1 : is_Some (localStream aliceCallsBob)) by (by vm_compute; eauto).
  assert (H2 : truthy (gameId aliceCallsBob) = true) by (by vm_compute).
  assert (H3 : truthy (playerId aliceCallsBob) = true) by (by vm_compute).
  assert (H4 : "carol" ∉ pendingOffers aliceCallsBob).
  { apply (bool_decide_unpack _). by vm_compute. }
  assert (H5 : hasWorking aliceCallsBob "carol" = false) by (by vm_compute).
  assert (H6 : (1 < 2)%nat) by lia.
  split; [exact H1|]. split; [exact H2|]. split; [exact H3|].
  split; [exact H4|]. split; [exact H5|]. split; [exact H6|].
  exact (proj1 (initiateCall_rolls_back 1 2 "carol" aliceCallsBob
                  H1 H2 H3 H4 H5 H6)).
Defined.

Lemma offer_block_throws0 (n r : nat) (from : string) (offer : Sdp)
    (h : Hook → Hook) (s : Hook) :
  tryCatch
    (await (throwsAt 0 n) 0 (act (onPc r (pcSetRemote offer)));;
     answer ← await (throwsAt 0 n) 1 (createAnswer (throwsAt 0 n) r);
     await (throwsAt 0 n) 2 (act (onPc r (pcSetLocal answer)));;
     act (sendSignalingMessage KAnswer from (PDesc answer))) h s
  = h s.
Proof. reflexivity. Qed.

Lemma offer_block_throws1 (n r : nat) (from : string) (offer : Sdp)
    (h : Hook → Hook) (s : Hook) :
  tryCatch
    (await (throwsAt 1 n) 0 (act (onPc r (pcSetRemote offer)));;
     answer ← await (throwsAt 1 n) 1 (createAnswer (throwsAt 1 n) r);
     await (throwsAt 1 n) 2 (act (onPc r (pcSetLocal answer)));;
     act (sendSignalingMessage KAnswer from (PDesc answer))) h s
  = h (onPc r (pcSetRemote offer) s).
Proof. reflexivity. Qed.

Lemma offer_block_throws2 (n r : nat) (from : string) (offer : Sdp)
    (h : Hook → Hook) (s : Hook) :
  tryCatch
    (await (throwsAt 2 n) 0 (act (onPc r (pcSetRemote offer)));;
     answer ← await (throwsAt 2 n) 1 (createAnswer (throwsAt 2 n) r);
     await (throwsAt 2 n) 2 (act (onPc r (pcSetLocal answer)));;
     act (sendSignalingMessage KAnswer from (PDesc answer))) h s
  = h (onPc r (pcLog OpCreateAnswer) (onPc r (pcSetRemote offer) s)).
Proof. reflexivity. Qed.

(** [handleOffer] past its guards. *)
Lemma handleOffer_unfold (env : Env) (from : string) (offer : Sdp) (s : Hook) :
  is_Some (localStream s) → truthy (gameId s) = true →
  hasWorking s from = false →
  (bool_decide (from ∈ pendingOffers s) && idLess (playerId s) from) = false →
  handleOffer env from offer s
  = let r := (createPeerConnection from false s).1 in
    let s1 := (createPeerConnection from false s).2 in
    tryCatch
      (await env 0 (act (onPc r (pcSetRemote offer)));;
       answer ← await env 1 (createAnswer env r);
       await env 2 (act (onPc r (pcSetLocal answer)));;
       act (sendSignalingMessage KAnswer from (PDesc answer)))
      (removePeerConnection from)
      s1.
Proof.
  intros [st Hst] Hg Hw Hgl. unfold handleOffer. rewrite Hst, Hg.
  replace (bool_decide (is_Some (Some st))) with true
    by (symmetry; apply bool_decide_eq_true; eauto).
  cbn [negb orb]. fold (hasWorking s from). rewrite Hw, Hgl. cbv zeta.
  by destruct (createPeerConnection from false s).
Qed.

(** X6. [handleOffer] when [setRemoteDescription], [createAnswer] or
    [setLocalDescription] throws on an offer that passed the guards: no
    answer is posted and no timer is set; nothing is kept under the
    sender, including a pending offer of one's own toward it, and the
    connection object just created is closed. *)
Theorem handleOffer_rolls_back (k n : nat) (from : string) (offer : Sdp)
    (s : Hook) :
  is_Some (localStream s) → truthy (gameId s) = true →
  hasWorking s from = false →
  (bool_decide (from ∈ pendingOffers s) && idLess (playerId s) from) = false →
  (k < 3)%nat →
  let s' := handleOffer (throwsAt k n) from offer s in
  sent s' = sent s ∧ timers s' = timers s
  ∧ entriesOf s' from = noEntries
  ∧ connectionState <$> heap s' !! length (heap s) = Some CClosed.
Proof.
  intros Hst Hg Hw Hgl Hk. cbv zeta.
  rewrite handleOffer_unfold by done. cbv zeta.
  destruct (createPeerConnection_fields from false s Hw)
    as (Er&_&_&_&F4&F5&_). cbv zeta in *.
  destruct k as [|[|[|k]]]; [| | |lia].
  - rewrite offer_block_throws0.
    apply (removed_after_create from false s _ id); try done.
    symmetry. by apply list_alter_id.
  - rewrite offer_block_throws1.
    apply (removed_after_create from false s _ (pcSetRemote offer)); try done.
    cbn. by rewrite Er.
  - rewrite offer_block_throws2.
    apply (removed_after_create from false s _
             (pcLog OpCreateAnswer ∘ pcSetRemote offer)); try done.
    cbn. by rewrite Er, list_alter_alter_eq.
Qed.

Lemma handleOffer_rolls_back_witness :
  let offer := {| sdpType := SdpOffer; sdpBody := 1 |} in
  is_Some (localStream bobCallsAlice)
  ∧ truthy (gameId bobCallsAlice) = true
  ∧ hasWorking bobCallsAlice "alice" = false
  ∧ (bool_decide ("alice" ∈ pendingOffers bobCallsAlice)
     && idLess (playerId bobCallsAlice) "alice") = false
  ∧ (0 < 3)%nat
  ∧ entriesOf (handleOffer (throwsAt 0 4) "alice" offer bobCallsAlice) "alice"
    = noEntries.
Proof.
  cbv zeta.
  assert (H1 : is_Some (localStream bobCallsAlice)) by (by vm_compute; eauto).
  assert (H2 : truthy (gameId bobCallsAlice) = true) by (by vm_compute).
  assert (H3 : hasWorking bobCallsAlice "alice" = false) by (by vm_compute).
  assert (H4 : (bool_decide ("alice" ∈ pendingOffers bobCallsAlice)
                && idLess (playerId bobCallsAlice) "alice") = false)
    by (by vm_compute).
  assert (H5 : (0 < 3)%nat) by lia.
  split; [exact H1|]. split; [exact H2|]. split; [exact H3|].
  split; [exact H4|]. split; [exact H5|].
  exact (proj1 (proj2 (proj2 (handleOffer_rolls_back 0 4 "alice"
           {| sdpType := SdpOffer; sdpBody := 1 |} bobCallsAlice
           H1 H2 H3 H4 H5)))).
Defined.

Lemma answer_block_throws0 (n r : nat) (from : string) (answer : Sdp)
    (h : Hook → Hook) (s : Hook) :
  tryCatch
    (await (throwsAt 0 n) 0 (act (onPc r (pcSetRemote answer)));;
     act (updPendingOffers (λ p, p ∖ {[from]}))) h s
  = h s.
Proof. reflexivity. Qed.

Lemma awaitsAnswer_Some (from : string) (r : nat) (pc : PC) (s : Hook) :
  peerConnections s !! from = Some r → heap s !! r = Some pc →
  awaitsAnswer s from
  = if bool_decide (signalingState pc = SHaveLocalOffer) then Some r else None.
Proof. intros Hr Hpc. unfold awaitsAnswer. rewrite Hr. cbn. by rewrite Hpc. Qed.

(** X7. An answer for a connection in 'have-local-offer': when
    [setRemoteDescription] succeeds the connection gets the answer as its
    remote description, the pending offer is cleared, nothing is posted,
    no timer is set and the candidate queue is left alone; any further
    answer from that peer is then ignored. When [setRemoteDescription]
    throws, the connection is removed as by [removePeerConnection], with
    no retry. *)
Theorem handleAnswer_applies_once (n : nat) (env : Env) (from : string)
    (answer again : Sdp) (r : nat) (pc : PC) (s : Hook) :
  peerConnections s !! from = Some r → heap s !! r = Some pc →
  signalingState pc = SHaveLocalOffer →
  let s' := handleAnswer (allOk n) from answer s in
  connectionOf s' from = Some (pcSetRemote answer pc)
  ∧ (from ∉ pendingOffers s')
  ∧ sent s' = sent s ∧ timers s' = timers s
  ∧ iceCandidateQueue s' = iceCandidateQueue s
  ∧ handleAnswer env from again s' = s'
  ∧ handleAnswer (throwsAt 0 n) from answer s = removePeerConnection from s.
Proof.
  intros Hr Hpc Hsig s'.
  assert (E : s' = updPendingOffers (λ p, p ∖ {[from]})
                     (onPc r (pcSetRemote answer) s)).
  { subst s'. unfold handleAnswer.
    rewrite (awaitsAnswer_Some from r pc s Hr Hpc).
    rewrite bool_decide_eq_true_2 by done. apply answer_block_ok. }
  assert (Hc : connectionOf s' from = Some (pcSetRemote answer pc)).
  { rewrite E. unfold connectionOf. cbn. rewrite Hr. cbn.
    by rewrite list_lookup_alter_eq, Hpc. }
  split; [exact Hc|]. split; [|split; [|split; [|split; [|split]]]].
  - rewrite E. cbn. rewrite elem_of_difference, elem_of_singleton. tauto.
  - by rewrite E.
  - by rewrite E.
  - by rewrite E.
  - apply handleAnswer_stale. intros pc' Hpc'. rewrite Hc in Hpc'.
    injection Hpc' as <-. cbn. by destruct (sdpType answer).
  - unfold handleAnswer.
    rewrite (awaitsAnswer_Some from r pc s Hr Hpc).
    rewrite bool_decide_eq_true_2 by done. apply answer_block_throws0.
Qed.

Lemma handleAnswer_applies_once_witness :
  let answer := {| sdpType := SdpAnswer; sdpBody := 3 |} in
  (∃ pc, peerConnections aliceCallsBob !! "bob" = Some 0%nat
         ∧ heap aliceCallsBob !! 0%nat = Some pc
         ∧ signalingState pc = SHaveLocalOffer)
  ∧ handleAnswer (allOk 0) "bob" answer
      (handleAnswer (allOk 0) "bob" answer aliceCallsBob)
    = handleAnswer (allOk 0) "bob" answer aliceCallsBob.
Proof.
  cbv zeta.
  assert (H : ∃ pc, peerConnections aliceCallsBob !! "bob" = Some 0%nat
                    ∧ heap aliceCallsBob !! 0%nat = Some pc
                    ∧ signalingState pc = SHaveLocalOffer).
  { eexists. split; [by vm_compute|]. split; [by vm_compute|]. reflexivity. }
  split; [exact H|]. destruct H as (pc&H1&H2&H3).
  exact (proj1 (proj2 (proj2 (proj2 (proj2 (proj2
    (handleAnswer_applies_once 0 (allOk 0) "bob"
       {| sdpType := SdpAnswer; sdpBody := 3 |}
       {| sdpType := SdpAnswer; sdpBody := 3 |} 0 pc aliceCallsBob
       H1 H2 H3))))))).
Defined.




(** X9. Candidates of a peer whose connection has a remote description
    are handed to that connection at once, in arrival order, each once;
    nothing is queued. *)
Theorem candidates_applied_in_arrival_order (from : string)
    (cs : list Candidate) (r : nat) (pc : PC) (s : Hook) :
  peerConnections s !! from = Some r → heap s !! r = Some pc →
  is_Some (remoteDescription pc) →
  let s' := fold_left (λ s c, handleIceCandidate from c s) cs s in
  applied <$> connectionOf s' from = Some (applied pc ++ cs)
  ∧ remoteDescription <$> connectionOf s' from = Some (remoteDescription pc)
  ∧ iceCandidateQueue s' = iceCandidateQueue s
  ∧ sent s' = sent s.
Proof.
  intros Hr Hpc Hrd. cbv zeta. revert s pc Hr Hpc Hrd.
  induction cs as [|c cs IH]; intros s pc Hr Hpc Hrd; cbn.
  - unfold connectionOf. rewrite Hr. cbn. rewrite Hpc. cbn.
    by rewrite app_nil_r.
  - destruct (handleIceCandidate_immediate from c r pc s Hr Hpc Hrd)
      as [Hc Hq].
    assert (Hs : sent (handleIceCandidate from c s) = sent s
                 ∧ peerConnections (handleIceCandidate from c s) !! from
                   = Some r).
    { unfold handleIceCandidate, hasRemoteDescription. rewrite Hr. cbn.
      rewrite Hpc. cbn. by rewrite bool_decide_eq_true_2. }
    destruct Hs as [Hs Hr'].
    assert (Hpc' : heap (handleIceCandidate from c s) !! r
                   = Some (pcLog (OpAddIce c) pc)).
    { unfold connectionOf in Hc. rewrite Hr' in Hc. exact Hc. }
    destruct (IH _ _ Hr' Hpc' Hrd) as (A1&A2&A3&A4).
    rewrite A1, A2, A3, A4, Hq, Hs, applied_pcLog_ice, <- app_assoc. done.
Qed.

Lemma candidates_applied_in_arrival_order_witness :
  ∃ pc, peerConnections aliceConnected !! "bob" = Some 0%nat
        ∧ heap aliceConnected !! 0%nat = Some pc
        ∧ is_Some (remoteDescription pc)
        ∧ applied <$> connectionOf
            (fold_left (λ s c, handleIceCandidate "bob" c s) [11; 12]%nat
               aliceConnected) "bob"
          = Some (applied pc ++ [11; 12]%nat).
Proof.
  assert (H : ∃ pc, peerConnections aliceConnected !! "bob" = Some 0%nat
                    ∧ heap aliceConnected !! 0%nat = Some pc
                    ∧ is_Some (remoteDescription pc)).
  { eexists. split; [by vm_compute|]. split; [by vm_compute|]. cbn. eauto. }
  destruct H as (pc&H1&H2&H3). exists pc.
  split; [exact H1|]. split; [exact H2|]. split; [exact H3|].
  exact (proj1 (candidates_applied_in_arrival_order "bob" [11; 12]%nat 0 pc
                  aliceConnected H1 H2 H3)).
Defined.

Lemma sendSignalingMessage_frame (k : MsgKind) (to : string) (pl : Payload)
    (s : Hook) :
  let s' := sendSignalingMessage k to pl s in
  heap s' = heap s ∧ peerConnections s' = peerConnections s
  ∧ isInitiator s' = isInitiator s ∧ pendingOffers s' = pendingOffers s
  ∧ localStream s' = localStream s.
Proof. unfold sendSignalingMessage. by case_match. Qed.

Lemma sendSignalingMessage_sent (k : MsgKind) (to : string) (pl : Payload)
    (s : Hook) :
  truthy (gameId s) = true → truthy (playerId s) = true →
  sent (sendSignalingMessage k to pl s)
  = sent s ++ [{| postType := k; postGame := default "" (gameId s);
                  postFrom := default "" (playerId s); postTo := to;
                  postPayload := pl |}].
Proof. intros G P. unfold sendSignalingMessage. by rewrite G, P. Qed.

(** [initiateCall] when the guards are passed and the browser calls
    succeed. *)
Lemma initiateCall_calls (n : nat) (p : string) (s : Hook) :
  is_Some (localStream s) → truthy (gameId s) = true →
  truthy (playerId s) = true → p ∉ pendingOffers s →
  hasWorking s p = false →
  let s' := initiateCall (allOk n) p s in
  sent s' = sent s ++ [offerPost s p n]
  ∧ peerConnections s' !! p = Some (length (heap s))
  ∧ isInitiator s' !! p = Some true
  ∧ p ∈ pendingOffers s'
  ∧ localStream s' = localStream s
  ∧ ∃ pc, heap s' !! length (heap s) = Some pc
          ∧ connectionState pc = CNew
          ∧ signalingState pc = SHaveLocalOffer.
Proof.
  intros Hst Hg Hp Hpend Hw s'. subst s'.
  rewrite initiateCall_unfold by done. cbv zeta.
  set (s1 := updPendingOffers (λ q, q ∪ {[p]}) s).
  assert (Hw1 : hasWorking s1 p = false) by exact Hw.
  destruct (createPeerConnection_fields p true s1 Hw1)
    as (Er&F1&F2&F3&F4&_&_&F7&_&_&_&F11&F12&_&(pc&Hpc&_&N2&_)&_).
  cbv zeta in *.
  set (r := (createPeerConnection p true s1).1) in *.
  set (s2 := (createPeerConnection p true s1).2) in *.
  change (length (heap s1)) with (length (heap s)) in Er. rewrite <- Er.
  rewrite call_block_ok. cbv zeta.
  set (offer := {| sdpType := SdpOffer; sdpBody := n |}).
  set (s3 := onPc r (pcSetLocal offer) (onPc r (pcLog OpCreateOffer) s2)).
  assert (G3 : gameId s3 = gameId s) by exact F2.
  assert (P3 : playerId s3 = playerId s) by exact F3.
  destruct (sendSignalingMessage_frame KOffer p (PDesc offer) s3)
    as (Hh&Hm&Hi&Hpe&Hl).
  cbv zeta in *. rewrite Hh, Hm, Hi, Hpe, Hl.
  rewrite sendSignalingMessage_sent by congruence.
  rewrite G3, P3.
  split; [change (sent s3) with (sent s2); by rewrite F4|].
  split; [change (peerConnections s3) with (peerConnections s2);
          by rewrite F11, lookup_insert_eq|].
  split; [change (isInitiator s3) with (isInitiator s2);
          by rewrite F12, lookup_insert_eq|].
  split.
  { change (pendingOffers s3) with (pendingOffers s2). rewrite F7.
    unfold s1. cbn. apply elem_of_union_r. by apply elem_of_singleton. }
  split; [change (localStream s3) with (localStream s2); by rewrite F1|].
  exists (pcSetLocal offer (pcLog OpCreateOffer pc)). split; [|done].
  unfold s3. cbn. by rewrite !list_lookup_alter_eq, Hpc.
Qed.

(* ===================================================================== *)
(* 15. Reports of the browser                                            *)
(* ===================================================================== *)

(** A retry timer that is due, for a peer without a map entry: with
    local media it runs [initiateCall]. *)
Lemma retry_fires (env : Env) (i : nat) (p : string) (t : Timer) (s : Hook) :
  timers s !! i = Some t → callback t = RetryCall p → due t ≤ now s →
  is_Some (localStream s) → peerConnections s !! p = None →
  fire env i s = initiateCall env p (updTimers (delete i) s).
Proof.
  intros Ht Hcb Hdue Hst Hm. unfold fire.
  rewrite Ht, Hcb, (proj2 (Z.leb_le _ _) Hdue). cbn [runCallback].
  cbn [localStream peerConnections updTimers]. rewrite Hm.
  rewrite (bool_decide_eq_true_2 _ Hst).
  by rewrite bool_decide_eq_false_2 by (intros [? ?]; done).
Qed.

(** The same in a state [y] that is [s] with the peer removed: the call
    goes through, as Initiator, with a new offer. *)
Lemma leftover_retry_calls_in (n i : nat) (p : string) (t : Timer)
    (s y : Hook) :
  timers s !! i = Some t → callback t = RetryCall p → due t ≤ now s →
  is_Some (localStream s) → truthy (gameId s) = true →
  truthy (playerId s) = true →
  localStream y = localStream s → gameId y = gameId s →
  playerId y = playerId s →
  peerConnections y !! p = None → p ∉ pendingOffers y →
  now y = now s → timers y = timers s → sent y = sent s →
  fire (allOk n) i y = initiateCall (allOk n) p (updTimers (delete i) y)
  ∧ sent (fire (allOk n) i y) = sent s ++ [offerPost s p n]
  ∧ roleOf (fire (allOk n) i y) p = Some Initiator
  ∧ p ∈ pendingOffers (fire (allOk n) i y).
Proof.
  intros Ht Hcb Hdue Hst Hg Hp F1 F2 F3 F6 F8 F13 F14 F15.
  assert (E : fire (allOk n) i y
              = initiateCall (allOk n) p (updTimers (delete i) y)).
  { apply (retry_fires _ i p t).
    - by rewrite F14.
    - done.
    - by rewrite F13.
    - by rewrite F1.
    - exact F6. }
  remember (updTimers (delete i) y) as x eqn:Ex.
  assert (X1 : is_Some (localStream x)) by (subst x; cbn; by rewrite F1).
  assert (X2 : truthy (gameId x) = true) by (subst x; cbn; by rewrite F2).
  assert (X3 : truthy (playerId x) = true) by (subst x; cbn; by rewrite F3).
  assert (X4 : p ∉ pendingOffers x) by (subst x; exact F8).
  assert (X5 : hasWorking x p = false).
  { subst x. unfold hasWorking. cbn. by rewrite F6. }
  assert (X6 : sent x = sent s ∧ gameId x = gameId s
               ∧ playerId x = playerId s).
  { subst x. cbn. by rewrite F15, F2, F3. }
  destruct X6 as (X6&X7&X8).
  destruct (initiateCall_calls n p x X1 X2 X3 X4 X5) as (S1&_&S3&S4&_).
  rewrite E. split; [done|]. split; [|split; [|exact S4]].
  - rewrite S1, X6. unfold offerPost. by rewrite X7, X8.
  - unfold roleOf. by rewrite S3.
Qed.

Lemma leftover_retry_calls (n i : nat) (p : string) (t : Timer) (s : Hook) :
  timers s !! i = Some t → callback t = RetryCall p → due t ≤ now s →
  is_Some (localStream s) → truthy (gameId s) = true →
  truthy (playerId s) = true →
  let s' := removePeerConnection p s in
  let s'' := fire (allOk n) i s' in
  s'' = initiateCall (allOk n) p (updTimers (delete i) s')
  ∧ sent s'' = sent s ++ [offerPost s p n]
  ∧ roleOf s'' p = Some Initiator
  ∧ p ∈ pendingOffers s''.
Proof.
  intros Ht Hcb Hdue Hst Hg Hp.
  destruct (removePeerConnection_fields p s)
    as (F1&F2&F3&_&_&F6&_&F8&_&_&_&_&F13&F14&F15).
  apply (leftover_retry_calls_in n i p t s (removePeerConnection p s));
    try assumption.
  - by rewrite F6, lookup_delete_eq.
  - rewrite F8, elem_of_difference, elem_of_singleton. tauto.
Qed.

(** The same after the cleanup. *)
Lemma retry_after_cleanup (n i : nat) (p : string) (t : Timer) (s : Hook) :
  timers s !! i = Some t → callback t = RetryCall p → due t ≤ now s →
  is_Some (localStream s) → truthy (gameId s) = true →
  truthy (playerId s) = true →
  let s'' := fire (allOk n) i (cleanup s) in
  s'' = initiateCall (allOk n) p (updTimers (delete i) (cleanup s))
  ∧ sent s'' = sent s ++ [offerPost s p n]
  ∧ roleOf s'' p = Some Initiator
  ∧ p ∈ pendingOffers s''.
Proof.
  intros Ht Hcb Hdue Hst Hg Hp.
  destruct (cleanup_fields s) as (E1&_&E3&_&_&_&_&E8&_&E10).
  destruct (cleanup_frame s) as (F1&F2&F3&F4).
  apply (leftover_retry_calls_in n i p t s (cleanup s)); try assumption.
  - by rewrite E1, lookup_empty.
  - rewrite E3. apply not_elem_of_empty.
Qed.

(** X10. The failure of a connection that was not made as initiator is
    not retried by the failure handler. Whether the browser reports the
    connection state 'failed' or the ICE state 'failed', the hook
    removes everything it keeps under the peer, posts nothing and sets
    no timer; the timers pending before are left as they are. That
    does not make the failure final: a retry timer for the peer that
    was pending, left from an earlier failure as Initiator, fires when
    it is due and, with local media and both ids, calls the peer again,
    as Initiator, with a new offer. *)
Theorem responder_failure_sets_no_retry (r : nat) (pc : PC) (s : Hook) :
  heap s !! r = Some pc → connectionState pc ≠ CClosed →
  isInitiator s !! pcPeer pc ≠ Some true →
  let p := pcPeer pc in
  (connectionStates s !! p ≠ Some CFailed →
   let s' := connStateEvent r CFailed s in
   timers s' = timers s ∧ sent s' = sent s ∧ entriesOf s' p = noEntries)
  ∧ (let s' := iceStateEvent r IceFailed s in
     timers s' = timers s ∧ sent s' = sent s ∧ entriesOf s' p = noEntries
     ∧ ∀ (n i : nat) (t : Timer),
         timers s !! i = Some t → callback t = RetryCall p → due t ≤ now s →
         is_Some (localStream s) → truthy (gameId s) = true →
         truthy (playerId s) = true →
         let s'' := fire (allOk n) i s' in
         s'' = initiateCall (allOk n) p (updTimers (delete i) s')
         ∧ sent s'' = sent s ++ [offerPost s p n]
         ∧ roleOf s'' p = Some Initiator
         ∧ p ∈ pendingOffers s'').
Proof.
  intros Hr Hlive Hini p. split.
  - intros Hold. cbv zeta.
    rewrite (connStateEvent_live r CFailed pc s) by done. cbv zeta.
    rewrite handleConnectionFailure_responder by exact Hini.
    destruct (removePeerConnection_fields (pcPeer pc)
                (updEstablished (λ e, e ∖ {[pcPeer pc]})
                   (updConnectionStates <[pcPeer pc := CFailed]>
                      (onPc r (pcSetConnState CFailed) s))))
      as (_&_&_&_&_&_&_&_&_&_&_&_&_&A14&A15).
    cbv zeta in *. split; [exact A14|]. split; [exact A15|].
    apply entriesOf_removed.
  - cbv zeta. unfold iceStateEvent, oniceconnectionstatechange. rewrite Hr.
    rewrite (bool_decide_eq_false_2 _ Hlive).
    rewrite handleConnectionFailure_responder by exact Hini.
    destruct (removePeerConnection_fields (pcPeer pc) s)
      as (_&_&_&_&_&_&_&_&_&_&_&_&_&A14&A15).
    cbv zeta in *. split; [exact A14|]. split; [exact A15|].
    split; [apply entriesOf_removed|].
    intros n i t Ht Hcb Hdue Hst Hg Hp.
    by apply (leftover_retry_calls n i p t s).
Qed.

(** alice answered bob's offer while her retry timer for bob was
    pending; the connection she answered on fails, and the timer,
    which is due, calls bob again. *)
Lemma responder_failure_sets_no_retry_witness :
  ∃ pc, heap aliceAnswersAfterFailure !! 1%nat = Some pc
        ∧ connectionState pc ≠ CClosed
        ∧ isInitiator aliceAnswersAfterFailure !! pcPeer pc ≠ Some true
        ∧ timers (iceStateEvent 1 IceFailed aliceAnswersAfterFailure)
          = timers aliceAnswersAfterFailure
        ∧ roleOf (fire (allOk 9) 0
                    (iceStateEvent 1 IceFailed aliceAnswersAfterFailure))
            (pcPeer pc) = Some Initiator.
Proof.
  assert (H : ∃ pc, heap aliceAnswersAfterFailure !! 1%nat = Some pc
                    ∧ connectionState pc ≠ CClosed
                    ∧ isInitiator aliceAnswersAfterFailure !! pcPeer pc
                      ≠ Some true
                    ∧ ∃ t, timers aliceAnswersAfterFailure !! 0%nat = Some t
                           ∧ callback t = RetryCall (pcPeer pc)
                           ∧ due t ≤ now aliceAnswersAfterFailure).
  { eexists. split; [by vm_compute|]. split; [by vm_compute|].
    split; [by vm_compute|]. eexists. split; [by vm_compute|].
    split; by vm_compute. }
  destruct H as (pc&H1&H2&H3&t&H4&H5&H6). exists pc.
  split; [exact H1|]. split; [exact H2|]. split; [exact H3|].
  destruct (proj2 (responder_failure_sets_no_retry 1 pc
                     aliceAnswersAfterFailure H1 H2 H3))
    as (R1&_&_&R4).
  split; [exact R1|].
  assert (H7 : is_Some (localStream aliceAnswersAfterFailure))
    by (by exists 7%nat).
  assert (H8 : truthy (gameId aliceAnswersAfterFailure) = true)
    by reflexivity.
  assert (H9 : truthy (playerId aliceAnswersAfterFailure) = true)
    by reflexivity.
  exact (proj1 (proj2 (proj2 (R4 9%nat 0%nat t H4 H5 H6 H7 H8 H9)))).
Defined.

Lemma callPlan_skips (est : gset string) (t0 index : Z)
    (peerIds : list string) (p : string) :
  p ∈ est →
  filter (λ t, callbackPeer (callback t) = p) (callPlan est t0 index peerIds)
  = [].
Proof.
  intros Hp. revert index. induction peerIds as [|q l IH]; intros index; cbn;
    [done|].
  rewrite filter_app, IH, app_nil_r. case_bool_decide; [done|].
  rewrite filter_cons_False; [done|]. cbn. congruence.
Qed.

Lemma establishConnections_timers (peerIds : list string) (s : Hook) :
  timers (establishConnections peerIds s) = timers s
  ∨ timers (establishConnections peerIds s)
    = timers s ++ callPlan (establishedConnections s) (now s) 0 peerIds.
Proof.
  unfold establishConnections.
  destruct (negb _ || negb _ || negb _ || _); [by left|]. right.
  by rewrite scheduleCalls_plan.
Qed.

(** X11. A connection that is reported 'connected' puts its peer in the
    established set, clears the peer's pending offer and attempt count,
    and sets no timer. From then on [establishConnections] sets no call
    timer for that peer, whatever list it is given, and a call timer set
    for the peer earlier does nothing when it fires. *)
Theorem connected_peer_is_not_recalled (env : Env) (r : nat) (pc : PC)
    (peerIds : list string) (s : Hook) :
  heap s !! r = Some pc → connectionState pc ≠ CClosed →
  connectionStates s !! pcPeer pc ≠ Some CConnected →
  peerConnections s !! pcPeer pc = Some r →
  let peerId := pcPeer pc in
  let s' := connStateEvent r CConnected s in
  peerId ∈ establishedConnections s'
  ∧ (peerId ∉ pendingOffers s')
  ∧ connectionAttempts s' !! peerId = None
  ∧ timers s' = timers s ∧ sent s' = sent s
  ∧ timersOf (establishConnections peerIds s') peerId = timersOf s peerId
  ∧ runCallback env (EstablishCall peerId) s' = s'.
Proof.
  intros Hr Hlive Hold Hm peerId s'.
  assert (E : s' = updEstablished (λ e, e ∪ {[peerId]})
                     (updPendingOffers (λ p, p ∖ {[peerId]})
                        (updConnectionAttempts (delete peerId)
                           (updConnectionStates <[peerId := CConnected]>
                              (onPc r (pcSetConnState CConnected) s))))).
  { subst s'. by rewrite (connStateEvent_live r CConnected pc s). }
  assert (Hin : peerId ∈ establishedConnections s').
  { rewrite E. cbn. apply elem_of_union_r. by apply elem_of_singleton. }
  split; [exact Hin|]. split; [|split; [|split; [|split; [|split]]]].
  - rewrite E. cbn. rewrite elem_of_difference, elem_of_singleton. tauto.
  - rewrite E. cbn. apply lookup_delete_eq.
  - by rewrite E.
  - by rewrite E.
  - unfold timersOf.
    destruct (establishConnections_timers peerIds s') as [-> | ->].
    + by rewrite E.
    + rewrite filter_app, callPlan_skips by done. rewrite app_nil_r.
      by rewrite E.
  - cbn. unfold hasWorking, pcWorking. 
    replace (from_option (pcWorking s') false (peerConnections s' !! peerId))
      with true; [done|].
    rewrite E. cbn. fold peerId in Hm. rewrite Hm. cbn. unfold pcWorking.
    cbn. by rewrite list_lookup_alter_eq, Hr.
Qed.

Lemma connected_peer_is_not_recalled_witness :
  ∃ pc, heap aliceCallsBob !! 0%nat = Some pc
        ∧ connectionState pc ≠ CClosed
        ∧ connectionStates aliceCallsBob !! pcPeer pc ≠ Some CConnected
        ∧ peerConnections aliceCallsBob !! pcPeer pc = Some 0%nat
        ∧ pcPeer pc ∈ establishedConnections
                        (connStateEvent 0 CConnected aliceCallsBob).
Proof.
  assert (H : ∃ pc, heap aliceCallsBob !! 0%nat = Some pc
                    ∧ connectionState pc ≠ CClosed
                    ∧ connectionStates aliceCallsBob !! pcPeer pc
                      ≠ Some CConnected
                    ∧ peerConnections aliceCallsBob !! pcPeer pc
                      = Some 0%nat).
  { eexists. split; [by vm_compute|]. repeat split; by vm_compute. }
  destruct H as (pc&H1&H2&H3&H4). exists pc.
  split; [exact H1|]. split; [exact H2|]. split; [exact H3|].
  split; [exact H4|].
  exact (proj1 (connected_peer_is_not_recalled (allOk 0) 0 pc [] aliceCallsBob
                  H1 H2 H3 H4)).
Defined.

(* ===================================================================== *)
(* 16. The refs stay in step                                             *)
(* ===================================================================== *)

(* [set_solver] clears hypotheses by name; the warning about names that
   are not there is of no interest here. *)
Set Warnings "-clear-no-such-hyp".

Lemma gentle_tame (f : PC → PC) : gentle f → tame f.
Proof. intros H pc. destruct (H pc) as [H1 H2]. split; [done|]. apply H2. Qed.

Lemma gentle_pcLog (o : PcOp) : gentle (pcLog o).
Proof. by intros pc. Qed.

Lemma gentle_pcSetLocal (d : Sdp) : gentle (pcSetLocal d).
Proof. by intros pc. Qed.

Lemma gentle_pcSetRemote (d : Sdp) : gentle (pcSetRemote d).
Proof. by intros pc. Qed.

(** A change of the other fields. *)
Lemma consistent_frame (s s' : Hook) :
  heap s' = heap s → peerConnections s' = peerConnections s →
  isInitiator s' = isInitiator s → connectionStates s' = connectionStates s →
  pendingOffers s' ⊆ pendingOffers s →
  establishedConnections s' ⊆ establishedConnections s →
  consistent s → consistent s'.
Proof.
  intros Hh Hm Hi Hs Hp He (Hw&Hl&H1&H2&H3&H4).
  unfold consistent, wellFormed, poolLive, inSync.
  rewrite Hh, Hm, Hi, Hs. repeat split; try done; try apply Hw.
  - by etrans.
  - by etrans.
Qed.

Lemma stays_onPc (r : nat) (f : PC → PC) : gentle f → stays (onPc r f).
Proof.
  intros Hf s (Hw&Hl&Hs). split; [|split; [|exact Hs]].
  - by apply (keeps_onPc _ _ (gentle_tame _ Hf)).
  - intros p r' Hp. destruct (Hl p r' Hp) as (pc&Hpc&Hpeer&Hlive). cbn.
    destruct (decide (r = r')) as [<-|Hne].
    + exists (f pc). rewrite list_lookup_alter_eq, Hpc.
      destruct (Hf pc) as [H1 H2]. split; [done|]. split; [congruence|].
      intros Hc. by apply Hlive, H2.
    + exists pc. by rewrite list_lookup_alter_ne.
Qed.

Lemma stays_sendSignalingMessage (k : MsgKind) (to : string) (pl : Payload) :
  stays (sendSignalingMessage k to pl).
Proof.
  intros s H. unfold sendSignalingMessage.
  destruct (negb _ || negb _); [done|]. exact H.
Qed.

Lemma stays_setTimeout (delay : Z) (cb : Callback) : stays (setTimeout delay cb).
Proof. intros s H. exact H. Qed.

Lemma stays_removePeerConnection (p : string) : stays (removePeerConnection p).
Proof.
  intros s (Hw&Hl&H1&H2&H3&H4).
  pose proof (keeps_removePeerConnection p s Hw) as Hw'.
  destruct (removePeerConnection_fields p s)
    as (_&_&_&_&A5&A6&_&A8&A9&A10&A11&_).
  cbv zeta in *. split; [exact Hw'|]. split.
  - intros q r' Hq. rewrite A6 in Hq.
    destruct (decide (p = q)) as [<-|Hne];
      [by rewrite lookup_delete_eq in Hq|].
    rewrite lookup_delete_ne in Hq by done.
    destruct (Hl q r' Hq) as (pc&Hpc&Hpeer&Hlive).
    exists pc. split; [|done]. rewrite A5.
    destruct (peerConnections s !! p) as [r|] eqn:E; cbn; [|done].
    rewrite list_lookup_alter_ne; [done|]. intros <-.
    destruct (Hl p r E) as (pc'&Hpc'&Hpeer'&_). congruence.
  - unfold inSync. rewrite A6, A8, A9, A10, A11, !dom_delete_L.
    repeat split; set_solver.
Qed.

Lemma stays_handleConnectionFailure (p : string) :
  stays (handleConnectionFailure p).
Proof.
  intros s H. unfold handleConnectionFailure.
  destruct (_ && _); [|by apply stays_removePeerConnection].
  apply stays_setTimeout, stays_removePeerConnection. exact H.
Qed.

(** The store below the new object after [createPeerConnection]. *)
Lemma createPeerConnection_old (p : string) (i : bool) (s : Hook) (r : nat) :
  hasWorking s p = false → r ≠ length (heap s) →
  heap (createPeerConnection p i s).2 !! r
  = if decide (peerConnections s !! p = Some r)
    then pcClose <$> heap s !! r else heap s !! r.
Proof.
  intros Hw Hr. rewrite createPeerConnection_fresh by done.
  rewrite openPeerConnection_old by (by rewrite closeExisting_length).
  unfold closeExisting.
  destruct (peerConnections s !! p) as [r0|]; cbn.
  - case_decide as E.
    + injection E as ->. apply list_lookup_alter_eq.
    + rewrite list_lookup_alter_ne; [done|]. congruence.
  - by case_decide.
Qed.

(** Entering a connection for [p], possibly with a pending offer of
    one's own toward [p] recorded just before. *)
Lemma consistent_create (p : string) (i : bool) (s s1 : Hook) :
  consistent s → hasWorking s p = false →
  heap s1 = heap s → peerConnections s1 = peerConnections s →
  isInitiator s1 = isInitiator s → connectionStates s1 = connectionStates s →
  pendingOffers s1 ⊆ pendingOffers s ∪ {[p]} →
  establishedConnections s1 = establishedConnections s →
  consistent (createPeerConnection p i s1).2.
Proof.
  intros (Hw&Hl&H1&H2&H3&H4) Hwk Eh Em Ei Es Ep Ee.
  assert (Hw1 : wellFormed s1) by (unfold wellFormed; by rewrite Eh, Em).
  assert (Hwk1 : hasWorking s1 p = false).
  { unfold hasWorking, pcWorking in *. by rewrite Em, Eh. }
  pose proof (wellFormed_createPeerConnection p i s1 Hw1) as Hw'.
  destruct (createPeerConnection_fields p i s1 Hwk1)
    as (Er&_&_&_&_&_&_&F7&_&F9&_&F11&F12&F13&(pc&Hpc&N1&N2&_)&_).
  pose proof (createPeerConnection_old p i s1) as Hold.
  cbv zeta in *. split; [exact Hw'|]. split.
  - intros q r' Hq. rewrite F11 in Hq.
    destruct (decide (p = q)) as [<-|Hne].
    + rewrite lookup_insert_eq in Hq. injection Hq as <-.
      exists pc. split; [done|]. split; [done|]. by rewrite N2.
    + rewrite lookup_insert_ne in Hq by done. rewrite Em in Hq.
      destruct (Hl q r' Hq) as (pc'&Hpc'&Hpeer&Hlive).
      exists pc'. split; [|done].
      rewrite Hold; [|done|].
      * rewrite Eh, Em. case_decide as E; [|done].
        destruct (Hl p r' E) as (pc''&Hpc''&Hpeer''&_). congruence.
      * rewrite Eh. apply lookup_lt_Some in Hpc'. lia.
  - unfold inSync. rewrite F7, F9, F11, F12, F13, Em, Ei, Es, Ee.
    rewrite !dom_insert_L. repeat split; set_solver.
Qed.

Lemma staysAsync_bind {A B : Type} (t : Async A) (k : A → Async B) :
  staysAsync t → (∀ a, staysAsync (k a)) → staysAsync (t ≫= k).
Proof.
  intros Ht Hk s H. unfold mbind, Async_bind. specialize (Ht s H).
  destruct (t s) as [s' [a|]]; cbn in *; [by apply Hk|done].
Qed.

Lemma staysAsync_await {A : Type} (env : Env) (k : nat) (t : Async A) :
  staysAsync t → staysAsync (await env k t).
Proof. intros Ht. unfold await. case_bool_decide; [by intros ? ?|done]. Qed.

Lemma staysAsync_act (f : Hook → Hook) : stays f → staysAsync (act f).
Proof. intros Hf s H. by apply Hf. Qed.

Lemma staysAsync_createOffer (env : Env) (r : nat) :
  staysAsync (createOffer env r).
Proof. intros s H. by apply (stays_onPc _ _ (gentle_pcLog _)). Qed.

Lemma staysAsync_createAnswer (env : Env) (r : nat) :
  staysAsync (createAnswer env r).
Proof. intros s H. by apply (stays_onPc _ _ (gentle_pcLog _)). Qed.

Lemma stays_tryCatch (body : Async unit) (handler : Hook → Hook) :
  staysAsync body → stays handler → stays (tryCatch body handler).
Proof.
  intros Hb Hh s H. unfold tryCatch. specialize (Hb s H).
  destruct (body s) as [s' [a|]]; cbn in *; [done|by apply Hh].
Qed.

Lemma stays_dropPending (p : string) :
  stays (updPendingOffers (λ q, q ∖ {[p]})).
Proof.
  intros s H. apply (consistent_frame s); try done. cbn. set_solver.
Qed.

Lemma stays_initiateCall (env : Env) (p : string) : stays (initiateCall env p).
Proof.
  intros s H. unfold initiateCall.
  destruct (negb _ || negb _ || negb _); [done|].
  case_bool_decide; [done|].
  destruct (from_option _ _ _) eqn:Hw; [done|].
  pose proof (consistent_create p true s
                (updPendingOffers (λ q, q ∪ {[p]}) s) H Hw) as Hc.
  destruct (createPeerConnection _ _ _) as [r s1]. cbn [snd] in Hc.
  apply stays_tryCatch; [| |by apply Hc].
  - apply staysAsync_bind; [apply staysAsync_await, staysAsync_createOffer|].
    intros offer. apply staysAsync_bind.
    + apply staysAsync_await, staysAsync_act, stays_onPc, gentle_pcSetLocal.
    + intros _. apply staysAsync_act, stays_sendSignalingMessage.
  - intros s2 H2. by apply stays_removePeerConnection, stays_dropPending.
Qed.

Lemma stays_handleOffer (env : Env) (from : string) (offer : Sdp) :
  stays (handleOffer env from offer).
Proof.
  intros s H. unfold handleOffer.
  destruct (negb _ || negb _); [done|].
  destruct (from_option _ _ _) eqn:Hw; [done|].
  destruct (_ && _); [done|].
  assert (Hc : consistent (createPeerConnection from false s).2).
  { apply (consistent_create from false s s); try done. set_solver. }
  destruct (createPeerConnection _ _ _) as [r s1]. cbn [snd] in Hc.
  apply stays_tryCatch; [| |done].
  - apply staysAsync_bind.
    { apply staysAsync_await, staysAsync_act, stays_onPc, gentle_pcSetRemote. }
    intros _. apply staysAsync_bind;
      [apply staysAsync_await, staysAsync_createAnswer|].
    intros answer. apply staysAsync_bind.
    + apply staysAsync_await, staysAsync_act, stays_onPc, gentle_pcSetLocal.
    + intros _. apply staysAsync_act, stays_sendSignalingMessage.
  - apply stays_removePeerConnection.
Qed.

Lemma stays_handleAnswer (env : Env) (from : string) (answer : Sdp) :
  stays (handleAnswer env from answer).
Proof.
  intros s H. unfold handleAnswer.
  destruct (awaitsAnswer s from) as [r|]; [|done].
  apply stays_tryCatch; [| |done].
  - apply staysAsync_bind.
    { apply staysAsync_await, staysAsync_act, stays_onPc, gentle_pcSetRemote. }
    intros _. apply staysAsync_act, stays_dropPending.
  - apply stays_removePeerConnection.
Qed.

Lemma stays_handleIceCandidate (from : string) (c : Candidate) :
  stays (handleIceCandidate from c).
Proof.
  intros s H. unfold handleIceCandidate.
  destruct (hasRemoteDescription s from) as [r|].
  - by apply (stays_onPc _ _ (gentle_pcLog _)).
  - exact H.
Qed.

Lemma stays_handleSignalingMessage (env : Env) (msg : Message) :
  stays (handleSignalingMessage env msg).
Proof.
  intros s H. unfold handleSignalingMessage. case_bool_decide; [done|].
  destruct msg.
  - by apply stays_handleOffer.
  - by apply stays_handleAnswer.
  - by apply stays_handleIceCandidate.
  - done.
Qed.

Lemma stays_pollSignalingMessages (msgs : list (Env * Message)) :
  stays (pollSignalingMessages msgs).
Proof.
  intros s H. unfold pollSignalingMessages.
  destruct (negb _ || negb _); [done|].
  revert s H. induction msgs as [|m msgs IH]; intros s H; cbn; [done|].
  by apply IH, stays_handleSignalingMessage.
Qed.

Lemma stays_establishConnections (peerIds : list string) :
  stays (establishConnections peerIds).
Proof.
  intros s H. unfold establishConnections.
  destruct (negb _ || negb _ || negb _ || _); [done|].
  rewrite scheduleCalls_plan. exact H.
Qed.

Lemma stays_connStateEvent (r : nat) (st : ConnState) :
  stays (connStateEvent r st).
Proof.
  intros s H. unfold connStateEvent.
  destruct (heap s !! r) as [pc|] eqn:Hr; [|done].
  destruct (bool_decide (connectionState pc = CClosed)) eqn:Hc; [done|].
  destruct (bool_decide (st = CClosed)) eqn:Hst; [done|]. cbn [orb].
  apply bool_decide_eq_false in Hc, Hst.
  destruct H as (Hw&Hl&H1&H2&H3&H4).
  pose proof (proj1 Hw r pc Hr Hc) as Hm.
  assert (Hin : pcPeer pc ∈ dom (peerConnections s)).
  { apply elem_of_dom. eauto. }
  (* the state after the browser's change *)
  assert (H0 : consistent (onPc r (pcSetConnState st) s)).
  { split; [|split; [|by repeat split]].
    - unfold wellFormed. cbn. by eapply wellFormedIn_connState.
    - intros q r' Hq. destruct (Hl q r' Hq) as (pc'&Hpc'&Hp'&Hl'). cbn.
      destruct (decide (r = r')) as [<-|Hne].
      + rewrite list_lookup_alter_eq, Hpc'. eexists. split; [done|].
        split; [done|]. by cbn.
      + exists pc'. by rewrite list_lookup_alter_ne. }
  unfold onconnectionstatechange.
  assert (E : heap (onPc r (pcSetConnState st) s) !! r
              = Some (pcSetConnState st pc)).
  { cbn. by rewrite list_lookup_alter_eq, Hr. }
  rewrite E. cbn [pcPeer connectionState pcSetConnState].
  case_bool_decide; [|exact H0].
  set (s0 := onPc r (pcSetConnState st) s) in *.
  assert (H5 : consistent (updConnectionStates <[pcPeer pc := st]> s0)).
  { destruct H0 as (Hw0&Hl0&G1&G2&G3&G4).
    split; [exact Hw0|]. split; [exact Hl0|].
    unfold inSync. cbn. rewrite dom_insert_L.
    change (peerConnections s0) with (peerConnections s).
    change (isInitiator s0) with (isInitiator s).
    change (connectionStates s0) with (connectionStates s).
    change (pendingOffers s0) with (pendingOffers s).
    change (establishedConnections s0) with (establishedConnections s).
    repeat split; set_solver. }
  set (s5 := updConnectionStates <[pcPeer pc := st]> s0) in *.
  assert (Hdown : consistent (updEstablished (λ e, e ∖ {[pcPeer pc]}) s5)).
  { apply (consistent_frame s5); try done. cbn. set_solver. }
  assert (Hup : consistent
                  (updEstablished (λ e, e ∪ {[pcPeer pc]})
                     (updPendingOffers (λ p, p ∖ {[pcPeer pc]})
                        (updConnectionAttempts (delete (pcPeer pc)) s5)))).
  { destruct H5 as (Hw5&Hl5&G1&G2&G3&G4).
    split; [exact Hw5|]. split; [exact Hl5|].
    unfold inSync in *. cbn in *. repeat split; try done; set_solver. }
  clearbody s5. destruct st; try exact H5.
  - exact Hup.
  - by apply stays_setTimeout.
  - by apply stays_handleConnectionFailure.
Qed.

Lemma stays_iceStateEvent (r : nat) (ice : IceState) :
  stays (iceStateEvent r ice).
Proof.
  intros s H. unfold iceStateEvent, oniceconnectionstatechange.
  destruct (heap s !! r) as [pc|]; [|done].
  case_bool_decide; [done|].
  destruct ice; try done. by apply stays_handleConnectionFailure.
Qed.

Lemma stays_runCallback (env : Env) (cb : Callback) :
  stays (runCallback env cb).
Proof.
  intros s H. destruct cb; cbn.
  - case_bool_decide; [|done]. by apply stays_handleConnectionFailure.
  - destruct (_ && _); [|done]. by apply stays_initiateCall.
  - destruct (from_option _ _ _); [done|]. by apply stays_initiateCall.
Qed.

Lemma stays_fire (env : Env) (i : nat) : stays (fire env i).
Proof.
  intros s H. unfold fire. destruct (timers s !! i) as [t|]; [|done].
  destruct (due t <=? now s); [|done].
  apply stays_runCallback. exact H.
Qed.

Lemma stays_cleanup : stays cleanup.
Proof.
  intros s (Hw&_). split; [by apply keeps_cleanup|]. split.
  - intros p r Hp. destruct (cleanup_fields s) as (E&_).
    by rewrite E, lookup_empty in Hp.
  - destruct (cleanup_fields s) as (E1&_&E3&E4&E5&E6&_).
    unfold inSync. rewrite E1, E3, E4, E5, E6, !dom_empty_L. done.
Qed.

Lemma stays_setLocalStream (v : option Stream) : stays (setLocalStream v).
Proof. intros s H. exact H. Qed.

Lemma stays_ontrack (r : nat) (st : option Stream) (a : bool) (n : nat) :
  stays (ontrack r st a n).
Proof. intros s H. unfold ontrack. by repeat case_match. Qed.

Lemma stays_onicecandidate (r : nat) (c : option Candidate) :
  stays (onicecandidate r c).
Proof.
  intros s H. unfold onicecandidate. repeat case_match; try done.
  by apply stays_sendSignalingMessage.
Qed.

Lemma stays_tick (dt : Z) :
  stays (λ s, if 0 <=? dt then setNow (now s + dt) s else s).
Proof. intros s H. destruct (0 <=? dt); exact H. Qed.

Lemma stays_startLocalStream (st : Stream) : stays (startLocalStream st).
Proof. intros s H. by apply stays_setLocalStream, stays_cleanup. Qed.

Lemma stays_exec (e : Event) : stays (exec e).
Proof.
  destruct e; cbn [exec].
  - apply stays_startLocalStream.
  - apply stays_establishConnections.
  - apply stays_initiateCall.
  - apply stays_pollSignalingMessages.
  - apply stays_connStateEvent.
  - apply stays_iceStateEvent.
  - apply stays_ontrack.
  - apply stays_onicecandidate.
  - apply stays_tick.
  - apply stays_fire.
  - apply stays_cleanup.
Qed.

Lemma consistent_initial (g p : option string) : consistent (initial g p).
Proof.
  split; [apply wellFormed_initial|]. split.
  - intros q r H. cbn in H. by rewrite lookup_empty in H.
  - unfold inSync. cbn. by rewrite !dom_empty_L.
Qed.

Lemma consistent_reachable (g p : option string) (s : Hook) :
  reachable g p s → consistent s.
Proof.
  intros [es ->].
  assert (H : ∀ s0, consistent s0 → consistent (run es s0)).
  { induction es as [|e es IH]; intros s0 H0; cbn; [done|].
    by apply IH, stays_exec. }
  apply H, consistent_initial.
Qed.

(** X12. In every state the hook can reach the refs keyed by peer are in
    step: the connection map, the role map and the recorded-state map
    have the same keys; a peer with a pending offer or in the established
    set has a map entry; every map entry is a connection object made for
    that peer and not closed; and no attempt count is on record. *)
Theorem refs_stay_in_step (g p : option string) (s : Hook) :
  reachable g p s →
  dom (isInitiator s) = dom (peerConnections s)
  ∧ dom (connectionStates s) = dom (peerConnections s)
  ∧ pendingOffers s ⊆ dom (peerConnections s)
  ∧ establishedConnections s ⊆ dom (peerConnections s)
  ∧ (∀ q r, peerConnections s !! q = Some r →
            ∃ pc, heap s !! r = Some pc ∧ pcPeer pc = q
                  ∧ connectionState pc ≠ CClosed)
  ∧ connectionAttempts s = ∅.
Proof.
  intros Hr. destruct (consistent_reachable g p s Hr) as (_&Hl&H1&H2&H3&H4).
  repeat split; try done. by apply (attempts_always_empty g p).
Qed.

Lemma refs_stay_in_step_witness :
  reachable (Some "g") (Some "alice") aliceCallsTwo
  ∧ dom (isInitiator aliceCallsTwo) = dom (peerConnections aliceCallsTwo).
Proof.
  split; [exact aliceCallsTwo_reachable|].
  exact (proj1 (refs_stay_in_step (Some "g") (Some "alice") aliceCallsTwo
                  aliceCallsTwo_reachable)).
Defined.

(* ===================================================================== *)
(* 17. A closed connection is never used again                           *)
(* ===================================================================== *)

Lemma frozen_refl (s : Hook) : frozen s s.
Proof. by intros r pc. Qed.

Lemma frozen_trans (s1 s2 s3 : Hook) :
  frozen s1 s2 → frozen s2 s3 → frozen s1 s3.
Proof. intros H1 H2 r pc Hpc Hc. apply H2; [|done]. by apply H1. Qed.

Lemma frozen_frame (s s' : Hook) : heap s' = heap s → frozen s s'.
Proof. intros E r pc. by rewrite E. Qed.

(** A method on an object that is not closed. *)
Lemma frozen_alter (F : PC → PC) (r : nat) (s s' : Hook) :
  (∀ pc, heap s !! r = Some pc → connectionState pc ≠ CClosed) →
  heap s' = alter F r (heap s) → frozen s s'.
Proof.
  intros Hlive E r' pc Hpc Hc. rewrite E.
  rewrite list_lookup_alter_ne; [done|]. intros <-. by eapply Hlive.
Qed.

Lemma poolLive_entry (s : Hook) (p : string) (r : nat) :
  poolLive s → peerConnections s !! p = Some r →
  ∀ pc, heap s !! r = Some pc → connectionState pc ≠ CClosed.
Proof.
  intros Hl Hp pc Hpc. destruct (Hl p r Hp) as (pc'&Hpc'&_&Hlive). congruence.
Qed.

Lemma frozen_removePeerConnection (p : string) (s : Hook) :
  poolLive s → frozen s (removePeerConnection p s).
Proof.
  intros Hl. destruct (removePeerConnection_fields p s) as (_&_&_&_&A5&_).
  cbv zeta in A5.
  destruct (peerConnections s !! p) as [r|] eqn:E; cbn in A5.
  - eapply frozen_alter; [|exact A5]. by eapply poolLive_entry.
  - by apply frozen_frame.
Qed.

Lemma spares_removePeerConnection (p : string) : spares (removePeerConnection p).
Proof. intros s (_&Hl&_). by apply frozen_removePeerConnection. Qed.

Lemma frozen_setTimeout (delay : Z) (cb : Callback) (s s' : Hook) :
  frozen s s' → frozen s (setTimeout delay cb s').
Proof. intros H r pc. exact (H r pc). Qed.

Lemma poolLive_frame (s s' : Hook) :
  heap s' = heap s → peerConnections s' = peerConnections s →
  poolLive s → poolLive s'.
Proof. intros Eh Em H p r. rewrite Eh, Em. apply H. Qed.

Lemma frozen_handleConnectionFailure (p : string) (s : Hook) :
  poolLive s → frozen s (handleConnectionFailure p s).
Proof.
  intros Hl. unfold handleConnectionFailure.
  destruct (_ && _); [|by apply frozen_removePeerConnection].
  apply frozen_setTimeout.
  set (s1 := updConnectionAttempts _ s).
  assert (Hl1 : poolLive s1) by (by apply (poolLive_frame s)).
  assert (F1 : frozen s s1) by (by apply frozen_frame).
  eapply frozen_trans; [exact F1|]. by apply frozen_removePeerConnection.
Qed.

Lemma frozen_createPeerConnection (p : string) (i : bool) (s : Hook) :
  poolLive s → frozen s (createPeerConnection p i s).2.
Proof.
  intros Hl. destruct (hasWorking s p) eqn:Hw.
  - unfold createPeerConnection. unfold hasWorking in Hw.
    destruct (peerConnections s !! p) as [r0|]; cbn in Hw; [|done].
    rewrite Hw. apply frozen_refl.
  - intros r pc Hpc Hc. rewrite createPeerConnection_old; try done.
    + case_decide as E; [|done].
      destruct (poolLive_entry s p r Hl E pc Hpc Hc).
    + apply lookup_lt_Some in Hpc. lia.
Qed.

Lemma gentle_id : gentle id.
Proof. by intros pc. Qed.

Lemma gentle_compose (f g : PC → PC) : gentle f → gentle g → gentle (f ∘ g).
Proof.
  intros Hf Hg pc. destruct (Hf (g pc)) as [F1 F2], (Hg pc) as [G1 G2]. cbn.
  split; [congruence|]. by rewrite F2.
Qed.

Lemma blockOn_ret {A : Type} (r : nat) (a : A) : blockOn r (mret a).
Proof.
  intros s. split; [done|]. exists id. split; [apply gentle_id|].
  cbn. by rewrite list_alter_id.
Qed.

Lemma blockOn_throw {A : Type} (r : nat) : blockOn r (@throw A).
Proof.
  intros s. split; [done|]. exists id. split; [apply gentle_id|].
  cbn. by rewrite list_alter_id.
Qed.

Lemma blockOn_bind {A B : Type} (r : nat) (t : Async A) (k : A → Async B) :
  blockOn r t → (∀ a, blockOn r (k a)) → blockOn r (t ≫= k).
Proof.
  intros Ht Hk s. unfold mbind, Async_bind.
  destruct (Ht s) as (E1&F&HF&E2).
  destruct (t s) as [s' [a|]]; cbn in *; [|by eauto].
  destruct (Hk a s') as (E3&G&HG&E4). split; [congruence|].
  exists (G ∘ F). split; [by apply gentle_compose|].
  by rewrite E4, E2, list_alter_alter_eq.
Qed.

Lemma blockOn_await {A : Type} (r : nat) (env : Env) (k : nat) (t : Async A) :
  blockOn r t → blockOn r (await env k t).
Proof. intros Ht. unfold await. case_bool_decide; [apply blockOn_throw|done]. Qed.

Lemma blockOn_onPc (r : nat) (f : PC → PC) :
  gentle f → blockOn r (act (onPc r f)).
Proof. intros Hf s. split; [done|]. by exists f. Qed.

Lemma blockOn_quiet (r : nat) (f : Hook → Hook) :
  (∀ s, heap (f s) = heap s ∧ peerConnections (f s) = peerConnections s) →
  blockOn r (act f).
Proof.
  intros Hf s. destruct (Hf s) as [E1 E2]. split; [done|].
  exists id. split; [apply gentle_id|]. cbn. by rewrite E1, list_alter_id.
Qed.

Lemma blockOn_send (r : nat) (k : MsgKind) (to : string) (pl : Payload) :
  blockOn r (act (sendSignalingMessage k to pl)).
Proof.
  apply blockOn_quiet. intros s. unfold sendSignalingMessage.
  by destruct (negb _ || negb _).
Qed.

Lemma blockOn_createOffer (env : Env) (r : nat) : blockOn r (createOffer env r).
Proof. intros s. split; [done|]. exists (pcLog OpCreateOffer). split; [|done].
  apply gentle_pcLog. Qed.

Lemma blockOn_createAnswer (env : Env) (r : nat) :
  blockOn r (createAnswer env r).
Proof. intros s. split; [done|]. exists (pcLog OpCreateAnswer). split; [|done].
  apply gentle_pcLog. Qed.

(** A try block on the object at [r], which is not closed, with a
    handler that spares closed connections. *)
Lemma frozen_tryCatch (r : nat) (body : Async unit) (handler : Hook → Hook)
    (s : Hook) :
  blockOn r body → staysAsync body → spares handler → consistent s →
  (∀ pc, heap s !! r = Some pc → connectionState pc ≠ CClosed) →
  frozen s (tryCatch body handler s).
Proof.
  intros Hb Hst Hh Hc Hlive. unfold tryCatch.
  destruct (Hb s) as (E1&F&HF&E2). specialize (Hst s Hc).
  assert (H1 : frozen s (body s).1) by (by eapply frozen_alter).
  destruct (body s) as [s' [a|]]; cbn in *; [done|].
  eapply frozen_trans; [exact H1|]. by apply Hh.
Qed.

Lemma callBlock_on (env : Env) (r : nat) (p : string) :
  blockOn r (offer ← await env 0 (createOffer env r);
             await env 1 (act (onPc r (pcSetLocal offer)));;
             act (sendSignalingMessage KOffer p (PDesc offer)))
  ∧ staysAsync (offer ← await env 0 (createOffer env r);
                await env 1 (act (onPc r (pcSetLocal offer)));;
                act (sendSignalingMessage KOffer p (PDesc offer))).
Proof.
  split.
  - apply blockOn_bind; [apply blockOn_await, blockOn_createOffer|].
    intros offer. apply blockOn_bind.
    + apply blockOn_await, blockOn_onPc, gentle_pcSetLocal.
    + intros _. apply blockOn_send.
  - apply staysAsync_bind; [apply staysAsync_await, staysAsync_createOffer|].
    intros offer. apply staysAsync_bind.
    + apply staysAsync_await, staysAsync_act, stays_onPc, gentle_pcSetLocal.
    + intros _. apply staysAsync_act, stays_sendSignalingMessage.
Qed.

Lemma offerBlock_on (env : Env) (r : nat) (from : string) (offer : Sdp) :
  blockOn r (await env 0 (act (onPc r (pcSetRemote offer)));;
             answer ← await env 1 (createAnswer env r);
             await env 2 (act (onPc r (pcSetLocal answer)));;
             act (sendSignalingMessage KAnswer from (PDesc answer)))
  ∧ staysAsync (await env 0 (act (onPc r (pcSetRemote offer)));;
                answer ← await env 1 (createAnswer env r);
                await env 2 (act (onPc r (pcSetLocal answer)));;
                act (sendSignalingMessage KAnswer from (PDesc answer))).
Proof.
  split.
  - apply blockOn_bind.
    { apply blockOn_await, blockOn_onPc, gentle_pcSetRemote. }
    intros _. apply blockOn_bind; [apply blockOn_await, blockOn_createAnswer|].
    intros answer. apply blockOn_bind.
    + apply blockOn_await, blockOn_onPc, gentle_pcSetLocal.
    + intros _. apply blockOn_send.
  - apply staysAsync_bind.
    { apply staysAsync_await, staysAsync_act, stays_onPc, gentle_pcSetRemote. }
    intros _. apply staysAsync_bind;
      [apply staysAsync_await, staysAsync_createAnswer|].
    intros answer. apply staysAsync_bind.
    + apply staysAsync_await, staysAsync_act, stays_onPc, gentle_pcSetLocal.
    + intros _. apply staysAsync_act, stays_sendSignalingMessage.
Qed.

Lemma answerBlock_on (env : Env) (r : nat) (from : string) (answer : Sdp) :
  blockOn r (await env 0 (act (onPc r (pcSetRemote answer)));;
             act (updPendingOffers (λ p, p ∖ {[from]})))
  ∧ staysAsync (await env 0 (act (onPc r (pcSetRemote answer)));;
                act (updPendingOffers (λ p, p ∖ {[from]}))).
Proof.
  split.
  - apply blockOn_bind.
    { apply blockOn_await, blockOn_onPc, gentle_pcSetRemote. }
    intros _. by apply blockOn_quiet.
  - apply staysAsync_bind.
    { apply staysAsync_await, staysAsync_act, stays_onPc, gentle_pcSetRemote. }
    intros _. apply staysAsync_act, stays_dropPending.
Qed.

(** The object [createPeerConnection] returns is never a closed one. *)
Lemma createPeerConnection_live (p : string) (i : bool) (s : Hook) :
  poolLive s →
  ∀ pc, heap (createPeerConnection p i s).2 !! (createPeerConnection p i s).1
        = Some pc → connectionState pc ≠ CClosed.
Proof.
  intros Hl pc. destruct (hasWorking s p) eqn:Hw.
  - unfold createPeerConnection. unfold hasWorking in Hw.
    destruct (peerConnections s !! p) as [r0|] eqn:E; cbn in Hw; [|done].
    rewrite Hw. cbn. by eapply poolLive_entry.
  - destruct (createPeerConnection_fields p i s Hw)
      as (Er&_&_&_&_&_&_&_&_&_&_&_&_&_&(pc'&Hpc'&_&N2&_)&_).
    cbv zeta in *. rewrite Hpc'. intros [= <-]. by rewrite N2.
Qed.

Lemma spares_initiateCall (env : Env) (p : string) : spares (initiateCall env p).
Proof.
  intros s H. unfold initiateCall.
  destruct (negb _ || negb _ || negb _); [apply frozen_refl|].
  case_bool_decide; [apply frozen_refl|].
  destruct (from_option _ _ _) eqn:Hw; [apply frozen_refl|].
  set (s1 := updPendingOffers (λ q, q ∪ {[p]}) s).
  pose proof (consistent_create p true s s1 H Hw) as Hc.
  assert (Hl1 : poolLive s1) by apply H.
  pose proof (frozen_createPeerConnection p true s1 Hl1) as Hf.
  pose proof (createPeerConnection_live p true s1 Hl1) as Hlive.
  destruct (createPeerConnection p true s1) as [r s2]. cbn [fst snd] in *.
  destruct (callBlock_on env r p) as [B1 B2].
  eapply frozen_trans; [exact Hf|].
  assert (Hc2 : consistent s2).
  { apply Hc; try done; unfold s1; cbn; set_solver. }
  apply (frozen_tryCatch r); try done.
  intros s3 H3. eapply frozen_trans.
  - by apply (frozen_frame s3 (updPendingOffers (λ q, q ∖ {[p]}) s3)).
  - apply spares_removePeerConnection. by apply stays_dropPending.
Qed.

Lemma spares_handleOffer (env : Env) (from : string) (offer : Sdp) :
  spares (handleOffer env from offer).
Proof.
  intros s H. unfold handleOffer.
  destruct (negb _ || negb _); [apply frozen_refl|].
  destruct (from_option _ _ _) eqn:Hw; [apply frozen_refl|].
  destruct (_ && _); [apply frozen_refl|].
  assert (Hc : consistent (createPeerConnection from false s).2).
  { apply (consistent_create from false s s); try done. set_solver. }
  assert (Hl : poolLive s) by apply H.
  pose proof (frozen_createPeerConnection from false s Hl) as Hf.
  pose proof (createPeerConnection_live from false s Hl) as Hlive.
  destruct (createPeerConnection from false s) as [r s1]. cbn [fst snd] in *.
  destruct (offerBlock_on env r from offer) as [B1 B2].
  eapply frozen_trans; [exact Hf|].
  apply (frozen_tryCatch r); try done. apply spares_removePeerConnection.
Qed.

Lemma spares_handleAnswer (env : Env) (from : string) (answer : Sdp) :
  spares (handleAnswer env from answer).
Proof.
  intros s H. unfold handleAnswer.
  destruct (awaitsAnswer s from) as [r|] eqn:E; [|apply frozen_refl].
  destruct (answerBlock_on env r from answer) as [B1 B2].
  apply (frozen_tryCatch r); try done; [apply spares_removePeerConnection|].
  unfold awaitsAnswer in E.
  destruct (peerConnections s !! from) as [r0|] eqn:Em; cbn in E; [|done].
  destruct (heap s !! r0) as [pc0|] eqn:Eh; cbn in E; [|done].
  case_bool_decide; [|done]. injection E as <-.
  by eapply poolLive_entry; [apply H|].
Qed.

Lemma spares_handleIceCandidate (from : string) (c : Candidate) :
  spares (handleIceCandidate from c).
Proof.
  intros s H. unfold handleIceCandidate.
  destruct (hasRemoteDescription s from) as [r|] eqn:E;
    [|by apply frozen_frame].
  eapply (frozen_alter _ r); [|reflexivity].
  unfold hasRemoteDescription in E.
  destruct (peerConnections s !! from) as [r0|] eqn:Em; cbn in E; [|done].
  destruct (heap s !! r0) as [pc0|] eqn:Eh; cbn in E; [|done].
  case_bool_decide; [|done]. injection E as <-.
  by eapply poolLive_entry; [apply H|].
Qed.

Lemma spares_handleSignalingMessage (env : Env) (msg : Message) :
  spares (handleSignalingMessage env msg).
Proof.
  intros s H. unfold handleSignalingMessage.
  case_bool_decide; [apply frozen_refl|].
  destruct msg.
  - by apply spares_handleOffer.
  - by apply spares_handleAnswer.
  - by apply spares_handleIceCandidate.
  - apply frozen_refl.
Qed.

Lemma spares_pollSignalingMessages (msgs : list (Env * Message)) :
  spares (pollSignalingMessages msgs).
Proof.
  intros s H. unfold pollSignalingMessages.
  destruct (negb _ || negb _); [apply frozen_refl|].
  revert s H. induction msgs as [|m msgs IH]; intros s H; cbn;
    [apply frozen_refl|].
  eapply frozen_trans; [by apply (spares_handleSignalingMessage m.1 m.2)|].
  by apply IH, stays_handleSignalingMessage.
Qed.

Lemma poolLive_connState (r : nat) (st : ConnState) (s : Hook) :
  st ≠ CClosed → poolLive s → poolLive (onPc r (pcSetConnState st) s).
Proof.
  intros Hst Hl q r' Hq. destruct (Hl q r' Hq) as (pc'&Hpc'&Hp'&Hl'). cbn.
  destruct (decide (r = r')) as [<-|Hne].
  - rewrite list_lookup_alter_eq, Hpc'. eexists. split; [done|].
    split; [done|]. by cbn.
  - exists pc'. by rewrite list_lookup_alter_ne.
Qed.

Lemma frozen_onconnectionstatechange (r : nat) (s : Hook) :
  poolLive s → frozen s (onconnectionstatechange r s).
Proof.
  intros Hl. unfold onconnectionstatechange.
  destruct (heap s !! r) as [pc|]; [|apply frozen_refl].
  case_bool_decide; [|apply frozen_refl].
  destruct (connectionState pc); try by apply frozen_frame.
  set (s1 := updEstablished _ _).
  assert (Hl1 : poolLive s1) by (by apply (poolLive_frame s)).
  assert (F1 : frozen s s1) by (by apply frozen_frame).
  eapply frozen_trans; [exact F1|]. by apply frozen_handleConnectionFailure.
Qed.

Lemma spares_connStateEvent (r : nat) (st : ConnState) :
  spares (connStateEvent r st).
Proof.
  intros s (_&Hl&_). unfold connStateEvent.
  destruct (heap s !! r) as [pc|] eqn:Hr; [|apply frozen_refl].
  destruct (bool_decide (connectionState pc = CClosed)) eqn:Hc;
    [apply frozen_refl|].
  destruct (bool_decide (st = CClosed)) eqn:Hst; [apply frozen_refl|].
  cbn [orb]. apply bool_decide_eq_false in Hc, Hst.
  set (s0 := onPc r (pcSetConnState st) s).
  assert (F0 : frozen s s0).
  { eapply (frozen_alter _ r); [|reflexivity]. intros pc' Hpc'. congruence. }
  eapply frozen_trans; [exact F0|].
  by apply frozen_onconnectionstatechange, poolLive_connState.
Qed.

Lemma spares_iceStateEvent (r : nat) (ice : IceState) :
  spares (iceStateEvent r ice).
Proof.
  intros s (_&Hl&_). unfold iceStateEvent, oniceconnectionstatechange.
  destruct (heap s !! r) as [pc|]; [|apply frozen_refl].
  case_bool_decide; [apply frozen_refl|].
  destruct ice; try apply frozen_refl.
  by apply frozen_handleConnectionFailure.
Qed.

Lemma spares_runCallback (env : Env) (cb : Callback) :
  spares (runCallback env cb).
Proof.
  intros s H. destruct cb; cbn.
  - case_bool_decide; [|apply frozen_refl].
    apply frozen_handleConnectionFailure, H.
  - destruct (_ && _); [|apply frozen_refl]. by apply spares_initiateCall.
  - destruct (from_option _ _ _); [apply frozen_refl|].
    by apply spares_initiateCall.
Qed.

Lemma spares_fire (env : Env) (i : nat) : spares (fire env i).
Proof.
  intros s H. unfold fire. destruct (timers s !! i) as [t|]; [|apply frozen_refl].
  destruct (due t <=? now s); [|apply frozen_refl].
  set (s1 := updTimers (delete i) s).
  assert (H1 : consistent s1) by exact H.
  assert (F1 : frozen s s1) by (by apply frozen_frame).
  eapply frozen_trans; [exact F1|]. by apply spares_runCallback.
Qed.

Lemma closeAll_spares (l : list (string * nat)) (h : list PC) (r : nat) :
  r ∉ l.*2 → foldr (λ e h, alter pcClose e.2 h) h l !! r = h !! r.
Proof.
  induction l as [|e l IH]; cbn; [done|].
  rewrite not_elem_of_cons. intros [Hne Hl].
  rewrite list_lookup_alter_ne by done. by apply IH.
Qed.

Lemma spares_cleanup : spares cleanup.
Proof.
  intros s (_&Hl&_) r pc Hpc Hc.
  change (heap (cleanup s))
    with (foldr (λ e h, alter pcClose e.2 h) (heap s)
            (map_to_list (peerConnections s))).
  rewrite closeAll_spares; [done|].
  intros Hin. apply list_elem_of_fmap in Hin as ([p r']&->&Hin).
  apply elem_of_map_to_list in Hin. cbn in Hc.
  by destruct (poolLive_entry s p r' Hl Hin pc Hpc).
Qed.

Lemma frozen_setLocalStream (v : option Stream) (s s' : Hook) :
  frozen s s' → frozen s (setLocalStream v s').
Proof. intros H r pc. exact (H r pc). Qed.

Lemma spares_exec (e : Event) : spares (exec e).
Proof.
  destruct e; intros s H; cbn [exec].
  - by apply frozen_setLocalStream, spares_cleanup.
  - apply frozen_frame. unfold establishConnections.
    destruct (negb _ || negb _ || negb _ || _); [done|].
    by rewrite scheduleCalls_plan.
  - by apply spares_initiateCall.
  - by apply spares_pollSignalingMessages.
  - by apply spares_connStateEvent.
  - by apply spares_iceStateEvent.
  - apply frozen_frame. unfold ontrack. by repeat case_match.
  - apply frozen_frame. unfold onicecandidate. repeat case_match; try done.
    unfold sendSignalingMessage. by destruct (negb _ || negb _).
  - apply frozen_frame. by destruct (0 <=? dt).
  - by apply spares_fire.
  - by apply spares_cleanup.
Qed.

Lemma reachable_run (g p : option string) (es : list Event) (s : Hook) :
  reachable g p s → reachable g p (run es s).
Proof.
  intros [es0 ->]. exists (es0 ++ es). unfold run. by rewrite fold_left_app.
Qed.

(** X13. A closed connection is never used again: from any state the
    hook can reach, however it runs on, every connection object that is
    closed stays exactly as it is. No method is called on it, its fields
    do not change, and it is never reopened. *)
Theorem closed_connection_is_never_touched (g p : option string)
    (es : list Event) (s : Hook) (r : nat) (pc : PC) :
  reachable g p s → heap s !! r = Some pc → connectionState pc = CClosed →
  heap (run es s) !! r = Some pc.
Proof.
  intros Hr. apply consistent_reachable in Hr. revert s Hr.
  induction es as [|e es IH]; intros s Hc Hpc Hcl; cbn; [done|].
  apply IH; [by apply stays_exec| |done]. by apply spares_exec.
Qed.

Lemma closed_connection_is_never_touched_witness :
  ∃ pc, reachable (Some "g") (Some "alice") failsFourTimes
        ∧ heap failsFourTimes !! 0%nat = Some pc
        ∧ connectionState pc = CClosed
        ∧ heap (run [EvPoll [(allOk 0, MsgIce "bob" 11%nat)]] failsFourTimes)
            !! 0%nat = Some pc.
Proof.
  assert (H : ∃ pc, reachable (Some "g") (Some "alice") failsFourTimes
                    ∧ heap failsFourTimes !! 0%nat = Some pc
                    ∧ connectionState pc = CClosed).
  { eexists. split; [apply reachable_run, aliceCallsBob_reachable|].
    split; by vm_compute. }
  destruct H as (pc&H1&H2&H3). exists pc.
  split; [exact H1|]. split; [exact H2|]. split; [exact H3|].
  exact (closed_connection_is_never_touched (Some "g") (Some "alice")
           [EvPoll [(allOk 0, MsgIce "bob" 11%nat)]] failsFourTimes 0 pc
           H1 H2 H3).
Defined.

(* ===================================================================== *)
(* 18. The requests of the hook                                          *)
(* ===================================================================== *)

Lemma posts_refl (s : Hook) : posts s s.
Proof. split; [done|]. split; [done|]. exists []. by rewrite app_nil_r. Qed.

Lemma posts_frame (s s' : Hook) :
  gameId s' = gameId s → playerId s' = playerId s → sent s' = sent s →
  posts s s'.
Proof.
  intros G P S. split; [done|]. split; [done|]. exists [].
  by rewrite app_nil_r.
Qed.

Lemma posts_trans (s1 s2 s3 : Hook) : posts s1 s2 → posts s2 s3 → posts s1 s3.
Proof.
  intros (G1&P1&l1&E1&F1) (G2&P2&l2&E2&F2).
  split; [congruence|]. split; [congruence|]. exists (l1 ++ l2). split.
  - by rewrite E2, E1, app_assoc.
  - apply Forall_app. split; [done|]. by rewrite <- G1, <- P1.
Qed.

Lemma posting_onPc (r : nat) (f : PC → PC) : posting (onPc r f).
Proof. intros s. by apply posts_frame. Qed.


Lemma posting_sendSignalingMessage (k : MsgKind) (to : string) (pl : Payload) :
  typedAs k pl → posting (sendSignalingMessage k to pl).
Proof.
  intros Ht s. unfold sendSignalingMessage.
  destruct (truthy (gameId s)) eqn:G; [|apply posts_refl].
  destruct (truthy (playerId s)) eqn:P; [|apply posts_refl].
  cbn [negb orb]. split; [done|]. split; [done|]. eexists. split; [done|].
  apply Forall_singleton. by repeat split.
Qed.

Lemma posting_removePeerConnection (p : string) :
  posting (removePeerConnection p).
Proof.
  intros s.
  destruct (removePeerConnection_fields p s)
    as (_&G&P&_&_&_&_&_&_&_&_&_&_&_&S).
  by apply posts_frame.
Qed.


Lemma posting_createPeerConnection (p : string) (i : bool) (s : Hook) :
  posts s (createPeerConnection p i s).2.
Proof.
  assert (Ho : ∀ s, posts s (openPeerConnection p i s).2).
  { intros s0.
    destruct (openPeerConnection_frame p i s0) as (_&G&P&S&_).
    by apply posts_frame. }
  unfold createPeerConnection.
  destruct (peerConnections s !! p) as [r0|]; [|apply Ho].
  destruct (pcWorking s r0); [apply posts_refl|].
  eapply posts_trans; [apply (posting_onPc r0 pcClose)|apply Ho].
Qed.

Lemma postingAsync_bind {A B : Type} (Q : A → Prop) (R : B → Prop)
    (t : Async A) (k : A → Async B) :
  postingAsync Q t → (∀ a, Q a → postingAsync R (k a)) →
  postingAsync R (t ≫= k).
Proof.
  intros Ht Hk s. unfold mbind, Async_bind.
  destruct (Ht s) as [H1 H2]. destruct (t s) as [s1 [a|]]; cbn in *.
  - destruct (Hk a (H2 a eq_refl) s1) as [H3 H4].
    split; [by eapply posts_trans|done].
  - done.
Qed.

Lemma postingAsync_await {A : Type} (Q : A → Prop) (env : Env) (k : nat)
    (t : Async A) :
  postingAsync Q t → postingAsync Q (await env k t).
Proof.
  intros Ht. unfold await. case_bool_decide; [|done].
  intros s. split; [apply posts_refl|done].
Qed.

Lemma postingAsync_act (f : Hook → Hook) :
  posting f → postingAsync (λ _, True) (act f).
Proof. intros Hf s. split; [apply Hf|done]. Qed.

Lemma postingAsync_createOffer (env : Env) (r : nat) :
  postingAsync (λ d, sdpType d = SdpOffer) (createOffer env r).
Proof.
  intros s. split; [apply posting_onPc|].
  intros a [= <-]. done.
Qed.


Lemma posting_tryCatch {Q : unit → Prop} (body : Async unit)
    (handler : Hook → Hook) :
  postingAsync Q body → posting handler → posting (tryCatch body handler).
Proof.
  intros Hb Hh s. unfold tryCatch. destruct (Hb s) as [H _].
  destruct (body s) as [s1 [[]|]]; cbn in *; [done|].
  eapply posts_trans; [exact H|apply Hh].
Qed.

Lemma posting_initiateCall (env : Env) (p : string) :
  posting (initiateCall env p).
Proof.
  intros s. unfold initiateCall.
  case_match; [apply posts_refl|]. case_match; [apply posts_refl|].
  case_match; [apply posts_refl|].
  pose proof (posting_createPeerConnection p true
                (updPendingOffers (λ q, q ∪ {[p]}) s)) as Hc.
  destruct (createPeerConnection p true _) as [r s1]. cbn in Hc.
  eapply posts_trans; [exact Hc|].
  apply (posting_tryCatch (Q := λ _, True)).
  - eapply postingAsync_bind.
    { apply postingAsync_await, postingAsync_createOffer. }
    intros offer Ho. eapply postingAsync_bind.
    { apply postingAsync_await, postingAsync_act, posting_onPc. }
    intros _ _. by apply postingAsync_act, posting_sendSignalingMessage.
  - intros s0. eapply posts_trans; [|apply posting_removePeerConnection].
    by apply posts_frame.
Qed.























Lemma handleAll_app (m1 m2 : list (Env * Message)) (s : Hook) :
  fold_left (λ s m, handleSignalingMessage m.1 m.2 s) (m1 ++ m2) s
  = fold_left (λ s m, handleSignalingMessage m.1 m.2 s) m2
      (fold_left (λ s m, handleSignalingMessage m.1 m.2 s) m1 s).
Proof. apply fold_left_app. Qed.








(* ===================================================================== *)
(* 19. The relay                                                         *)
(* ===================================================================== *)

Section RelayFacts.

Context {T F P : Type}.
Implicit Types (D : gmap string (list (Stored T F P))).

Lemma store_lookup (ty : option T) (g : option string) (f : option F)
    (to : option string) (pl : option P) (t : Z) D (k : string) :
  store ty g f to pl t D !! k
  = if bool_decide (k = mailboxKey g to)
    then Some (mailbox D k ++ [{| stType := ty; stFrom := f; stPayload := pl;
                                  timestamp := t |}])
    else D !! k.
Proof.
  unfold store, mailbox. cbv zeta. destruct (decide (k = mailboxKey g to)) as [->|Hk].
  - rewrite (bool_decide_eq_true_2 (mailboxKey g to = mailboxKey g to)) by done.
    case_bool_decide as Hin.
    + destruct Hin as [l Hl]. by rewrite lookup_alter_eq, Hl.
    + rewrite lookup_alter_eq, lookup_insert_eq.
      apply eq_None_not_Some in Hin. by rewrite Hin.
  - rewrite (bool_decide_eq_false_2 (k = mailboxKey g to)) by done.
    rewrite lookup_alter_ne by done.
    case_bool_decide; [done|]. by rewrite lookup_insert_ne.
Qed.

Lemma mailbox_store (ty : option T) (g : option string) (f : option F)
    (to : option string) (pl : option P) (t : Z) D (k : string) :
  mailbox (store ty g f to pl t D) k
  = if bool_decide (k = mailboxKey g to)
    then mailbox D k ++ [{| stType := ty; stFrom := f; stPayload := pl;
                            timestamp := t |}]
    else mailbox D k.
Proof.
  unfold mailbox at 1. rewrite store_lookup. by case_bool_decide.
Qed.

Lemma mailbox_delete_eq D (k : string) : mailbox (delete k D) k = [].
Proof. unfold mailbox. by rewrite lookup_delete_eq. Qed.

Lemma mailbox_delete_ne D (k k' : string) :
  k ≠ k' → mailbox (delete k D) k' = mailbox D k'.
Proof. intros H. unfold mailbox. by rewrite lookup_delete_ne. Qed.


Lemma handler_get (g p : option string) (t : Z) D :
  handler (getOf g p) t D
  = (respond 200 (MessagesOf (mailbox D (mailboxKey g p))),
     delete (mailboxKey g p) D).
Proof. reflexivity. Qed.

(** The mailbox of a key after a run of POSTs to it. *)
Lemma serve_posts (g to : option string)
    (ms : list (option T * option F * option P * Z)) D :
  let D' := serve (map (λ m, (postOf g to m.1, m.2)) ms) D in
  mailbox D' (mailboxKey g to)
  = mailbox D (mailboxKey g to)
    ++ map (λ m, {| stType := m.1.1.1; stFrom := m.1.1.2;
                    stPayload := m.1.2; timestamp := m.2 |}) ms
  ∧ ∀ k, k ≠ mailboxKey g to → D' !! k = D !! k.
Proof.
  revert D. induction ms as [|m ms IH]; intros D; cbn.
  - by rewrite app_nil_r.
  - destruct (IH (store m.1.1.1 g m.1.1.2 to m.1.2 m.2 D)) as [H1 H2].
    split.
    + etrans; [exact H1|]. rewrite mailbox_store.
      rewrite bool_decide_eq_true_2 by done. by rewrite <- app_assoc.
    + intros k Hk. etrans; [exact (H2 k Hk)|]. rewrite store_lookup.
      by rewrite bool_decide_eq_false_2.
Qed.

(** X16. The relay delivers in order and once. After any number of
    well-formed POSTs to one mailbox, a GET of that mailbox is answered
    200 with what the mailbox held before followed by the posted
    messages in the order of their POSTs, each with the type, sender and
    payload of its request and the time of its arrival; the GET empties
    the mailbox, so a second GET is answered 200 with no message. No
    other mailbox is changed by any of this. *)
Theorem relay_delivers_in_order_and_once (g p : option string)
    (ms : list (option T * option F * option P * Z)) (t t' : Z) D :
  let key := mailboxKey g p in
  let D1 := serve (map (λ m, (postOf g p m.1, m.2)) ms) D in
  let D2 := (handler (getOf g p) t D1).2 in
  (handler (getOf g p) t D1).1
  = respond 200 (MessagesOf
      (mailbox D key
       ++ map (λ m, {| stType := m.1.1.1; stFrom := m.1.1.2;
                       stPayload := m.1.2; timestamp := m.2 |}) ms))
  ∧ (handler (getOf g p) t' D2).1 = respond 200 (MessagesOf [])
  ∧ (handler (getOf g p) t' D2).2 = D2
  ∧ ∀ k, k ≠ key → D2 !! k = D !! k.
Proof.
  intros key D1 D2. destruct (serve_posts g p ms D) as [H1 H2].
  fold D1 in H1, H2. subst D2 key. rewrite !handler_get. cbn [fst snd].
  split; [by rewrite H1|]. split; [|split].
  - unfold mailbox. by rewrite lookup_delete_eq.
  - apply delete_delete_eq.
  - intros k Hk. rewrite lookup_delete_ne by done. by apply H2.
Qed.

(** X17. A request changes at most the mailbox it addresses: if the
    entry of a key differs after a request, the request was a POST whose
    body gives that key, or a GET whose query gives it. *)
Theorem relay_touches_one_mailbox (event : Request T F P) (t : Z) D
    (k : string) :
  (handler event t D).2 !! k ≠ D !! k →
  (httpMethod event = "POST" ∧ k = bodyKey (body event))
  ∨ (httpMethod event = "GET" ∧ k = queryKey event).
Proof.
  unfold handler. intros H.
  destruct (String.eqb (httpMethod event) "OPTIONS"); [done|].
  destruct (String.eqb (httpMethod event) "POST") eqn:EP.
  - apply String.eqb_eq in EP. left. split; [done|].
    destruct (body event) as [| | |ty g f to pl]; cbn in *; try done;
      rewrite store_lookup in H; case_bool_decide; done.
  - destruct (String.eqb (httpMethod event) "GET") eqn:EG.
    + apply String.eqb_eq in EG. right. split; [done|].
      destruct (decide (k = queryKey event)) as [|Hne]; [done|].
      destruct (body event); cbn in H; try done;
        by rewrite lookup_delete_ne in H.
    + by destruct (body event).
Qed.

(** X18. The answers of the relay. OPTIONS is answered 200 whatever the
    body. Otherwise the body is parsed before the method is looked at:
    a body that does not parse gives 500 for every method, also for a
    GET, whose mailbox is then not emptied, and for a method the relay
    does not know; a POST of the JSON text [null] gives 500; a method
    other than OPTIONS, POST and GET gives 404 when the body parses.
    Every response carries the CORS headers, and a request that is not
    answered 200 leaves every mailbox as it was. *)
Theorem relay_answers (event : Request T F P) (t : Z) D :
  let response := (handler event t D).1 in
  let options := httpMethod event = "OPTIONS" in
  let post := httpMethod event = "POST" in
  let get := httpMethod event = "GET" in
  headers response = corsHeaders
  ∧ (statusCode response = 500
     ↔ ¬ options ∧ (body event = BodyMalformed
                    ∨ (post ∧ body event = BodyNull)))
  ∧ (statusCode response = 404
     ↔ ¬ options ∧ ¬ post ∧ ¬ get ∧ body event ≠ BodyMalformed)
  ∧ (statusCode response ≠ 500 → statusCode response ≠ 404 →
     statusCode response = 200)
  ∧ (options → response = respond 200 NoContent)
  ∧ (statusCode response ≠ 200 → (handler event t D).2 = D).
Proof.
  unfold handler. cbv zeta.
  destruct (String.eqb_spec (httpMethod event) "OPTIONS") as [EO|EO].
  { cbn. repeat split; try done; try tauto; try (intros; lia). }
  destruct (String.eqb_spec (httpMethod event) "POST") as [EP|EP].
  { destruct (body event); cbn; repeat split; try done; try tauto;
      try (intros; lia); try (intros (_&[?|[_ ?]]); done);
      try (intros (_&?&_); done); eauto. }
  destruct (String.eqb_spec (httpMethod event) "GET") as [EG|EG].
  { destruct (body event); cbn; repeat split; try done; try tauto;
      try (intros; lia); try (intros (_&[?|[? _]]); done);
      try (intros (_&_&?&_); done); eauto. }
  destruct (body event); cbn; repeat split; try done; try tauto;
    try (intros; lia); try (intros (_&[?|[? _]]); done);
    try (intros (_&_&_&?); done); eauto.
Qed.

End RelayFacts.

Lemma relay_touches_one_mailbox_witness :
  let event : Request nat nat nat := getOf (Some "g") (Some "bob") in
  let D : gmap string (list (Stored nat nat nat)) :=
    (handler (postOf (Some "g") (Some "bob") (None, None, None)) 5 ∅).2 in
  (handler event 6 D).2 !! "g-bob" ≠ D !! "g-bob"
  ∧ ((httpMethod event = "POST" ∧ "g-bob" = bodyKey (body event))
     ∨ (httpMethod event = "GET" ∧ "g-bob" = queryKey event)).
Proof.
  intros event D.
  assert (H : (handler event 6 D).2 !! "g-bob" ≠ D !! "g-bob").
  { vm_compute. discriminate. }
  split; [exact H|].
  exact (relay_touches_one_mailbox event 6 D "g-bob" H).
Defined.

Lemma append_inj_l (x y z : string) :
  String.append x y = String.append x z → y = z.
Proof. induction x as [|c x IH]; cbn; [done|]. intros [= H]. by apply IH. Qed.

(** Two keys of one game are the same only for the same player. *)
Lemma mailboxKey_same_game (g a b : option string) :
  mailboxKey g a = mailboxKey g b → show a = show b.
Proof.
  unfold mailboxKey. intros H. apply append_inj_l in H.
  by apply append_inj_l in H.
Qed.

Lemma dashFree_split (x1 x2 y1 y2 : string) :
  dashFree x1 = true → dashFree x2 = true →
  String.append x1 (String "-"%char y1)
  = String.append x2 (String "-"%char y2) →
  x1 = x2 ∧ y1 = y2.
Proof.
  revert x2. induction x1 as [|c x1 IH]; intros [|c2 x2]; cbn.
  - intros _ _ [= ->]. done.
  - intros _ H [= <- _]. done.
  - intros H _ [= -> _]. done.
  - intros H1 H2 [= -> H]. apply andb_true_iff in H1 as [_ H1].
    apply andb_true_iff in H2 as [_ H2].
    destruct (IH x2 H1 H2 H) as [-> ->]. done.
Qed.

(** X19. Mailbox keys do not collide as long as game ids hold no dash:
    when the game ids of two keys print without a dash, the keys are
    equal only if game id and player id print the same. (The player id
    may hold dashes.) *)
Theorem mailboxKey_injective (g1 p1 g2 p2 : option string) :
  dashFree (show g1) = true → dashFree (show g2) = true →
  mailboxKey g1 p1 = mailboxKey g2 p2 →
  show g1 = show g2 ∧ show p1 = show p2.
Proof. intros H1 H2 H. by apply dashFree_split. Qed.

Lemma mailboxKey_injective_witness :
  show None = show (Some "undefined") ∧ show (Some "p-1") = show (Some "p-1").
Proof.
  exact (mailboxKey_injective None (Some "p-1") (Some "undefined") (Some "p-1")
           eq_refl eq_refl eq_refl).
Defined.

(** With a dash in a game id, two different games share a mailbox. *)
Lemma mailboxKey_collides :
  mailboxKey (Some "a-b") (Some "c") = mailboxKey (Some "a") (Some "b-c").
Proof. reflexivity. Qed.

(* ===================================================================== *)
(* 20. Two hooks and the relay                                           *)
(* ===================================================================== *)

(** [handleOffer] when the guards are passed and the browser calls
    succeed: the connection of the sender. *)
Lemma handleOffer_answers_stable (n : nat) (from : string) (offer : Sdp)
    (s : Hook) :
  is_Some (localStream s) → truthy (gameId s) = true →
  hasWorking s from = false →
  (bool_decide (from ∈ pendingOffers s) && idLess (playerId s) from) = false →
  ∃ pc, connectionOf (handleOffer (allOk n) from offer s) from = Some pc
        ∧ connectionState pc = CNew ∧ signalingState pc = SStable
        ∧ remoteDescription pc = Some offer.
Proof.
  intros Hst Hg Hw Hgl. rewrite handleOffer_unfold by done. cbv zeta.
  destruct (createPeerConnection_fields from false s Hw)
    as (_&_&_&_&_&_&_&_&_&_&_&F11&_&_&(pc&Hpc&_&N2&_)&_).
  cbv zeta in *.
  set (r := (createPeerConnection from false s).1) in *.
  set (s2 := (createPeerConnection from false s).2) in *.
  rewrite offer_block_ok. cbv zeta.
  set (answer := {| sdpType := SdpAnswer; sdpBody := n |}).
  set (s3 := onPc r (pcSetLocal answer)
               (onPc r (pcLog OpCreateAnswer) (onPc r (pcSetRemote offer) s2))).
  destruct (sendSignalingMessage_frame KAnswer from (PDesc answer) s3)
    as (Hh&Hm&_).
  cbv zeta in *. unfold connectionOf. rewrite Hh, Hm.
  change (peerConnections s3) with (peerConnections s2).
  rewrite F11, lookup_insert_eq. cbn [mbind option_bind].
  exists (pcSetLocal answer (pcLog OpCreateAnswer (pcSetRemote offer pc))).
  split; [|done].
  unfold s3. cbn. by rewrite !list_lookup_alter_eq, Hpc.
Qed.

(** The posts of one handler run that made exactly one request. *)
Lemma deliver_one (s s' : Hook) (post : Post) (t : Z)
    (d : gmap string (list Wire)) :
  sent s' = sent s ++ [post] →
  deliver s s' t d
  = store (Some (postType post)) (Some (postGame post)) (Some (postFrom post))
          (Some (postTo post)) (Some (postPayload post)) t d.
Proof. intros E. unfold deliver. by rewrite E, drop_app_length. Qed.

Lemma deliver_none (s s' : Hook) (t : Z) (d : gmap string (list Wire)) :
  sent s' = sent s → deliver s s' t d = d.
Proof. intros E. unfold deliver. by rewrite E, drop_all. Qed.

(** A poll round of a hook with both ids. *)
Lemma pollRound_unfold (envs : nat → Env) (t : Z) (s : Hook)
    (d : gmap string (list Wire)) :
  truthy (gameId s) = true → truthy (playerId s) = true →
  let key := mailboxKey (gameId s) (playerId s) in
  let s' := pollSignalingMessages
              (imap (λ i m, (envs i, m)) (omap readMessage (mailbox d key)))
              s in
  pollRound envs t s d = (s', deliver s s' t (delete key d)).
Proof. intros G P. unfold pollRound. by rewrite G, P. Qed.

Lemma truthy_ne (x : string) : truthy (Some x) = true ↔ x ≠ "".
Proof.
  cbn. destruct (String.eqb_spec x ""); cbn; split; intros; congruence.
Qed.

(** X20. The handshake through the relay. Two hooks of the same game,
    [a] and [b], both with local media, neither with an offer pending
    toward the other nor a connected or connecting connection to it,
    and a relay whose mailboxes for the two are empty. When [a] calls
    [b], then [b] polls, then [a] polls, and no browser call throws:
    [b] has a connection for [a] as Responder and [a] one for [b] as
    Initiator, both in signaling state 'stable', each holding the
    other's description as its remote description; [a] has no offer
    pending any more; [a] has posted exactly one offer and [b] exactly
    one answer; and the two mailboxes are empty again, all other
    mailboxes being as they were. *)
Theorem handshake_through_the_relay (g a b : string) (n m k : nat)
    (t1 t2 t3 : Z) (sA sB : Hook) (d : gmap string (list Wire)) :
  ready g a sA → ready g b sB → a ≠ b →
  (b ∉ pendingOffers sA) → hasWorking sA b = false →
  (a ∉ pendingOffers sB) → hasWorking sB a = false →
  mailbox d (mailboxKey (Some g) (Some a)) = [] →
  mailbox d (mailboxKey (Some g) (Some b)) = [] →
  let offer := {| sdpType := SdpOffer; sdpBody := n |} in
  let answer := {| sdpType := SdpAnswer; sdpBody := m |} in
  let sA1 := initiateCall (allOk n) b sA in
  let d1 := deliver sA sA1 t1 d in
  let sB1 := (pollRound (λ _, allOk m) t2 sB d1).1 in
  let d2 := (pollRound (λ _, allOk m) t2 sB d1).2 in
  let sA2 := (pollRound (λ _, allOk k) t3 sA1 d2).1 in
  let d3 := (pollRound (λ _, allOk k) t3 sA1 d2).2 in
  (∃ pc, connectionOf sA2 b = Some pc ∧ connectionState pc = CNew
         ∧ signalingState pc = SStable ∧ remoteDescription pc = Some answer)
  ∧ (∃ pc, connectionOf sB1 a = Some pc ∧ connectionState pc = CNew
           ∧ signalingState pc = SStable ∧ remoteDescription pc = Some offer)
  ∧ roleOf sA2 b = Some Initiator ∧ roleOf sB1 a = Some Responder
  ∧ (b ∉ pendingOffers sA2)
  ∧ sent sA2 = sent sA ++ [offerPost sA b n]
  ∧ sent sB1 = sent sB ++ [answerPost sB a m]
  ∧ mailbox d3 (mailboxKey (Some g) (Some a)) = []
  ∧ mailbox d3 (mailboxKey (Some g) (Some b)) = []
  ∧ ∀ key, key ≠ mailboxKey (Some g) (Some a) →
           key ≠ mailboxKey (Some g) (Some b) → d3 !! key = d !! key.
Proof.
  intros (LA&GA&PA&Hg&Ha) (LB&GB&PB&_&Hb) Hab HpA HwA HpB HwB HmA HmB.
  intros offer answer sA1 d1 sB1 d2 sA2 d3.
  set (keyA := mailboxKey (Some g) (Some a)) in *.
  set (keyB := mailboxKey (Some g) (Some b)) in *.
  assert (Hkeys : keyA ≠ keyB).
  { intros E. apply mailboxKey_same_game in E. cbn in E. done. }
  assert (TgA : truthy (gameId sA) = true) by (rewrite GA; by apply truthy_ne).
  assert (TpA : truthy (playerId sA) = true) by (rewrite PA; by apply truthy_ne).
  assert (TgB : truthy (gameId sB) = true) by (rewrite GB; by apply truthy_ne).
  assert (TpB : truthy (playerId sB) = true) by (rewrite PB; by apply truthy_ne).
  (* a calls b *)
  destruct (initiateCall_calls n b sA LA TgA TpA HpA HwA)
    as (SA1&MA1&IA1&_&_&pcA&HA1&CA1&SigA1).
  fold sA1 in SA1, MA1, IA1, HA1.
  destruct (posting_initiateCall (allOk n) b sA) as (GA1&PA1&_).
  fold sA1 in GA1, PA1.
  assert (Ed1 : d1 = store (Some KOffer) (Some g) (Some a) (Some b)
                       (Some (PDesc offer)) t1 d).
  { unfold d1. rewrite (deliver_one sA sA1 _ t1 d SA1). cbn.
    by rewrite GA, PA. }
  (* b polls *)
  assert (EB : pollRound (λ _, allOk m) t2 sB d1
               = (handleOffer (allOk m) a offer sB,
                  deliver sB (handleOffer (allOk m) a offer sB) t2
                    (delete keyB d1))).
  { rewrite pollRound_unfold by done. cbv zeta. rewrite GB, PB. fold keyB.
    assert (Hbox : mailbox d1 keyB
                   = [{| stType := Some KOffer; stFrom := Some a;
                         stPayload := Some (PDesc offer); timestamp := t1 |}]).
    { rewrite Ed1, mailbox_store. rewrite bool_decide_eq_true_2 by done.
      by rewrite HmB. }
    rewrite Hbox.
    change (pollSignalingMessages _ sB)
      with (pollSignalingMessages [(allOk m, MsgOffer a offer)] sB).
    assert (Hpoll : pollSignalingMessages [(allOk m, MsgOffer a offer)] sB
                    = handleOffer (allOk m) a offer sB).
    { unfold pollSignalingMessages. rewrite TgB, TpB. cbn.
      unfold handleSignalingMessage. cbn.
      by rewrite bool_decide_eq_false_2 by (rewrite PB; congruence). }
    by rewrite Hpoll. }
  assert (HglB : (bool_decide (a ∈ pendingOffers sB)
                  && idLess (playerId sB) a) = false).
  { by rewrite bool_decide_eq_false_2. }
  destruct (handleOffer_answers m a offer sB LB TgB TpB HwB HglB)
    as (RB1&SB1&_).
  destruct (handleOffer_answers_stable m a offer sB LB TgB HwB HglB)
    as (pcB&HB1&CB1&SigB1&RdB1).
  assert (EsB1 : sB1 = handleOffer (allOk m) a offer sB)
    by (unfold sB1; by rewrite EB).
  assert (Ed2 : d2 = store (Some KAnswer) (Some g) (Some b) (Some a)
                       (Some (PDesc answer)) t2 (delete keyB d1)).
  { unfold d2. rewrite EB. cbn [snd].
    rewrite (deliver_one sB _ _ t2 _ SB1). cbn. by rewrite GB, PB. }
  (* a polls *)
  assert (TgA1 : truthy (gameId sA1) = true) by by rewrite GA1.
  assert (TpA1 : truthy (playerId sA1) = true) by by rewrite PA1.
  set (sA2' := updPendingOffers (λ p, p ∖ {[b]})
                 (onPc (length (heap sA)) (pcSetRemote answer) sA1)).
  assert (EA : pollRound (λ _, allOk k) t3 sA1 d2
               = (sA2', delete keyA d2)).
  { rewrite pollRound_unfold by done. cbv zeta. rewrite GA1, PA1, GA, PA.
    fold keyA.
    assert (Hbox : mailbox d2 keyA
                   = [{| stType := Some KAnswer; stFrom := Some b;
                         stPayload := Some (PDesc answer); timestamp := t2 |}]).
    { rewrite Ed2, mailbox_store. rewrite bool_decide_eq_true_2 by done.
      rewrite mailbox_delete_ne by done. rewrite Ed1, mailbox_store.
      rewrite bool_decide_eq_false_2 by done. by rewrite HmA. }
    rewrite Hbox.
    change (pollSignalingMessages _ sA1)
      with (pollSignalingMessages [(allOk k, MsgAnswer b answer)] sA1).
    assert (Hpoll : pollSignalingMessages [(allOk k, MsgAnswer b answer)] sA1
                    = sA2').
    { unfold pollSignalingMessages. rewrite TgA1, TpA1. cbn.
      unfold handleSignalingMessage. cbn.
      rewrite bool_decide_eq_false_2 by (rewrite PA1, PA; congruence).
      unfold handleAnswer.
      rewrite (awaitsAnswer_Some b _ pcA sA1 MA1 HA1).
      rewrite bool_decide_eq_true_2 by done. by rewrite answer_block_ok. }
    rewrite Hpoll. f_equal. by apply deliver_none. }
  assert (EsA2 : sA2 = sA2') by (unfold sA2; by rewrite EA).
  assert (Ed3 : d3 = delete keyA d2) by (unfold d3; by rewrite EA).
  rewrite EsA2, EsB1, Ed3.
  split.
  { exists (pcSetRemote answer pcA). split; [|done].
    unfold connectionOf, sA2'. cbn. rewrite MA1. cbn.
    by rewrite list_lookup_alter_eq, HA1. }
  split; [by exists pcB|].
  split; [unfold roleOf, sA2'; cbn; by rewrite IA1|].
  split; [exact RB1|].
  split.
  { unfold sA2'. cbn. rewrite elem_of_difference, elem_of_singleton. tauto. }
  split; [exact SA1|]. split; [exact SB1|].
  split; [apply mailbox_delete_eq|].
  split.
  { rewrite mailbox_delete_ne by done.
    rewrite Ed2, mailbox_store. rewrite bool_decide_eq_false_2 by done.
    apply mailbox_delete_eq. }
  intros key HkA HkB. rewrite lookup_delete_ne by done.
  rewrite Ed2, store_lookup. rewrite bool_decide_eq_false_2 by done.
  rewrite lookup_delete_ne by done.
  rewrite Ed1, store_lookup. by rewrite bool_decide_eq_false_2.
Qed.

Lemma handshake_through_the_relay_witness :
  let sA1 := initiateCall (allOk 1) "bob" aliceWithMedia in
  let d1 := deliver aliceWithMedia sA1 10 ∅ in
  let sB1 := (pollRound (λ _, allOk 2) 20 bobWithMedia d1).1 in
  let d2 := (pollRound (λ _, allOk 2) 20 bobWithMedia d1).2 in
  let sA2 := (pollRound (λ _, allOk 0) 30 sA1 d2).1 in
  ready "g" "alice" aliceWithMedia ∧ ready "g" "bob" bobWithMedia
  ∧ "alice" ≠ "bob"
  ∧ ("bob" ∉ pendingOffers aliceWithMedia)
  ∧ hasWorking aliceWithMedia "bob" = false
  ∧ ("alice" ∉ pendingOffers bobWithMedia)
  ∧ hasWorking bobWithMedia "alice" = false
  ∧ mailbox (∅ : gmap string (list Wire)) (mailboxKey (Some "g") (Some "alice"))
    = []
  ∧ mailbox (∅ : gmap string (list Wire)) (mailboxKey (Some "g") (Some "bob"))
    = []
  ∧ roleOf sA2 "bob" = Some Initiator ∧ roleOf sB1 "alice" = Some Responder.
Proof.
  intros sA1 d1 sB1 d2 sA2.
  assert (H1 : ready "g" "alice" aliceWithMedia).
  { split; [by exists 7%nat|]. by repeat split. }
  assert (H2 : ready "g" "bob" bobWithMedia).
  { split; [by exists 8%nat|]. by repeat split. }
  assert (H3 : "alice" ≠ "bob") by discriminate.
  assert (H4 : "bob" ∉ pendingOffers aliceWithMedia) by apply not_elem_of_empty.
  assert (H5 : hasWorking aliceWithMedia "bob" = false) by reflexivity.
  assert (H6 : "alice" ∉ pendingOffers bobWithMedia) by apply not_elem_of_empty.
  assert (H7 : hasWorking bobWithMedia "alice" = false) by reflexivity.
  assert (H8 : mailbox (∅ : gmap string (list Wire))
                 (mailboxKey (Some "g") (Some "alice")) = []) by reflexivity.
  assert (H9 : mailbox (∅ : gmap string (list Wire))
                 (mailboxKey (Some "g") (Some "bob")) = []) by reflexivity.
  pose proof (handshake_through_the_relay "g" "alice" "bob" 1 2 0 10 20 30
                aliceWithMedia bobWithMedia ∅ H1 H2 H3 H4 H5 H6 H7 H8 H9) as H.
  cbv zeta in H. destruct H as (_&_&R1&R2&_).
  repeat (split; [assumption|]). exact R2.
Defined.

(* ===================================================================== *)
(* 21. From a request to the message the receiver handles                *)
(* ===================================================================== *)




(* ===================================================================== *)
(* 22. The hook and its own id                                           *)
(* ===================================================================== *)

Lemma apart_frame (me : string) (s s' : Hook) :
  playerId s' = playerId s → peerConnections s' = peerConnections s →
  heap s' = heap s → timers s' = timers s → sent s' = sent s →
  apart me s → apart me s'.
Proof.
  intros E1 E2 E3 E4 E5 H. unfold apart. by rewrite E1, E2, E3, E4, E5.
Qed.

Lemma aloof_onPc (me : string) (r : nat) (f : PC → PC) :
  (∀ pc, pcPeer (f pc) = pcPeer pc) → aloof me (onPc r f).
Proof.
  intros Hf s (P&M&Hh&T&S). split; [done|]. split; [done|].
  split; [|done]. intros r' pc'. cbn.
  destruct (decide (r = r')) as [<-|Hne].
  - rewrite list_lookup_alter_eq. destruct (heap s !! r) as [pc|] eqn:E; [|done].
    intros [= <-]. rewrite Hf. by apply (Hh r).
  - rewrite list_lookup_alter_ne by done. apply Hh.
Qed.

Lemma aloof_sendSignalingMessage (me : string) (k : MsgKind) (to : string)
    (pl : Payload) :
  to ≠ me → aloof me (sendSignalingMessage k to pl).
Proof.
  intros Hto s H. unfold sendSignalingMessage. case_match; [done|].
  destruct H as (P&M&Hh&T&S). repeat split; try done. cbn.
  apply Forall_app. split; [done|]. by apply Forall_singleton.
Qed.

Lemma aloof_setTimeout (me : string) (delay : Z) (cb : Callback) :
  callbackPeer cb ≠ me → aloof me (setTimeout delay cb).
Proof.
  intros Hcb s (P&M&Hh&T&S). repeat split; try done. cbn.
  apply Forall_app. split; [done|]. by apply Forall_singleton.
Qed.

Lemma aloof_removePeerConnection (me p : string) :
  aloof me (removePeerConnection p).
Proof.
  intros s H.
  destruct (removePeerConnection_fields p s)
    as (_&_&P&_&Hh&M&_&_&_&_&_&_&_&T&S).
  cbv zeta in *.
  assert (H1 : apart me (from_option (λ r, onPc r pcClose s) s
                           (peerConnections s !! p))).
  { destruct (peerConnections s !! p); [|done]. by apply aloof_onPc. }
  destruct H1 as (_&_&Hh1&_&_). destruct H as (P0&M0&_&T0&S0).
  split; [congruence|]. split.
  { rewrite M. destruct (decide (p = me)) as [->|Hne];
      [apply lookup_delete_eq|by rewrite lookup_delete_ne]. }
  split; [|by rewrite T, S].
  rewrite Hh. intros r pc Hr. apply (Hh1 r).
  by destruct (peerConnections s !! p).
Qed.

Lemma aloof_handleConnectionFailure (me p : string) :
  p ≠ me → aloof me (handleConnectionFailure p).
Proof.
  intros Hp s H. unfold handleConnectionFailure. case_match.
  - apply aloof_setTimeout; [done|]. apply aloof_removePeerConnection.
    revert H. by apply apart_frame.
  - by apply aloof_removePeerConnection.
Qed.

Lemma aloof_openPeerConnection (me p : string) (i : bool) (s : Hook) :
  p ≠ me → apart me s → apart me (openPeerConnection p i s).2.
Proof.
  intros Hp (P&M&Hh&T&S).
  destruct (openPeerConnection_frame p i s)
    as (_&_&P1&S1&T1&_&_&_&_&_&M1&_).
  cbv zeta in *.
  split; [congruence|]. split; [by rewrite M1, lookup_insert_ne|].
  split; [|by rewrite T1, S1].
  intros r pc Hr. destruct (decide (r = length (heap s))) as [->|Hne].
  - destruct (openPeerConnection_new p i s) as (pc'&Hpc'&Hpeer&_).
    rewrite Hpc' in Hr. injection Hr as <-. by rewrite Hpeer.
  - rewrite openPeerConnection_old in Hr by done. by apply (Hh r).
Qed.

Lemma aloof_createPeerConnection (me p : string) (i : bool) (s : Hook) :
  p ≠ me → apart me s → apart me (createPeerConnection p i s).2.
Proof.
  intros Hp H. unfold createPeerConnection.
  destruct (peerConnections s !! p) as [r0|];
    [|by apply aloof_openPeerConnection].
  destruct (pcWorking s r0); [done|].
  apply aloof_openPeerConnection; [done|]. by apply aloof_onPc.
Qed.

Lemma aloofAsync_bind {A B : Type} (me : string) (t : Async A)
    (k : A → Async B) :
  aloofAsync me t → (∀ a, aloofAsync me (k a)) → aloofAsync me (t ≫= k).
Proof.
  intros Ht Hk s H. unfold mbind, Async_bind. specialize (Ht s H).
  destruct (t s) as [s1 [a|]]; cbn in *; [by apply Hk|done].
Qed.

Lemma aloofAsync_await {A : Type} (me : string) (env : Env) (k : nat)
    (t : Async A) :
  aloofAsync me t → aloofAsync me (await env k t).
Proof. intros Ht. unfold await. case_bool_decide; [by intros s0 H0|done]. Qed.

Lemma aloofAsync_act (me : string) (f : Hook → Hook) :
  aloof me f → aloofAsync me (act f).
Proof. intros Hf s H. by apply Hf. Qed.

Lemma aloof_tryCatch (me : string) (body : Async unit) (handler : Hook → Hook) :
  aloofAsync me body → aloof me handler → aloof me (tryCatch body handler).
Proof.
  intros Hb Hh s H. unfold tryCatch. specialize (Hb s H).
  destruct (body s) as [s1 [[]|]]; cbn in *; [done|by apply Hh].
Qed.

Lemma aloof_initiateCall (me : string) (env : Env) (p : string) :
  p ≠ me → aloof me (initiateCall env p).
Proof.
  intros Hp s H. unfold initiateCall.
  case_match; [done|]. case_match; [done|]. case_match; [done|].
  assert (Hs1 : apart me (updPendingOffers (λ q, q ∪ {[p]}) s)) by done.
  pose proof (aloof_createPeerConnection me p true _ Hp Hs1) as Hc.
  destruct (createPeerConnection p true _) as [r s1]. cbn in Hc.
  apply aloof_tryCatch; [| |done].
  - apply aloofAsync_bind.
    { apply aloofAsync_await. intros s0 Hs0. by apply (aloof_onPc me r). }
    intros offer. apply aloofAsync_bind.
    { by apply aloofAsync_await, aloofAsync_act, aloof_onPc. }
    intros _. by apply aloofAsync_act, aloof_sendSignalingMessage.
  - intros s0 Hs0. apply aloof_removePeerConnection. revert Hs0.
    by apply apart_frame.
Qed.

Lemma aloof_handleOffer (me : string) (env : Env) (from : string)
    (offer : Sdp) :
  from ≠ me → aloof me (handleOffer env from offer).
Proof.
  intros Hp s H. unfold handleOffer.
  case_match; [done|]. case_match; [done|]. case_match; [done|].
  pose proof (aloof_createPeerConnection me from false s Hp H) as Hc.
  destruct (createPeerConnection from false s) as [r s1]. cbn in Hc.
  apply aloof_tryCatch; [| |done].
  - apply aloofAsync_bind.
    { by apply aloofAsync_await, aloofAsync_act, aloof_onPc. }
    intros _. apply aloofAsync_bind.
    { apply aloofAsync_await. intros s0 Hs0. by apply (aloof_onPc me r). }
    intros answer. apply aloofAsync_bind.
    { by apply aloofAsync_await, aloofAsync_act, aloof_onPc. }
    intros _. by apply aloofAsync_act, aloof_sendSignalingMessage.
  - apply aloof_removePeerConnection.
Qed.

Lemma aloof_handleAnswer (me : string) (env : Env) (from : string)
    (answer : Sdp) :
  aloof me (handleAnswer env from answer).
Proof.
  intros s H. unfold handleAnswer.
  destruct (awaitsAnswer s from) as [r|]; [|done].
  apply aloof_tryCatch; [| |done].
  - apply aloofAsync_bind.
    { by apply aloofAsync_await, aloofAsync_act, aloof_onPc. }
    intros _. apply aloofAsync_act. intros s0. by apply apart_frame.
  - apply aloof_removePeerConnection.
Qed.

Lemma aloof_handleIceCandidate (me from : string) (c : Candidate) :
  aloof me (handleIceCandidate from c).
Proof.
  intros s H. unfold handleIceCandidate.
  destruct (hasRemoteDescription s from); [by apply aloof_onPc|].
  revert H. by apply apart_frame.
Qed.

Lemma aloof_handleSignalingMessage (me : string) (env : Env) (msg : Message) :
  aloof me (handleSignalingMessage env msg).
Proof.
  intros s H. unfold handleSignalingMessage.
  case_bool_decide as Hself; [done|].
  assert (Hne : messageFrom msg ≠ me).
  { intros E. apply Hself. destruct H as (P&_). by rewrite P, E. }
  destruct msg; cbn in Hne.
  - by apply aloof_handleOffer.
  - by apply aloof_handleAnswer.
  - by apply aloof_handleIceCandidate.
  - done.
Qed.

Lemma aloof_pollSignalingMessages (me : string) (msgs : list (Env * Message)) :
  aloof me (pollSignalingMessages msgs).
Proof.
  intros s H. unfold pollSignalingMessages. case_match; [done|].
  clear - H. revert s H. induction msgs as [|m msgs IH]; intros s H; cbn;
    [done|].
  by apply IH, aloof_handleSignalingMessage.
Qed.

Lemma aloof_scheduleCalls (me : string) (peerIds : list string) (index : Z) :
  me ∉ peerIds → aloof me (scheduleCalls index peerIds).
Proof.
  revert index. induction peerIds as [|p l IH]; intros index Hme s H; cbn;
    [done|].
  apply not_elem_of_cons in Hme as [Hp Hl]. apply IH; [done|].
  case_bool_decide; [done|]. apply aloof_setTimeout; [|done]. cbn. congruence.
Qed.

Lemma aloof_establishConnections (me : string) (peerIds : list string) :
  me ∉ peerIds → aloof me (establishConnections peerIds).
Proof.
  intros Hme s H. unfold establishConnections.
  case_match; [done|]. by apply aloof_scheduleCalls.
Qed.

Lemma aloof_onconnectionstatechange (me : string) (r : nat) :
  aloof me (onconnectionstatechange r).
Proof.
  intros s H. unfold onconnectionstatechange.
  destruct (heap s !! r) as [pc|] eqn:E; [|done].
  assert (Hp : pcPeer pc ≠ me) by (destruct H as (_&_&Hh&_); by apply (Hh r)).
  case_bool_decide; [|done].
  destruct (connectionState pc);
    try (revert H; by apply apart_frame).
  - apply aloof_setTimeout; [done|]. revert H. by apply apart_frame.
  - apply aloof_handleConnectionFailure; [done|]. revert H.
    by apply apart_frame.
Qed.

Lemma aloof_connStateEvent (me : string) (r : nat) (st : ConnState) :
  aloof me (connStateEvent r st).
Proof.
  intros s H. unfold connStateEvent.
  destruct (heap s !! r) as [pc|]; [|done]. case_match; [done|].
  by apply aloof_onconnectionstatechange, aloof_onPc.
Qed.

Lemma aloof_iceStateEvent (me : string) (r : nat) (ice : IceState) :
  aloof me (iceStateEvent r ice).
Proof.
  intros s H. unfold iceStateEvent, oniceconnectionstatechange.
  destruct (heap s !! r) as [pc|] eqn:E; [|done].
  assert (Hp : pcPeer pc ≠ me) by (destruct H as (_&_&Hh&_); by apply (Hh r)).
  case_bool_decide; [done|].
  destruct ice; try done. by apply aloof_handleConnectionFailure.
Qed.

Lemma aloof_ontrack (me : string) (r : nat) (st : option Stream) (a : bool)
    (n : nat) :
  aloof me (ontrack r st a n).
Proof.
  intros s H. unfold ontrack. destruct (heap s !! r), st; try done.
  case_match; [|done]. revert H. by apply apart_frame.
Qed.

Lemma aloof_onicecandidate (me : string) (r : nat) (c : option Candidate) :
  aloof me (onicecandidate r c).
Proof.
  intros s H. unfold onicecandidate.
  destruct (heap s !! r) as [pc|] eqn:E; [|done].
  assert (Hp : pcPeer pc ≠ me) by (destruct H as (_&_&Hh&_); by apply (Hh r)).
  destruct c; [|done]. case_match; [|done].
  by apply aloof_sendSignalingMessage.
Qed.

Lemma aloof_runCallback (me : string) (env : Env) (cb : Callback) :
  callbackPeer cb ≠ me → aloof me (runCallback env cb).
Proof.
  intros Hcb s H. destruct cb; cbn [runCallback]; cbn in Hcb; case_match;
    try done.
  - by apply aloof_handleConnectionFailure.
  - by apply aloof_initiateCall.
  - by apply aloof_initiateCall.
Qed.

Lemma aloof_fire (me : string) (env : Env) (i : nat) : aloof me (fire env i).
Proof.
  intros s H. unfold fire. destruct (timers s !! i) as [t|] eqn:E; [|done].
  case_match; [|done].
  destruct H as (P&M&Hh&T&S).
  apply aloof_runCallback.
  - rewrite Forall_lookup in T. by apply (T i).
  - repeat split; try done. cbn. by apply Forall_delete.
Qed.

Lemma closeAll_peer (l : list (string * nat)) (h : list PC) (r : nat)
    (pc : PC) :
  foldr (λ e h, alter pcClose e.2 h) h l !! r = Some pc →
  ∃ pc0, h !! r = Some pc0 ∧ pcPeer pc0 = pcPeer pc.
Proof.
  revert pc. induction l as [|e l IH]; intros pc; cbn; [eauto|].
  destruct (decide (e.2 = r)) as [<-|Hne].
  - rewrite list_lookup_alter_eq.
    destruct (foldr _ _ _ !! _) as [pc1|] eqn:E; [|done].
    intros [= <-]. destruct (IH pc1 eq_refl) as (pc0&H0&H1). eauto.
  - rewrite list_lookup_alter_ne by done. apply IH.
Qed.

Lemma aloof_cleanup (me : string) : aloof me cleanup.
Proof.
  intros s (P&M&Hh&T&S). repeat split; try done.
  intros r pc Hr. cbn in Hr.
  destruct (closeAll_peer _ _ _ _ Hr) as (pc0&H0&<-). by apply (Hh r).
Qed.

Lemma aloof_setLocalStream (me : string) (v : option Stream) :
  aloof me (setLocalStream v).
Proof. intros s. by apply apart_frame. Qed.

Lemma aloof_startLocalStream (me : string) (st : Stream) :
  aloof me (startLocalStream st).
Proof.
  intros s H. unfold startLocalStream.
  by apply aloof_setLocalStream, aloof_cleanup.
Qed.

Lemma aloof_tick (me : string) (dt : Z) :
  aloof me (λ s, if 0 <=? dt then setNow (now s + dt) s else s).
Proof. intros s H. case_match; [|done]. revert H. by apply apart_frame. Qed.

Lemma onGameStateChange_others (lobby : bool) (players : list string)
    (st : option Stream) (me : string) (peerIds : list string) :
  onGameStateChange lobby players st (Some me) = Some peerIds →
  me ∉ peerIds.
Proof.
  unfold onGameStateChange. case_match; [|done]. case_match; [|done].
  intros [= <-]. rewrite list_elem_of_filter. tauto.
Qed.

Lemma onPlayerJoined_other (player : string) (st : option Stream)
    (me : string) :
  onPlayerJoined player st (Some me) = Some player → player ≠ me.
Proof.
  unfold onPlayerJoined. case_match eqn:E; [|done]. intros _.
  apply andb_true_iff in E as [_ E]. by apply bool_decide_eq_true in E.
Qed.

Lemma aloof_exec (me : string) (e : Event) : asked me e → aloof me (exec e).
Proof.
  destruct e; intros He.
  - apply aloof_startLocalStream.
  - destruct He as (lobby&players&st&He).
    apply aloof_establishConnections. by eapply onGameStateChange_others.
  - destruct He as (st&He). apply aloof_initiateCall.
    by eapply onPlayerJoined_other.
  - apply aloof_pollSignalingMessages.
  - apply aloof_connStateEvent.
  - apply aloof_iceStateEvent.
  - apply aloof_ontrack.
  - apply aloof_onicecandidate.
  - apply aloof_tick.
  - apply aloof_fire.
  - apply aloof_cleanup.
Qed.

Lemma apart_initial (g : option string) (me : string) :
  apart me (initial g (Some me)).
Proof.
  split; [done|]. split; [done|]. split; [|by split].
  intros r pc H. cbn in H. by rewrite lookup_nil in H.
Qed.

(** X22. The hook never turns to itself. A hook mounted for player [me]
    whose calls of [establishConnections] and [initiateCall] are those
    that the callbacks of [AppContent] make (the players of the lobby
    other than the current player; a joining player other than the
    current player), whatever else happens, messages in its own name
    in a poll response included: it never has a connection for [me] in
    its map, never creates a connection object for [me], never has a
    timer about [me] pending, and never posts a request addressed to
    [me]. *)
Theorem hook_never_turns_to_itself (g : option string) (me : string)
    (es : list Event) :
  Forall (asked me) es →
  let s := run es (initial g (Some me)) in
  peerConnections s !! me = None
  ∧ (∀ r pc, heap s !! r = Some pc → pcPeer pc ≠ me)
  ∧ Forall (λ t, callbackPeer (callback t) ≠ me) (timers s)
  ∧ Forall (λ post, postTo post ≠ me) (sent s).
Proof.
  intros Hes s. assert (H : apart me s); [|by destruct H as (_&H)].
  subst s. generalize (apart_initial g me). generalize (initial g (Some me)).
  induction Hes as [|e es He Hes IH]; intros s H; cbn; [done|].
  by apply IH, aloof_exec.
Qed.

Lemma hook_never_turns_to_itself_witness :
  let es := [EvStartLocalStream 7%nat; EvEstablish ["bob"; "carol"];
             EvPoll [(allOk 0, MsgOffer "alice"
                                 {| sdpType := SdpOffer; sdpBody := 5 |})];
             EvTick 1500; EvFire (allOk 1) 0] in
  Forall (asked "alice") es
  ∧ peerConnections (run es alice0) !! "alice" = None
  ∧ Forall (λ post, postTo post ≠ "alice") (sent (run es alice0)).
Proof.
  intros es.
  assert (H : Forall (asked "alice") es).
  { unfold es. constructor; [exact I|]. constructor.
    { exists true, ["alice"; "bob"; "carol"], (Some 7%nat). reflexivity. }
    repeat (constructor; [exact I|]). constructor. }
  split; [exact H|].
  pose proof (hook_never_turns_to_itself (Some "g") "alice" es H) as (H1&_&_&H4).
  split; [exact H1|exact H4].
Defined.

(* ===================================================================== *)
(* 23. A glare through the relay                                         *)
(* ===================================================================== *)

Lemma ltb_irrefl (a b : string) : String.ltb a b = true → a ≠ b.
Proof.
  intros H ->. unfold String.ltb in H.
  pose proof (String.compare_antisym b b) as E.
  destruct (String.compare b b); cbn in *; congruence.
Qed.

(** A connection that is new is neither connected nor connecting. *)
Lemma new_not_working (s : Hook) (p : string) (r : nat) (pc : PC) :
  peerConnections s !! p = Some r → heap s !! r = Some pc →
  connectionState pc = CNew → hasWorking s p = false.
Proof.
  intros Hr Hpc Hst. unfold hasWorking, pcWorking, working.
  rewrite Hr. cbn. rewrite Hpc. cbn. by rewrite Hst.
Qed.

(** X23. A glare through the relay. Two hooks of the same game, [a] and
    [b] with [a < b] as strings, both with local media and nothing
    between them yet, and a relay whose mailboxes for the two are empty.
    Both call the other before either has polled. Then [a] polls, [b]
    polls, and [a] polls again, no browser call throwing. The hook with
    the smaller id ignores the offer it finds and stays as it was; the
    other one answers; in the end [a] is Initiator and [b] Responder
    for each other, both connections are in signaling state 'stable'
    and hold the other's description as remote description; [a] has
    posted one offer, [b] one offer and one answer; and both mailboxes
    are empty. *)
Theorem glare_through_the_relay (g a b : string) (n m k : nat)
    (t1 t2 t3 t4 t5 : Z) (sA sB : Hook) (d : gmap string (list Wire)) :
  ready g a sA → ready g b sB → String.ltb a b = true →
  (b ∉ pendingOffers sA) → hasWorking sA b = false →
  (a ∉ pendingOffers sB) → hasWorking sB a = false →
  mailbox d (mailboxKey (Some g) (Some a)) = [] →
  mailbox d (mailboxKey (Some g) (Some b)) = [] →
  let offerA := {| sdpType := SdpOffer; sdpBody := n |} in
  let answerB := {| sdpType := SdpAnswer; sdpBody := k |} in
  let sA1 := initiateCall (allOk n) b sA in
  let d1 := deliver sA sA1 t1 d in
  let sB1 := initiateCall (allOk m) a sB in
  let d2 := deliver sB sB1 t2 d1 in
  let sA2 := (pollRound (λ _, allOk 0) t3 sA1 d2).1 in
  let d3 := (pollRound (λ _, allOk 0) t3 sA1 d2).2 in
  let sB2 := (pollRound (λ _, allOk k) t4 sB1 d3).1 in
  let d4 := (pollRound (λ _, allOk k) t4 sB1 d3).2 in
  let sA3 := (pollRound (λ _, allOk 0) t5 sA2 d4).1 in
  let d5 := (pollRound (λ _, allOk 0) t5 sA2 d4).2 in
  sA2 = sA1
  ∧ (∃ pc, connectionOf sA3 b = Some pc ∧ signalingState pc = SStable
           ∧ remoteDescription pc = Some answerB)
  ∧ (∃ pc, connectionOf sB2 a = Some pc ∧ signalingState pc = SStable
           ∧ remoteDescription pc = Some offerA)
  ∧ roleOf sA3 b = Some Initiator ∧ roleOf sB2 a = Some Responder
  ∧ sent sA3 = sent sA ++ [offerPost sA b n]
  ∧ sent sB2 = sent sB ++ [offerPost sB a m; answerPost sB a k]
  ∧ mailbox d5 (mailboxKey (Some g) (Some a)) = []
  ∧ mailbox d5 (mailboxKey (Some g) (Some b)) = [].
Proof.
  intros (LA&GA&PA&Hg&Ha) (LB&GB&PB&_&Hb) Hlt HpA HwA HpB HwB HmA HmB.
  intros offerA answerB sA1 d1 sB1 d2 sA2 d3 sB2 d4 sA3 d5.
  set (offerB := {| sdpType := SdpOffer; sdpBody := m |}).
  set (keyA := mailboxKey (Some g) (Some a)) in *.
  set (keyB := mailboxKey (Some g) (Some b)) in *.
  assert (Hab : a ≠ b) by by apply ltb_irrefl.
  assert (Hkeys : keyA ≠ keyB).
  { intros E. apply mailboxKey_same_game in E. cbn in E. done. }
  assert (TgA : truthy (gameId sA) = true) by (rewrite GA; by apply truthy_ne).
  assert (TpA : truthy (playerId sA) = true) by (rewrite PA; by apply truthy_ne).
  assert (TgB : truthy (gameId sB) = true) by (rewrite GB; by apply truthy_ne).
  assert (TpB : truthy (playerId sB) = true) by (rewrite PB; by apply truthy_ne).
  (* both call *)
  destruct (initiateCall_calls n b sA LA TgA TpA HpA HwA)
    as (SA1&MA1&IA1&PeA1&LA1&pcA&HA1&CA1&SigA1).
  fold sA1 in SA1, MA1, IA1, PeA1, LA1, HA1.
  destruct (posting_initiateCall (allOk n) b sA) as (GA1&PA1&_).
  fold sA1 in GA1, PA1.
  destruct (initiateCall_calls m a sB LB TgB TpB HpB HwB)
    as (SB1&MB1&IB1&PeB1&LB1&pcB&HB1&CB1&SigB1).
  fold sB1 in SB1, MB1, IB1, PeB1, LB1, HB1.
  destruct (posting_initiateCall (allOk m) a sB) as (GB1&PB1&_).
  fold sB1 in GB1, PB1.
  assert (TgA1 : truthy (gameId sA1) = true) by by rewrite GA1.
  assert (TpA1 : truthy (playerId sA1) = true) by by rewrite PA1.
  assert (TgB1 : truthy (gameId sB1) = true) by by rewrite GB1.
  assert (TpB1 : truthy (playerId sB1) = true) by by rewrite PB1.
  assert (Ed1 : d1 = store (Some KOffer) (Some g) (Some a) (Some b)
                       (Some (PDesc offerA)) t1 d).
  { unfold d1. rewrite (deliver_one sA sA1 _ t1 d SA1). cbn.
    by rewrite GA, PA. }
  assert (Ed2 : d2 = store (Some KOffer) (Some g) (Some b) (Some a)
                       (Some (PDesc offerB)) t2 d1).
  { unfold d2. rewrite (deliver_one sB sB1 _ t2 d1 SB1). cbn.
    by rewrite GB, PB. }
  (* a polls and finds the offer of b *)
  assert (EA : pollRound (λ _, allOk 0) t3 sA1 d2 = (sA1, delete keyA d2)).
  { rewrite pollRound_unfold by done. cbv zeta. rewrite GA1, PA1, GA, PA.
    fold keyA.
    assert (Hbox : mailbox d2 keyA
                   = [{| stType := Some KOffer; stFrom := Some b;
                         stPayload := Some (PDesc offerB); timestamp := t2 |}]).
    { rewrite Ed2, mailbox_store. rewrite bool_decide_eq_true_2 by done.
      rewrite Ed1, mailbox_store. rewrite bool_decide_eq_false_2 by done.
      by rewrite HmA. }
    rewrite Hbox.
    change (pollSignalingMessages _ sA1)
      with (pollSignalingMessages [(allOk 0, MsgOffer b offerB)] sA1).
    assert (Hpoll : pollSignalingMessages [(allOk 0, MsgOffer b offerB)] sA1
                    = sA1).
    { unfold pollSignalingMessages. rewrite TgA1, TpA1. cbn.
      unfold handleSignalingMessage. cbn.
      rewrite bool_decide_eq_false_2 by (rewrite PA1, PA; congruence).
      apply handleOffer_ignores_glare; [done|]. by rewrite PA1, PA. }
    rewrite Hpoll. f_equal. by apply deliver_none. }
  assert (EsA2 : sA2 = sA1) by (unfold sA2; by rewrite EA).
  assert (Ed3 : d3 = delete keyA d2) by (unfold d3; by rewrite EA).
  (* b polls and finds the offer of a *)
  assert (HwB1 : hasWorking sB1 a = false)
    by exact (new_not_working sB1 a _ pcB MB1 HB1 CB1).
  assert (HglB : (bool_decide (a ∈ pendingOffers sB1)
                  && idLess (playerId sB1) a) = false).
  { rewrite PB1, PB. unfold idLess. rewrite (ltb_asym_total a b Hab), Hlt.
    apply andb_false_r. }
  assert (LB1' : is_Some (localStream sB1)) by by rewrite LB1.
  destruct (handleOffer_answers k a offerA sB1 LB1' TgB1 TpB1 HwB1 HglB)
    as (RB2&SB2&_).
  destruct (handleOffer_answers_stable k a offerA sB1 LB1' TgB1 HwB1 HglB)
    as (pcB2&HB2&_&SigB2&RdB2).
  assert (EB : pollRound (λ _, allOk k) t4 sB1 d3
               = (handleOffer (allOk k) a offerA sB1,
                  deliver sB1 (handleOffer (allOk k) a offerA sB1) t4
                    (delete keyB d3))).
  { rewrite pollRound_unfold by done. cbv zeta. rewrite GB1, PB1, GB, PB.
    fold keyB.
    assert (Hbox : mailbox d3 keyB
                   = [{| stType := Some KOffer; stFrom := Some a;
                         stPayload := Some (PDesc offerA); timestamp := t1 |}]).
    { rewrite Ed3. rewrite mailbox_delete_ne by done.
      rewrite Ed2, mailbox_store. rewrite bool_decide_eq_false_2 by done.
      rewrite Ed1, mailbox_store. rewrite bool_decide_eq_true_2 by done.
      by rewrite HmB. }
    rewrite Hbox.
    change (pollSignalingMessages _ sB1)
      with (pollSignalingMessages [(allOk k, MsgOffer a offerA)] sB1).
    assert (Hpoll : pollSignalingMessages [(allOk k, MsgOffer a offerA)] sB1
                    = handleOffer (allOk k) a offerA sB1).
    { unfold pollSignalingMessages. rewrite TgB1, TpB1. cbn.
      unfold handleSignalingMessage. cbn.
      by rewrite bool_decide_eq_false_2 by (rewrite PB1, PB; congruence). }
    by rewrite Hpoll. }
  assert (EsB2 : sB2 = handleOffer (allOk k) a offerA sB1)
    by (unfold sB2; by rewrite EB).
  assert (Ed4 : d4 = store (Some KAnswer) (Some g) (Some b) (Some a)
                       (Some (PDesc answerB)) t4 (delete keyB d3)).
  { unfold d4. rewrite EB. cbn [snd].
    rewrite (deliver_one sB1 _ _ t4 _ SB2). cbn. by rewrite GB1, PB1, GB, PB. }
  (* a polls and finds the answer of b *)
  set (sA3' := updPendingOffers (λ p, p ∖ {[b]})
                 (onPc (length (heap sA)) (pcSetRemote answerB) sA1)).
  assert (EA' : pollRound (λ _, allOk 0) t5 sA2 d4 = (sA3', delete keyA d4)).
  { rewrite EsA2. rewrite pollRound_unfold by done. cbv zeta.
    rewrite GA1, PA1, GA, PA. fold keyA.
    assert (Hbox : mailbox d4 keyA
                   = [{| stType := Some KAnswer; stFrom := Some b;
                         stPayload := Some (PDesc answerB);
                         timestamp := t4 |}]).
    { rewrite Ed4, mailbox_store. rewrite bool_decide_eq_true_2 by done.
      rewrite mailbox_delete_ne by done. rewrite Ed3.
      by rewrite mailbox_delete_eq. }
    rewrite Hbox.
    change (pollSignalingMessages _ sA1)
      with (pollSignalingMessages [(allOk 0, MsgAnswer b answerB)] sA1).
    assert (Hpoll : pollSignalingMessages [(allOk 0, MsgAnswer b answerB)] sA1
                    = sA3').
    { unfold pollSignalingMessages. rewrite TgA1, TpA1. cbn.
      unfold handleSignalingMessage. cbn.
      rewrite bool_decide_eq_false_2 by (rewrite PA1, PA; congruence).
      unfold handleAnswer.
      rewrite (awaitsAnswer_Some b _ pcA sA1 MA1 HA1).
      rewrite bool_decide_eq_true_2 by done. by rewrite answer_block_ok. }
    rewrite Hpoll. f_equal. by apply deliver_none. }
  assert (EsA3 : sA3 = sA3') by (unfold sA3; by rewrite EA').
  assert (Ed5 : d5 = delete keyA d4) by (unfold d5; by rewrite EA').
  rewrite EsA3, EsB2, Ed5.
  split; [exact EsA2|]. split.
  { exists (pcSetRemote answerB pcA). split; [|done].
    unfold connectionOf, sA3'. cbn. rewrite MA1. cbn.
    by rewrite list_lookup_alter_eq, HA1. }
  split; [by exists pcB2|].
  split; [unfold roleOf, sA3'; cbn; by rewrite IA1|].
  split; [exact RB2|]. split; [exact SA1|]. split.
  { rewrite SB2, SB1, <- app_assoc. cbn. unfold answerPost.
    by rewrite GB1, PB1. }
  split; [apply mailbox_delete_eq|].
  rewrite mailbox_delete_ne by done.
  rewrite Ed4, mailbox_store. rewrite bool_decide_eq_false_2 by done.
  apply mailbox_delete_eq.
Qed.

Lemma glare_through_the_relay_witness :
  let sA1 := initiateCall (allOk 1) "bob" aliceWithMedia in
  let d1 := deliver aliceWithMedia sA1 10 ∅ in
  let sB1 := initiateCall (allOk 2) "alice" bobWithMedia in
  let d2 := deliver bobWithMedia sB1 20 d1 in
  let sA2 := (pollRound (λ _, allOk 0) 30 sA1 d2).1 in
  let d3 := (pollRound (λ _, allOk 0) 30 sA1 d2).2 in
  let sB2 := (pollRound (λ _, allOk 3) 40 sB1 d3).1 in
  let d4 := (pollRound (λ _, allOk 3) 40 sB1 d3).2 in
  let sA3 := (pollRound (λ _, allOk 0) 50 sA2 d4).1 in
  ready "g" "alice" aliceWithMedia ∧ ready "g" "bob" bobWithMedia
  ∧ String.ltb "alice" "bob" = true
  ∧ ("bob" ∉ pendingOffers aliceWithMedia)
  ∧ hasWorking aliceWithMedia "bob" = false
  ∧ ("alice" ∉ pendingOffers bobWithMedia)
  ∧ hasWorking bobWithMedia "alice" = false
  ∧ mailbox (∅ : gmap string (list Wire)) (mailboxKey (Some "g") (Some "alice"))
    = []
  ∧ mailbox (∅ : gmap string (list Wire)) (mailboxKey (Some "g") (Some "bob"))
    = []
  ∧ sA2 = sA1
  ∧ roleOf sA3 "bob" = Some Initiator ∧ roleOf sB2 "alice" = Some Responder.
Proof.
  intros sA1 d1 sB1 d2 sA2 d3 sB2 d4 sA3.
  assert (H1 : ready "g" "alice" aliceWithMedia).
  { split; [by exists 7%nat|]. by repeat split. }
  assert (H2 : ready "g" "bob" bobWithMedia).
  { split; [by exists 8%nat|]. by repeat split. }
  assert (H3 : String.ltb "alice" "bob" = true) by reflexivity.
  assert (H4 : "bob" ∉ pendingOffers aliceWithMedia) by apply not_elem_of_empty.
  assert (H5 : hasWorking aliceWithMedia "bob" = false) by reflexivity.
  assert (H6 : "alice" ∉ pendingOffers bobWithMedia) by apply not_elem_of_empty.
  assert (H7 : hasWorking bobWithMedia "alice" = false) by reflexivity.
  assert (H8 : mailbox (∅ : gmap string (list Wire))
                 (mailboxKey (Some "g") (Some "alice")) = []) by reflexivity.
  assert (H9 : mailbox (∅ : gmap string (list Wire))
                 (mailboxKey (Some "g") (Some "bob")) = []) by reflexivity.
  pose proof (glare_through_the_relay "g" "alice" "bob" 1 2 3 10 20 30 40 50
                aliceWithMedia bobWithMedia ∅ H1 H2 H3 H4 H5 H6 H7 H8 H9) as H.
  cbv zeta in H. destruct H as (R0&_&_&R1&R2&_).
  repeat (split; [assumption|]). exact R2.
Defined.

(* ===================================================================== *)
(* 24. Summarization                                                     *)
(* ===================================================================== *)

Section SummarizationFacts.

Variables (trim : string → string) (jsLength : string → nat)
          (showNumber : Z → string).

Lemma truthy_string (x : string) : truthy (Some x) = negb (String.eqb x "").
Proof. reflexivity. Qed.

Lemma summarizeCatch_data (text : option string) :
  truthy text = true →
  summarizeCatch (SumData text)
  = Some {| sumStatus := 500;
            sumJson := SumError "Internal server error" None text |}.
Proof.
  intros H. unfold summarizeCatch, orElse. rewrite H.
  destruct text as [x|]; [done|discriminate].
Qed.

(** The function on a POST whose body has a text, field by field. *)
Lemma summarizeHandler_text (text : string) (apiKey : option string)
    (gemini : Gemini) :
  text ≠ "" →
  ∃ response,
    summarizeHandler trim jsLength "POST" (SumData (Some text)) apiKey gemini
    = Some response
    ∧ ((∃ status errorText t,
          gemini = GResponse status errorText (GText t)
          ∧ okStatus status = true ∧ truthy apiKey = true
          ∧ response = {| sumStatus := 200;
                          sumJson := SumSuccess text (trim t) (jsLength text)
                                       (jsLength (trim t)) |})
       ∨ (∃ error message,
            sumJson response = SumError error message (Some text)
            ∧ okStatus (sumStatus response) = false
            ∧ (sumStatus response = 503
               ↔ truthy apiKey = false
                 ∨ ∃ errorText data,
                     gemini = GResponse 503 (Some errorText) data))).
Proof.
  intros Ht. assert (Tt : truthy (Some text) = true) by by apply truthy_ne.
  unfold summarizeHandler. cbn [String.eqb Ascii.eqb Bool.eqb negb andb].
  rewrite Tt. cbn [negb].
  destruct (truthy apiKey) eqn:Ta; cbn [negb].
  2:{ eexists. split; [reflexivity|]. right. eexists _, _.
      split; [reflexivity|]. split; [reflexivity|]. cbn. split; eauto. }
  destruct gemini as [|status errorText data].
  { rewrite summarizeCatch_data by done. eexists. split; [reflexivity|].
    right. eexists _, _. split; [reflexivity|]. split; [reflexivity|]. cbn.
    split; [discriminate|]. intros [?|(?&?&?)]; discriminate. }
  destruct (okStatus status) eqn:Hok; cbn [negb].
  - assert (Hne : status ≠ 503).
    { intros ->. discriminate. }
    destruct data as [| | |t].
    + rewrite summarizeCatch_data by done. eexists. split; [reflexivity|].
      right. eexists _, _. split; [reflexivity|]. split; [reflexivity|].
      cbn. split; [discriminate|]. intros [?|(?&?&?)]; congruence.
    + eexists. split; [reflexivity|]. right. eexists _, _.
      split; [reflexivity|]. split; [reflexivity|]. cbn.
      split; [discriminate|]. intros [?|(?&?&?)]; congruence.
    + rewrite summarizeCatch_data by done. eexists. split; [reflexivity|].
      right. eexists _, _. split; [reflexivity|]. split; [reflexivity|].
      cbn. split; [discriminate|]. intros [?|(?&?&?)]; congruence.
    + eexists. split; [reflexivity|]. left. by eexists _, _, _.
  - destruct errorText as [e|].
    + eexists. split; [reflexivity|]. right. eexists _, _.
      split; [reflexivity|]. split; [exact Hok|]. cbn. split.
      * intros ->. right. eauto.
      * intros [?|(?&?&[= -> _ _])]; [congruence|done].
    + rewrite summarizeCatch_data by done. eexists. split; [reflexivity|].
      right. eexists _, _. split; [reflexivity|]. split; [reflexivity|].
      cbn. split; [discriminate|]. intros [?|(?&?&?)]; congruence.
Qed.

(** X24. The answers of the summarization function. It rejects, with no
    response of its own, exactly on a POST whose body is not JSON or is
    the JSON text [null]: its [catch] block parses the body again and
    throws again. OPTIONS is answered 200 and any method other than
    OPTIONS and POST 405, before the body is looked at. A POST without
    a body is answered 500 with [originalText] the empty string; a POST
    whose body has no text, or an empty one, is answered 400, also when
    no API key is configured. A POST with a text is always answered:
    either 200 with a success carrying the text, the trimmed text of
    the Gemini API and their lengths (then the key is configured and
    the API answered ok), or an error status (not in 200..299) whose
    JSON carries the text as [originalText]; that status is 503
    exactly when no key is configured or the Gemini API answered 503
    with a readable body. *)
Theorem summarize_function_answers (httpMethod : string) (body : SummaryBody)
    (apiKey : option string) (gemini : Gemini) :
  let r := summarizeHandler trim jsLength httpMethod body apiKey gemini in
  (r = None ↔ httpMethod = "POST" ∧ (body = SumMalformed ∨ body = SumNull))
  ∧ (httpMethod = "OPTIONS" →
     r = Some {| sumStatus := 200; sumJson := SumNoContent |})
  ∧ (httpMethod ≠ "OPTIONS" → httpMethod ≠ "POST" →
     r = Some {| sumStatus := 405;
                 sumJson := SumError "Method not allowed" None None |})
  ∧ (httpMethod = "POST" → body = SumEmpty →
     r = Some {| sumStatus := 500;
                 sumJson := SumError "Internal server error" None (Some "") |})
  ∧ (∀ text, httpMethod = "POST" → body = SumData text →
     truthy text = false →
     r = Some {| sumStatus := 400;
                 sumJson := SumError "Text is required" None None |})
  ∧ (∀ text, httpMethod = "POST" → body = SumData (Some text) → text ≠ "" →
     ∃ response,
       r = Some response
       ∧ ((∃ status errorText t,
             gemini = GResponse status errorText (GText t)
             ∧ okStatus status = true ∧ truthy apiKey = true
             ∧ response = {| sumStatus := 200;
                             sumJson := SumSuccess text (trim t)
                                          (jsLength text)
                                          (jsLength (trim t)) |})
          ∨ (∃ error message,
               sumJson response = SumError error message (Some text)
               ∧ okStatus (sumStatus response) = false
               ∧ (sumStatus response = 503
                  ↔ truthy apiKey = false
                    ∨ ∃ errorText data,
                        gemini = GResponse 503 (Some errorText) data)))).
Proof.
  intros r. split; [|split; [|split; [|split; [|split]]]].
  - subst r. destruct (decide (httpMethod = "POST")) as [->|HP].
    + destruct body as [| | |[x|]].
      * split; [done|]. intros [_ [?|?]]; done.
      * split; [eauto|done].
      * split; [eauto|done].
      * split; [|intros [_ [?|?]]; done].
        destruct (decide (x = "")) as [->|Hx]; [done|].
        destruct (summarizeHandler_text x apiKey gemini Hx) as (resp&E&_).
        by rewrite E.
      * split; [done|]. intros [_ [?|?]]; done.
    + split; [|intros [? _]; done]. unfold summarizeHandler.
      destruct (String.eqb_spec httpMethod "OPTIONS"); [done|].
      destruct (String.eqb_spec httpMethod "POST"); done.
  - intros ->. done.
  - intros HO HP. subst r. unfold summarizeHandler.
    destruct (String.eqb_spec httpMethod "OPTIONS"); [done|].
    destruct (String.eqb_spec httpMethod "POST"); [done|]. done.
  - intros -> ->. done.
  - intros text -> -> Tt. subst r. unfold summarizeHandler.
    cbn [String.eqb Ascii.eqb Bool.eqb negb andb]. by rewrite Tt.
  - intros text -> -> Ht. by apply summarizeHandler_text.
Qed.








End SummarizationFacts.




(* ===================================================================== *)
(* 25. The cleanup of the mounted hook                                   *)
(* ===================================================================== *)

Lemma aliceRetryDue_reachable :
  reachable (Some "g") (Some "alice") aliceRetryDue.
Proof. eexists. reflexivity. Qed.

(** X2. The cleanup of the effect on [localStream], in any state the
    hook can have reached. It stops the tracks of the local stream of
    its render, leaves every connection object ever created closed,
    empties all seven refs and clears the polling interval: no poll
    follows until the polling effect runs again. It keeps the local and
    the remote streams in the state. It cancels none of the pending
    timeouts: a retry timer that is due fires after the cleanup and,
    with a local stream and both ids, calls its peer again, as
    Initiator, with a new offer. *)
Theorem cleanup_spares_timeouts (g p : option string) (m : Mounted) :
  reachable g p (hook m) →
  let s := hook m in
  let m' := effectCleanup m in
  let s' := hook m' in
  (∀ r pc, heap s' !! r = Some pc → connectionState pc = CClosed)
  ∧ length (heap s') = length (heap s)
  ∧ peerConnections s' = ∅ ∧ connectionAttempts s' = ∅
  ∧ pendingOffers s' = ∅ ∧ isInitiator s' = ∅
  ∧ connectionStates s' = ∅ ∧ establishedConnections s' = ∅
  ∧ iceCandidateQueue s' = ∅
  ∧ stoppedTracks m' = stoppedTracks m ++ option_list (localStream s)
  ∧ pollingInterval m' = false
  ∧ (∀ messages, pollTick messages m' = m')
  ∧ pollingInterval (pollingEffect m')
    = truthy (gameId s) && truthy (playerId s)
  ∧ localStream s' = localStream s ∧ remoteStreams s' = remoteStreams s
  ∧ sent s' = sent s
  ∧ timers s' = timers s
  ∧ ∀ (n i : nat) (t : Timer) (q : string),
      timers s !! i = Some t → callback t = RetryCall q → due t ≤ now s →
      is_Some (localStream s) → truthy (gameId s) = true →
      truthy (playerId s) = true →
      let s'' := fire (allOk n) i s' in
      s'' = initiateCall (allOk n) q (updTimers (delete i) s')
      ∧ sent s'' = sent s ++ [offerPost s q n]
      ∧ roleOf s'' q = Some Initiator
      ∧ q ∈ pendingOffers s''.
Proof.
  intros Hr s m' s'.
  pose proof (wellFormed_reachable g p s Hr) as H.
  destruct (cleanup_closes s H) as (C1&C2).
  destruct (cleanup_fields s) as (E1&E2&E3&E4&E5&E6&E7&E8&E9&E10).
  destruct (cleanup_frame s) as (F1&F2&F3&_).
  split; [exact C1|]. split; [exact C2|].
  split; [exact E1|]. split; [exact E2|]. split; [exact E3|].
  split; [exact E4|]. split; [exact E5|]. split; [exact E6|].
  split; [exact E7|]. split; [reflexivity|]. split; [reflexivity|].
  split; [reflexivity|].
  split.
  { unfold pollingEffect. change (hook m') with (cleanup s).
    rewrite F2, F3.
    by destruct (truthy (gameId s) && truthy (playerId s)). }
  split; [exact F1|]. split; [exact E9|]. split; [exact E10|].
  split; [exact E8|].
  intros n i t q Ht Hcb Hdue Hst Hg Hp.
  exact (retry_after_cleanup n i q t s Ht Hcb Hdue Hst Hg Hp).
Qed.

Lemma cleanup_spares_timeouts_witness :
  let m := {| hook := aliceRetryDue; pollingInterval := true;
              stoppedTracks := [] |} in
  reachable (Some "g") (Some "alice") (hook m)
  ∧ stoppedTracks (effectCleanup m) = [7%nat]
  ∧ pollingInterval (effectCleanup m) = false
  ∧ peerConnections (hook (effectCleanup m)) = ∅
  ∧ roleOf (fire (allOk 9) 0 (hook (effectCleanup m))) "bob" = Some Initiator.
Proof.
  intros m.
  pose proof (cleanup_spares_timeouts (Some "g") (Some "alice") m
                aliceRetryDue_reachable) as R.
  cbv zeta in R.
  destruct R as (_&_&R3&_&_&_&_&_&_&R10&R11&_&_&_&_&_&_&R18).
  split; [exact aliceRetryDue_reachable|].
  split; [exact R10|]. split; [exact R11|]. split; [exact R3|].
  assert (H : ∃ t, timers aliceRetryDue !! 0%nat = Some t
                   ∧ callback t = RetryCall "bob"
                   ∧ due t ≤ now aliceRetryDue).
  { eexists. split; [by vm_compute|]. split; by vm_compute. }
  destruct H as (t&H4&H5&H6).
  assert (H7 : is_Some (localStream aliceRetryDue)) by (by exists 7%nat).
  assert (H8 : truthy (gameId aliceRetryDue) = true) by reflexivity.
  assert (H9 : truthy (playerId aliceRetryDue) = true) by reflexivity.
  exact (proj1 (proj2 (proj2 (R18 9%nat 0%nat t "bob" H4 H5 H6 H7 H8 H9)))).
Defined.
